(** * Movers: the motion engine of the aim trainer

    A shallow embedding of [js/systems/movers.js], of the hit handling and
    the frame update of [js/main.js] ([shoot], [handleTrigger],
    [update]), of [js/systems/targets.js] and [js/systems/flight.js] and
    of the helpers of [js/utils/math.js], [js/config.js] and
    [js/state.js] they use.

    Conventions of the embedding.
    - JavaScript numbers are IEEE doubles; they are idealised as real
      numbers ([R]).  Counters and indices ([hits], the role and episode
      counts, array indices) are natural numbers; [CFG.moversCount] is
      an integer, which [| 0] wraps to 32 bits.
    - The modules reach state.js through [import * as state].  Reading
      a binding and mutating an exported object ([state.player],
      [state.movers], an element of [state.targets]) work as written;
      an assignment to a binding itself ([state.x = v] for an
      [export let x]) throws a [TypeError], as the namespace object of
      a module is read-only and modules are strict code.
    - [Math.random()] reads the next cell of a fixed tape [nat -> R];
      [nowMs()] reads the field [clock] of the world, which the caller
      advances between calls.
    - A mover object is referred to by its index in [state.movers]; the
      module-level variables of movers.js ([heatMap], [roleCounts],
      [episodeCounts]) are fields of the world.
    - Every mover is built by [spawnMoverInWindow], which defines all
      fields except [microGainEff], [phaseFlipUntil] and [zigZagUntil];
      these three are options, the others are plain values and the
      [!= null] tests of the source on them are always true. *)

From Stdlib Require Import Reals Lra Lia ZArith List Bool.
From stdpp Require Import base list.
Import ListNotations.

Open Scope R_scope.

(** ** JavaScript numeric helpers *)

Definition Rlt_b (a b : R) : bool := if Rlt_dec a b then true else false.
Definition Rle_b (a b : R) : bool := if Rle_dec a b then true else false.
Definition Req_b (a b : R) : bool := if Req_dec_T a b then true else false.

(** [a || d] on numbers: [d] when [a] is zero. *)
Definition orElse (a d : R) : R := if Req_b a 0 then d else a.

(** [Math.hypot(a, b)]. *)
Definition hypot (a b : R) : R := sqrt (a * a + b * b).

(** [Math.floor], as an integer. *)
Definition floor (a : R) : Z := Zfloor a.

(** Truncation toward zero, used by the remainder operator. *)
Definition trunc (a : R) : Z := if Rle_b 0 a then Zfloor a else Zceil a.

(** [a % b] on numbers: the remainder has the sign of the dividend. *)
Definition jsMod (a b : R) : R := a - b * IZR (trunc (a / b)).

(** [Math.pow(a, e)] for a positive exponent [e]: zero at zero.  A
    negative base with a fractional exponent gives NaN in JavaScript; it
    is mapped to zero here and excluded by the statements below. *)
Definition jsPow (a e : R) : R := if Rlt_b 0 a then Rpower a e else 0.

(** utils/math.js *)
Definition clamp (v a b : R) : R := Rmax a (Rmin b v).

Definition clampZ (v a b : Z) : Z := Z.max a (Z.min b v).

(** [v | 0] for an integer [v]: the conversion to a signed 32-bit
    integer, which wraps around at 2^31. *)
Definition toInt32 (v : Z) : Z := (v + 2 ^ 31) mod 2 ^ 32 - 2 ^ 31.

Record Screen := { sx : R; sy : R }.
Record Delta := { dx : R; dy : R }.

Definition worldToScreen (dx dy cos sin : R) : Screen :=
  {| sx := (dx * cos) - (dy * sin); sy := (dx * sin) + (dy * cos) |}.

Definition screenToWorld (sx sy cos sin : R) : Delta :=
  {| dx := (sx * cos) + (sy * sin); dy := (- sx * sin) + (sy * cos) |}.

Lemma Rlt_b_true a b : a < b -> Rlt_b a b = true.
Proof. intros H. unfold Rlt_b. destruct (Rlt_dec a b); [reflexivity | contradiction]. Qed.

Lemma Rlt_b_false a b : ~ a < b -> Rlt_b a b = false.
Proof. intros H. unfold Rlt_b. destruct (Rlt_dec a b); [contradiction | reflexivity]. Qed.

Lemma Rle_b_true a b : a <= b -> Rle_b a b = true.
Proof. intros H. unfold Rle_b. destruct (Rle_dec a b); [reflexivity | contradiction]. Qed.

Lemma Rle_b_false a b : ~ a <= b -> Rle_b a b = false.
Proof. intros H. unfold Rle_b. destruct (Rle_dec a b); [contradiction | reflexivity]. Qed.

Lemma Req_b_true a b : a = b -> Req_b a b = true.
Proof. intros H. unfold Req_b. destruct (Req_dec_T a b); [reflexivity | contradiction]. Qed.

Lemma Req_b_false a b : a <> b -> Req_b a b = false.
Proof. intros H. unfold Req_b. destruct (Req_dec_T a b); [contradiction | reflexivity]. Qed.

Lemma Rlt_b_spec a b : reflect (a < b) (Rlt_b a b).
Proof. unfold Rlt_b. destruct (Rlt_dec a b); constructor; assumption. Qed.

Lemma Rle_b_spec a b : reflect (a <= b) (Rle_b a b).
Proof. unfold Rle_b. destruct (Rle_dec a b); constructor; assumption. Qed.

Lemma Req_b_spec a b : reflect (a = b) (Req_b a b).
Proof. unfold Req_b. destruct (Req_dec_T a b); constructor; assumption. Qed.

Lemma orElse_0 a : orElse a 0 = a.
Proof. unfold orElse. destruct (Req_b_spec a 0); congruence. Qed.

(** ** config.js *)

Definition MARGIN : R := 140.
Definition MOVERS_MAX_HITS : nat := 3.
Definition HEAL_INTERVAL_MS : R := 4000.
Definition SUCCESS_COOLDOWN_MS : R := 160.
Definition CROSSHAIR_FLASH_MS : R := 90.
Definition MISS_FLASH_MS : R := 140.

(** The part of [CFG] the movers read. *)
Record Config := {
  regenOnHit : bool;
  moversEnabled : bool;
  moversCount : Z;
  moversSpeed : R;
  moversAvoid : R;
  moversR : R;
  moversFlee : bool;
  moversHit1Boost : R;
  moversHit2Boost : R
}.

(** ** Micro-patterns *)

Inductive Pattern :=
  figure8 | figure8Wide | figure8Spiral | spiral | spiralBurst | rosette | swerveStop.

(** [Object.keys(MICRO_PATTERNS)], in insertion order. *)
Definition MICRO_PATTERN_NAMES : list Pattern :=
  [figure8; figure8Wide; figure8Spiral; spiral; spiralBurst; rosette; swerveStop].

(** [name.includes('spiral')]: the test is case sensitive, so
    [figure8Spiral] does not match. *)
Definition includes_spiral (p : Pattern) : bool :=
  match p with spiral | spiralBurst => true | _ => false end.

(** [name.startsWith('figure8')] and [name.includes('figure8')]. *)
Definition startsWith_figure8 (p : Pattern) : bool :=
  match p with figure8 | figure8Wide | figure8Spiral => true | _ => false end.

Record Opts := {
  o_w : R;
  phase1 : R;
  phase2 : R;
  elapsed : R;
  duration : R
}.

Record Vec2 := { vx : R; vy : R }.

Definition pat_figure8 (t gain : R) (opts : Opts) : Vec2 :=
  let w := o_w opts * gain in
  let x := sin (w * t + orElse (phase1 opts) 0) in
  let y := sin (w * 2 * t + orElse (phase2 opts) 0) in
  {| vx := x; vy := y |}.

Definition pat_figure8Wide (t gain : R) (opts : Opts) : Vec2 :=
  let w := o_w opts * gain in
  let x := sin (w * t + orElse (phase1 opts) 0) in
  let y := sin (w * 1.4 * t + orElse (phase2 opts) 0) in
  {| vx := x; vy := y * 0.8 |}.

Definition pat_figure8Spiral (t gain : R) (opts : Opts) : Vec2 :=
  let w := o_w opts * gain in
  let cycle := if Rlt_b 0 (duration opts) then elapsed opts / duration opts else 0 in
  let scale := 0.3 + 0.7 * cycle in
  let x := sin (w * t + orElse (phase1 opts) 0) * scale in
  let y := sin (w * 2 * t + orElse (phase2 opts) 0) * scale in
  {| vx := x; vy := y |}.

Definition pat_spiral (t gain : R) (opts : Opts) : Vec2 :=
  let w := o_w opts * gain in
  let cycle := if Rlt_b 0 (duration opts)
               then jsMod (elapsed opts) (duration opts) / duration opts else 0 in
  let r := jsPow cycle 0.9 in
  let a := w * t + orElse (phase1 opts) 0 in
  {| vx := cos a * r; vy := sin a * r |}.

Definition pat_spiralBurst (t gain : R) (opts : Opts) : Vec2 :=
  let w := o_w opts * gain in
  let cycles := 3 in
  let cycle := if Rlt_b 0 (duration opts)
               then jsMod (elapsed opts) (duration opts) / duration opts else 0 in
  let sub := jsMod (cycle * cycles) 1 in
  let r := jsPow sub 0.7 in
  let a := w * t + orElse (phase1 opts) 0 in
  {| vx := cos a * r; vy := sin a * r |}.

Definition pat_rosette (t gain : R) (opts : Opts) : Vec2 :=
  let w := o_w opts * gain in
  let k := 3.7 in
  let a := 0.35 in
  let angle1 := w * t + orElse (phase1 opts) 0 in
  let angle2 := k * w * t + orElse (phase2 opts) 0 in
  {| vx := cos angle1 + a * cos angle2; vy := sin angle1 - a * sin angle2 |}.

Definition pat_swerveStop (t gain : R) (opts : Opts) : Vec2 :=
  let w := o_w opts * gain in
  let cycle := if Rlt_b 0 (duration opts)
               then jsMod (elapsed opts) (duration opts) / duration opts else 0 in
  if Rlt_b cycle 0.35 then {| vx := 0; vy := 0 |}
  else
    let p := (cycle - 0.35) / 0.65 in
    let a := w * t * 1.2 in
    let ease := p * p * (3 - 2 * p) in
    {| vx := cos a * ease; vy := sin a * 0.5 * ease |}.

(** [MICRO_PATTERNS[name]]. *)
Definition MICRO_PATTERNS (p : Pattern) : R -> R -> Opts -> Vec2 :=
  match p with
  | figure8 => pat_figure8
  | figure8Wide => pat_figure8Wide
  | figure8Spiral => pat_figure8Spiral
  | spiral => pat_spiral
  | spiralBurst => pat_spiralBurst
  | rosette => pat_rosette
  | swerveStop => pat_swerveStop
  end.

(** ** Size tiers *)

Inductive Tier := TierS | TierM | TierL.

(** [MICRO_TIERS = ['S', 'M', 'L', 'M', 'S']]. *)
Definition MICRO_TIERS : list Tier := [TierS; TierM; TierL; TierM; TierS].

(** [MICRO_TIERS.indexOf(t)]. *)
Definition MICRO_TIERS_indexOf (t : Tier) : nat :=
  match t with TierS => 0 | TierM => 1 | TierL => 2 end.

Definition TIER_SCALE (t : Tier) : R :=
  match t with TierS => 0.15 | TierM => 0.35 | TierL => 0.60 end.

Definition SPIRAL_SCALE (t : Tier) : R :=
  match t with TierS => 0.25 | TierM => 0.50 | TierL => 0.75 end.

(** ** Randomness and state passing *)

(** A state monad; [Math.random()] and the mutable module state are
    threaded through it. *)
Definition St (S A : Type) : Type := S -> A * S.

Definition ret {S A} (a : A) : St S A := fun s => (a, s).

Definition bind {S A B} (c : St S A) (k : A -> St S B) : St S B :=
  fun s => let (a, s') := c s in k a s'.

Notation "'do' x <- c ; k" := (bind c (fun x => k))
  (at level 10, x name, c at level 100, k at level 200).
Notation "'do' ' p <- c ; k" := (bind c (fun x => match x with p => k end))
  (at level 10, p pattern, c at level 100, k at level 200).

(** The tape of [Math.random()] results and the position of the next
    unread cell. *)
Record Rng := { tape : nat -> R; cursor : nat }.

Definition Rand (A : Type) : Type := St Rng A.

(** [Math.random()]. *)
Definition random : Rand R :=
  fun g => (tape g (cursor g), {| tape := tape g; cursor := S (cursor g) |}).

(** utils/math.js: [rand(a, b)]. *)
Definition rand (a b : R) : Rand R :=
  do u <- random; ret (a + u * (b - a)).

(** [Math.random()] returns a number in [0, 1). *)
Definition tape_ok (g : Rng) : Prop := forall n, 0 <= tape g n < 1.

(** The running sums [cum] built by the weighted draws. *)
Fixpoint cumulative (sum : R) (ws : list R) : list R :=
  match ws with
  | [] => []
  | w :: ws' => (sum + w) :: cumulative (sum + w) ws'
  end.

(** [for (i...) if (r <= cum[i]) { chosen = i; break; }], from index [i];
    [None] when no running sum reaches [r]. *)
Fixpoint firstReaching (r : R) (cum : list R) (i : nat) : option nat :=
  match cum with
  | [] => None
  | c :: cum' => if Rle_b r c then Some i else firstReaching r cum' (S i)
  end.

(** ** Roles and episodes *)

Inductive Role := Runner | Dancer | Trickster | Kiter.
Inductive Episode := Explore | Perform | Evade | Kite.

Definition Role_eqb (a b : Role) : bool :=
  match a, b with
  | Runner, Runner | Dancer, Dancer | Trickster, Trickster | Kiter, Kiter => true
  | _, _ => false
  end.

Definition Episode_eqb (a b : Episode) : bool :=
  match a, b with
  | Explore, Explore | Perform, Perform | Evade, Evade | Kite, Kite => true
  | _, _ => false
  end.

(** [for (const r in ROLES)] and [for (const e in EPISODES)]. *)
Definition ROLE_NAMES : list Role := [Runner; Dancer; Trickster; Kiter].
Definition EPISODE_NAMES : list Episode := [Explore; Perform; Evade; Kite].

(** What a role or an episode preset carries; a pattern without an
    entry in [patternWeights] is [None]. *)
Record Preset := {
  anchorBias : R;
  patternWeights : Pattern -> option R;
  tierWeights : Tier -> R;
  macroSpeed : R
}.

(** Roles have no [macroSpeed]; the field is not read for them. *)
Definition ROLES (r : Role) : Preset :=
  match r with
  | Runner => {|
      anchorBias := 0.7;
      patternWeights := fun p => match p with
        | spiral => Some 2 | spiralBurst => Some 1.5 | figure8 => Some 1
        | figure8Wide => Some 0.5 | figure8Spiral => Some 0.5 | _ => None end;
      tierWeights := fun t => match t with TierS => 1 | TierM => 1.5 | TierL => 2 end;
      macroSpeed := 1 |}
  | Dancer => {|
      anchorBias := -0.2;
      patternWeights := fun p => match p with
        | figure8 => Some 2 | figure8Wide => Some 1.5 | figure8Spiral => Some 1.2
        | spiral => Some 0.5 | spiralBurst => Some 0.5 | _ => None end;
      tierWeights := fun t => match t with TierS => 1.5 | TierM => 1 | TierL => 0.8 end;
      macroSpeed := 1 |}
  | Trickster => {|
      anchorBias := 0.0;
      patternWeights := fun p => match p with
        | figure8Wide => Some 2 | figure8Spiral => Some 2 | spiralBurst => Some 1
        | spiral => Some 0.8 | figure8 => Some 0.8 | _ => None end;
      tierWeights := fun t => match t with TierS => 1 | TierM => 1 | TierL => 1 end;
      macroSpeed := 1 |}
  | Kiter => {|
      anchorBias := 0.5;
      patternWeights := fun p => match p with
        | spiral => Some 1.8 | spiralBurst => Some 1.8 | figure8 => Some 1
        | figure8Wide => Some 0.5 | figure8Spiral => Some 0.5 | _ => None end;
      tierWeights := fun t => match t with TierS => 0.8 | TierM => 1.2 | TierL => 1.8 end;
      macroSpeed := 1 |}
  end.

Definition EPISODES (e : Episode) : Preset :=
  match e with
  | Explore => {|
      anchorBias := 0.2;
      patternWeights := fun p => Some match p with
        | figure8 => 1 | figure8Wide => 1 | figure8Spiral => 0.7 | spiral => 0.6
        | spiralBurst => 0.5 | rosette => 0.8 | swerveStop => 0.8 end;
      tierWeights := fun t => match t with TierS => 1.2 | TierM => 1.0 | TierL => 0.8 end;
      macroSpeed := 1.1 |}
  | Perform => {|
      anchorBias := 0.0;
      patternWeights := fun p => Some match p with
        | figure8 => 2 | figure8Wide => 1.5 | figure8Spiral => 1.2 | spiral => 1.2
        | spiralBurst => 1.0 | rosette => 0.7 | swerveStop => 0.5 end;
      tierWeights := fun t => match t with TierS => 0.8 | TierM => 1.2 | TierL => 1.6 end;
      macroSpeed := 0.7 |}
  | Evade => {|
      anchorBias := 0.6;
      patternWeights := fun p => Some match p with
        | figure8 => 0.7 | figure8Wide => 0.7 | figure8Spiral => 0.8 | spiral => 0.6
        | spiralBurst => 0.8 | rosette => 1.0 | swerveStop => 1.5 end;
      tierWeights := fun t => match t with TierS => 1.6 | TierM => 1.0 | TierL => 0.7 end;
      macroSpeed := 1.4 |}
  | Kite => {|
      anchorBias := 0.8;
      patternWeights := fun p => Some match p with
        | figure8 => 0.8 | figure8Wide => 0.6 | figure8Spiral => 0.7 | spiral => 1.5
        | spiralBurst => 1.3 | rosette => 1.2 | swerveStop => 0.6 end;
      tierWeights := fun t => match t with TierS => 0.9 | TierM => 1.1 | TierL => 1.4 end;
      macroSpeed := 1.0 |}
  end.

(** [weights[name] || 1]. *)
Definition weightOr1 (w : option R) : R :=
  match w with Some v => orElse v 1 | None => 1 end.

Definition EPISODE_MAX_COUNT : nat := 2.
Definition ROLE_MAX_COUNT : nat := 2.

(** ** Counted pools

    [roleCounts] and [episodeCounts] are objects used as maps from names
    to counts; [Object.entries] lists them in insertion order, so they
    are association lists here. *)
Section Pool.
Context {K : Type} (eqb : K -> K -> bool).

#[local] Abbreviation Counts := (list (K * nat)).

(** [counts[k]]; [None] is [undefined]. *)
Fixpoint counts_get (cs : Counts) (k : K) : option nat :=
  match cs with
  | [] => None
  | (k', c) :: cs' => if eqb k' k then Some c else counts_get cs' k
  end.

(** [counts[k] = v]: in place for an existing key, else a new last key. *)
Fixpoint counts_set (cs : Counts) (k : K) (v : nat) : Counts :=
  match cs with
  | [] => [(k, v)]
  | (k', c) :: cs' =>
      if eqb k' k then (k', v) :: cs' else (k', c) :: counts_set cs' k v
  end.

(** [for (const k in TABLE) if (counts[k] == null) counts[k] = 0]. *)
Definition counts_init (names : list K) (cs : Counts) : Counts :=
  fold_left (fun cs k => match counts_get cs k with
                         | None => counts_set cs k 0%nat
                         | Some _ => cs
                         end) names cs.

(** The search for the least count: [min] starts at [Infinity]
    ([None]) and [chosen] at [undefined]. *)
Definition leastCount (cs : Counts) : option nat * option K :=
  fold_left (fun (acc : option nat * option K) (e : K * nat) =>
               let (name, count) := e in
               match fst acc with
               | None => (Some count, Some name)
               | Some min => if (count <? min)%nat then (Some count, Some name) else acc
               end) cs (None, None).

(** The common body of [pickRole] and [pickEpisode].  [dflt] stands
    for [undefined]; it is returned only when the table of names is
    empty or the tape leaves [0, 1). *)
Definition pick (names : list K) (maxCount : nat) (dflt : K) (cs : Counts)
  : Rand (K * Counts) :=
  let cs := counts_init names cs in
  let candidates := filter (fun e : K * nat => (snd e <? maxCount)%nat) cs in
  do chosen <-
    (if (0 <? length candidates)%nat then
       do u <- random;
       let idx := Z.to_nat (floor (u * INR (length candidates))) in
       ret (fst <$> candidates !! idx)
     else ret (snd (leastCount cs)));
  let chosen := default dflt chosen in
  (* counts[chosen]++ *)
  let cs := counts_set cs chosen (S (default 0%nat (counts_get cs chosen))) in
  ret (chosen, cs).

(** [if (k && counts[k] != null) counts[k] = Math.max(0, counts[k] - 1)] *)
Definition counts_release (cs : Counts) (k : K) : Counts :=
  match counts_get cs k with
  | Some c => counts_set cs k (Nat.max 0 (c - 1))
  | None => cs
  end.

(** [counts[k] = (counts[k] || 0) + 1] *)
Definition counts_bump (cs : Counts) (k : K) : Counts :=
  counts_set cs k (default 0%nat (counts_get cs k) + 1)%nat.
End Pool.

(** A pool of counts keyed by [K]. *)
Abbreviation Counts K := (list (K * nat)).

Definition pickRole : Counts Role -> Rand (Role * Counts Role) :=
  pick Role_eqb ROLE_NAMES ROLE_MAX_COUNT Runner.

Definition pickEpisode : Counts Episode -> Rand (Episode * Counts Episode) :=
  pick Episode_eqb EPISODE_NAMES EPISODE_MAX_COUNT Explore.

(** ** Heat map *)

Definition HEAT_COLS : nat := 16.
Definition HEAT_ROWS : nat := 9.
Definition HEATMAP_DECAY : R := 0.98.
Definition HEATMAP_INCREMENT : R := 1.0.

Abbreviation HeatMap := (list (list R)).

(** [Array.from({ length: HEAT_ROWS }, () => new Array(HEAT_COLS).fill(0))] *)
Definition heatMap_init : HeatMap := replicate HEAT_ROWS (replicate HEAT_COLS 0).

(** [heatMap[r][c]]; the indices the code uses are always inside the grid. *)
Definition heat_at (h : HeatMap) (r c : nat) : R :=
  default 0 (row ← h !! r; row !! c).

(** [heatMap[r][c] += amount] *)
Definition heat_add (h : HeatMap) (r c : nat) (amount : R) : HeatMap :=
  alter (alter (fun v => v + amount) c) r h.

(** [for (let i = 0; i < n; i++) body(i)] over a value that is updated
    in place. *)
Definition for_range {A : Type} (n : nat) (body : nat -> A -> A) (a : A) : A :=
  fold_left (fun acc i => body i acc) (seq 0 n) a.

Definition decayHeatMap (h : HeatMap) : HeatMap :=
  for_range HEAT_ROWS (fun r h =>
    alter (fun row =>
      for_range HEAT_COLS (fun c row => alter (fun v => v * HEATMAP_DECAY) c row) row) r h) h.

Record Cell := { row : nat; col : nat }.

Definition getCellForPos (sx sy limX limY : R) : Cell :=
  let cellW := (limX * 2) / INR HEAT_COLS in
  let cellH := (limY * 2) / INR HEAT_ROWS in
  let cx := floor ((sx + limX) / cellW) in
  let cy := floor ((sy + limY) / cellH) in
  let col := clampZ cx 0 (Z.of_nat HEAT_COLS - 1) in
  let row := clampZ cy 0 (Z.of_nat HEAT_ROWS - 1) in
  {| row := Z.to_nat row; col := Z.to_nat col |}.

(** ** Movers

    The fields of a mover object, grouped as the data model groups them. *)

(** World position and velocity, radius. *)
Record Kin := { m_x : R; m_y : R; m_vx : R; m_vy : R; m_r : R }.

(** Combat state. *)
Record Combat := {
  hitUntil : R;
  hits : nat;
  escapeBoost : R;
  lastHitTime : R;
  dead : bool;
  deadStart : R
}.

(** Fields kept for the older implementation; [pattern] is the index of
    the name in [PATTERNS]. *)
Record Legacy := {
  originX : R;
  originY : R;
  t0 : R;
  pattern : nat;
  nextPatternSwitch : R;
  anchorSx : R;
  anchorSy : R;
  anchorExpires : R
}.

(** The macro anchor and its transition. *)
Record Anchor := {
  anchorPosSx : R;
  anchorPosSy : R;
  anchorTargetSx : R;
  anchorTargetSy : R;
  anchorVelSx : R;
  anchorVelSy : R;
  anchorMoveStart : R;
  anchorMoveDuration : R;
  anchorMoveEnd : R
}.

Inductive MicroType := type_spiral | type_figure8.

(** The active micro-pattern. *)
Record Micro := {
  microPattern : Pattern;
  microType : MicroType;
  microTier : Tier;
  microTierIndex : nat;
  microStart : R;
  microDuration : R;
  microBlendStart : R;
  microNextSwitch : R;
  prevOffset : Vec2;
  microGain : R;
  nonFigureCount : nat
}.

(** Phases, rotating frame, modulation and feints. *)
Record Modul := {
  p1 : R;
  p2 : R;
  wCurrent : R;
  frameAngle : R;
  frameRate : R;
  amPhase : R;
  fmPhase : R;
  microGainEff : option R;
  phaseFlipUntil : option R;
  zigZagUntil : option R
}.

Record Behaviour := {
  role : Role;
  roleExpires : R;
  episode : Episode;
  episodeExpires : R;
  fleeSide : R
}.

Record Dna := { wBase : R; microGainMin : R; microGainMax : R; feintChance : R }.

Record Mover := {
  kin : Kin;
  combat : Combat;
  legacy : Legacy;
  anchor : Anchor;
  micro : Micro;
  modul : Modul;
  beh : Behaviour;
  dna : Dna
}.

Definition set_kin (k : Kin) (m : Mover) : Mover :=
  {| kin := k; combat := combat m; legacy := legacy m; anchor := anchor m;
     micro := micro m; modul := modul m; beh := beh m; dna := dna m |}.

Definition set_combat (c : Combat) (m : Mover) : Mover :=
  {| kin := kin m; combat := c; legacy := legacy m; anchor := anchor m;
     micro := micro m; modul := modul m; beh := beh m; dna := dna m |}.

Definition set_legacy (l : Legacy) (m : Mover) : Mover :=
  {| kin := kin m; combat := combat m; legacy := l; anchor := anchor m;
     micro := micro m; modul := modul m; beh := beh m; dna := dna m |}.

Definition set_anchor (a : Anchor) (m : Mover) : Mover :=
  {| kin := kin m; combat := combat m; legacy := legacy m; anchor := a;
     micro := micro m; modul := modul m; beh := beh m; dna := dna m |}.

Definition set_micro (c : Micro) (m : Mover) : Mover :=
  {| kin := kin m; combat := combat m; legacy := legacy m; anchor := anchor m;
     micro := c; modul := modul m; beh := beh m; dna := dna m |}.

Definition set_modul (c : Modul) (m : Mover) : Mover :=
  {| kin := kin m; combat := combat m; legacy := legacy m; anchor := anchor m;
     micro := micro m; modul := c; beh := beh m; dna := dna m |}.

Definition set_beh (b : Behaviour) (m : Mover) : Mover :=
  {| kin := kin m; combat := combat m; legacy := legacy m; anchor := anchor m;
     micro := micro m; modul := modul m; beh := b; dna := dna m |}.

(** [m.anchorExpires = v] *)
Definition set_anchorExpires (v : R) (m : Mover) : Mover :=
  let l := legacy m in
  set_legacy {| originX := originX l; originY := originY l; t0 := t0 l;
                pattern := pattern l; nextPatternSwitch := nextPatternSwitch l;
                anchorSx := anchorSx l; anchorSy := anchorSy l;
                anchorExpires := v |} m.

(** [m.microNextSwitch = v] *)
Definition set_microNextSwitch (v : R) (m : Mover) : Mover :=
  let c := micro m in
  set_micro {| microPattern := microPattern c; microType := microType c;
               microTier := microTier c; microTierIndex := microTierIndex c;
               microStart := microStart c; microDuration := microDuration c;
               microBlendStart := microBlendStart c; microNextSwitch := v;
               prevOffset := prevOffset c; microGain := microGain c;
               nonFigureCount := nonFigureCount c |} m.

(** [m.prevOffset = v] *)
Definition set_prevOffset (v : Vec2) (m : Mover) : Mover :=
  let c := micro m in
  set_micro {| microPattern := microPattern c; microType := microType c;
               microTier := microTier c; microTierIndex := microTierIndex c;
               microStart := microStart c; microDuration := microDuration c;
               microBlendStart := microBlendStart c;
               microNextSwitch := microNextSwitch c;
               prevOffset := v; microGain := microGain c;
               nonFigureCount := nonFigureCount c |} m.

(** [m.wCurrent = w; m.microGainEff = g] *)
Definition set_modulation (w g : R) (m : Mover) : Mover :=
  let c := modul m in
  set_modul {| p1 := p1 c; p2 := p2 c; wCurrent := w; frameAngle := frameAngle c;
               frameRate := frameRate c; amPhase := amPhase c; fmPhase := fmPhase c;
               microGainEff := Some g; phaseFlipUntil := phaseFlipUntil c;
               zigZagUntil := zigZagUntil c |} m.

(** [m.frameAngle = a] *)
Definition set_frameAngle (a : R) (m : Mover) : Mover :=
  let c := modul m in
  set_modul {| p1 := p1 c; p2 := p2 c; wCurrent := wCurrent c; frameAngle := a;
               frameRate := frameRate c; amPhase := amPhase c; fmPhase := fmPhase c;
               microGainEff := microGainEff c; phaseFlipUntil := phaseFlipUntil c;
               zigZagUntil := zigZagUntil c |} m.

(** [m.phaseFlipUntil = v] *)
Definition set_phaseFlipUntil (v : R) (m : Mover) : Mover :=
  let c := modul m in
  set_modul {| p1 := p1 c; p2 := p2 c; wCurrent := wCurrent c;
               frameAngle := frameAngle c;
               frameRate := frameRate c; amPhase := amPhase c; fmPhase := fmPhase c;
               microGainEff := microGainEff c; phaseFlipUntil := Some v;
               zigZagUntil := zigZagUntil c |} m.

(** [m.zigZagUntil = v] *)
Definition set_zigZagUntil (v : R) (m : Mover) : Mover :=
  let c := modul m in
  set_modul {| p1 := p1 c; p2 := p2 c; wCurrent := wCurrent c;
               frameAngle := frameAngle c;
               frameRate := frameRate c; amPhase := amPhase c; fmPhase := fmPhase c;
               microGainEff := microGainEff c; phaseFlipUntil := phaseFlipUntil c;
               zigZagUntil := Some v |} m.

(** A live target in screen space: [{ sx, sy, r }]. *)
Record TargetScr := { tg_sx : R; tg_sy : R; tg_r : R }.

(** ** Anchor scheduling *)

(** A number or [Infinity]. *)
Inductive ExtR := Fin (v : R) | PInf.

(** [d < m] *)
Definition ext_below (d : R) (m : ExtR) : bool :=
  match m with Fin v => Rlt_b d v | PInf => true end.

(** [a > b] *)
Definition ext_gt (a b : ExtR) : bool :=
  match a, b with
  | Fin x, Fin y => Rlt_b y x
  | PInf, Fin _ => true
  | _, PInf => false
  end.

(** [e + v] and [e * k / d] for a positive divisor: [Infinity] absorbs. *)
Definition ext_plus (e : ExtR) (v : R) : ExtR :=
  match e with Fin x => Fin (x + v) | PInf => PInf end.

Definition ext_plusE (e f : ExtR) : ExtR :=
  match f with Fin v => ext_plus e v | PInf => PInf end.

Definition ext_map (f : R -> R) (e : ExtR) : ExtR :=
  match e with Fin x => Fin (f x) | PInf => PInf end.

(** Monadic [for] loop over [0 .. n-1]. *)
Fixpoint forM {S A : Type} (l : list nat) (body : nat -> A -> St S A) (a : A) : St S A :=
  match l with
  | [] => ret a
  | i :: l' => do a' <- body i a; forM l' body a'
  end.

Record Candidate := {
  c_sx : R;
  c_sy : R;
  c_row : nat;
  c_col : nat;
  c_score : ExtR
}.

(** The distance from [(sx, sy)] to the nearest anchor of another mover;
    the mover itself (index [i]) is skipped. *)
Definition minDistMovers (i : nat) (moversList : list Mover) (sx sy : R) : ExtR :=
  fold_left (fun (acc : ExtR) (e : nat * Mover) =>
               let (j, other) := e in
               if (j =? i)%nat then acc
               else
                 let dxs := sx - anchorPosSx (anchor other) in
                 let dys := sy - anchorPosSy (anchor other) in
                 let d := hypot dxs dys in
                 if ext_below d acc then Fin d else acc)
            (imap (fun j other => (j, other)) moversList) PInf.

(** The clearance from [(sx, sy)] to the nearest live target. *)
Definition minDistTargets (mr : R) (liveTargetsScr : list TargetScr) (sx sy : R) : ExtR :=
  fold_left (fun (acc : ExtR) (tg : TargetScr) =>
               let dxs := sx - tg_sx tg in
               let dys := sy - tg_sy tg in
               let d := hypot dxs dys - (tg_r tg + mr + 60) in
               if ext_below d acc then Fin d else acc)
            liveTargetsScr PInf.

(** The candidate of one iteration of the loop of [chooseNewAnchorTarget],
    from the four numbers it draws: the cell ([uc], [ur]) and the jitter
    ([u1], [u2]).  For [Math.max(limX, limY) > 0], as in any arena the
    game lays out, an infinite distance gives an infinite score. *)
Definition candidateAt (cfg : Config) (heatMap : HeatMap) (moversList : list Mover)
    (i : nat) (m : Mover) (limX limY bias : R) (liveTargetsScr : list TargetScr)
    (uc ur u1 u2 : R) : Candidate :=
  let c := Z.to_nat (floor uc) in
  let r := Z.to_nat (floor ur) in
  let cellHeat := heat_at heatMap r c in
  let cellW := (limX * 2) / INR HEAT_COLS in
  let cellH := (limY * 2) / INR HEAT_ROWS in
  let jitterX := (u1 - 0.5) * cellW * 0.8 in
  let jitterY := (u2 - 0.5) * cellH * 0.8 in
  let sx := - limX + (INR c + 0.5) * cellW + jitterX in
  let sy := - limY + (INR r + 0.5) * cellH + jitterY in
  let minDistM := minDistMovers i moversList sx sy in
  let minDistTg := minDistTargets (m_r (kin m)) liveTargetsScr sx sy in
  let distCenter := hypot sx sy in
  let score := Fin 0 in
  let score := ext_plus score (1 - cellHeat * 0.1) in
  let score := ext_plusE score (ext_map (fun d => (d / Rmax limX limY) * 1.2) minDistM) in
  let score := match minDistTg with
               | Fin v => if Rlt_b v 0 then ext_plus score (- 2.5) else score
               | PInf => score
               end in
  let score := if moversFlee cfg
               then ext_plus score ((distCenter / Rmax limX limY) * 0.5) else score in
  let score := ext_plus score ((distCenter / Rmax limX limY) * bias) in
  {| c_sx := sx; c_sy := sy; c_row := r; c_col := c; c_score := score |}.

(** One iteration of the candidate loop: the draws, and the comparison
    with the best candidate so far. *)
Definition anchorAttempt (cfg : Config) (heatMap : HeatMap) (moversList : list Mover)
    (i : nat) (m : Mover) (limX limY bias : R) (liveTargetsScr : list TargetScr)
    (best : option Candidate) : Rand (option Candidate) :=
  do uc <- rand 0 (INR HEAT_COLS);
  do ur <- rand 0 (INR HEAT_ROWS);
  do u1 <- random;
  do u2 <- random;
  let cand := candidateAt cfg heatMap moversList i m limX limY bias liveTargetsScr
                uc ur u1 u2 in
  ret match best with
      | None => Some cand
      | Some b => if ext_gt (c_score cand) (c_score b) then Some cand else best
      end.

(** The transition toward [(tx, ty)] that [chooseNewAnchorTarget] stores. *)
Definition anchorToward (a : Anchor) (t tx ty dur : R) : Anchor :=
  let prevX := anchorPosSx a in
  let prevY := anchorPosSy a in
  {| anchorPosSx := anchorPosSx a;
     anchorPosSy := anchorPosSy a;
     anchorTargetSx := tx;
     anchorTargetSy := ty;
     anchorVelSx := (tx - prevX) / dur;
     anchorVelSy := (ty - prevY) / dur;
     anchorMoveStart := t;
     anchorMoveDuration := dur;
     anchorMoveEnd := t + dur |}.

(** [chooseNewAnchorTarget(m, t, limX, limY, liveTargetsScr, moversList)]:
    [m] is the mover at index [i] of [moversList]; the result is the new
    anchor state of [m] and the heat map. *)
Definition chooseNewAnchorTarget (cfg : Config) (heatMap : HeatMap)
    (moversList : list Mover) (i : nat) (m : Mover) (t limX limY : R)
    (liveTargetsScr : list TargetScr) : Rand (Anchor * HeatMap) :=
  let bias := 0 in
  let bias := bias + orElse (anchorBias (ROLES (role (beh m)))) 0 in
  let bias := bias + orElse (anchorBias (EPISODES (episode (beh m)))) 0 in
  do best <- forM (seq 0 25)
               (fun _ best => anchorAttempt cfg heatMap moversList i m limX limY bias
                                liveTargetsScr best) None;
  let a := anchor m in
  match best with
  | Some b =>
      let prevX := anchorPosSx a in
      let prevY := anchorPosSy a in
      let dist := orElse (hypot (c_sx b - prevX) (c_sy b - prevY)) 1 in
      let macroSpeed := macroSpeed (EPISODES (episode (beh m))) in
      do u <- rand 2000 5000;
      let baseDur := u / macroSpeed in
      let dur := baseDur + dist * 0.3 in
      ret (anchorToward a t (c_sx b) (c_sy b) dur,
           heat_add heatMap (c_row b) (c_col b) HEATMAP_INCREMENT)
  | None =>
      do sx <- rand (- limX * 0.8) (limX * 0.8);
      do sy <- rand (- limY * 0.8) (limY * 0.8);
      let prevX := anchorPosSx a in
      let prevY := anchorPosSy a in
      let dist := orElse (hypot (sx - prevX) (sy - prevY)) 1 in
      do baseDur <- rand 2000 5000;
      let dur := baseDur + dist * 0.3 in
      ret (anchorToward a t sx sy dur, heatMap)
  end.

(** ** Micro-pattern selection *)

Definition MICRO_MIN_MS : R := 2500.
Definition MICRO_MAX_MS : R := 5000.
Definition MICRO_BLEND_MS : R := 600.

(** [MICRO_TIERS[k]] for an index inside the sequence. *)
Definition tierAt (k : nat) : Tier := nth k MICRO_TIERS TierS.

(** The weighted draw: [pick = Math.random() * sum], then the first
    entry whose running sum reaches [pick], else the first entry. *)
Definition weightedIndex (ws : list R) : Rand nat :=
  let cum := cumulative 0 ws in
  let sum := fold_left Rplus ws 0 in
  do u <- random;
  let pick := u * sum in
  ret (default 0%nat (firstReaching pick cum 0)).

Definition chooseNewMicro (m : Mover) (t : R) : Rand Mover :=
  let c := micro m in
  let microTierIndex1 := ((microTierIndex c + 1) mod length MICRO_TIERS)%nat in
  let forceFigure := (3 <=? nonFigureCount c)%nat in
  let candidates :=
    if forceFigure then filter (fun n => startsWith_figure8 n) MICRO_PATTERN_NAMES
    else MICRO_PATTERN_NAMES in
  let rolePat := patternWeights (ROLES (role (beh m))) in
  let epiPat := patternWeights (EPISODES (episode (beh m))) in
  do k <- weightedIndex
            (map (fun name => weightOr1 (rolePat name) * weightOr1 (epiPat name)) candidates);
  let chosenName := nth k candidates (nth 0 candidates figure8) in
  let roleTier := tierWeights (ROLES (role (beh m))) in
  let epiTier := tierWeights (EPISODES (episode (beh m))) in
  let nextIndex := ((microTierIndex1 + 1) mod length MICRO_TIERS)%nat in
  let tierCandidates :=
    [tierAt nextIndex;
     tierAt ((nextIndex + 1) mod length MICRO_TIERS)%nat;
     tierAt ((nextIndex + 2) mod length MICRO_TIERS)%nat] in
  do kt <- weightedIndex
             (map (fun tName => orElse (roleTier tName) 1 * orElse (epiTier tName) 1)
                  tierCandidates);
  let chosenTierName := nth kt tierCandidates (tierAt nextIndex) in
  do baseDur <- rand MICRO_MIN_MS MICRO_MAX_MS;
  do gain <- rand (microGainMin (dna m)) (microGainMax (dna m));
  let c' := {|
    microPattern := chosenName;
    microType := if includes_spiral chosenName then type_spiral else type_figure8;
    microTier := chosenTierName;
    microTierIndex := MICRO_TIERS_indexOf chosenTierName;
    microStart := t;
    microDuration := baseDur;
    microBlendStart := t;
    microNextSwitch := t + baseDur;
    prevOffset := prevOffset c;
    microGain := gain;
    nonFigureCount :=
      if startsWith_figure8 chosenName then 0%nat else (nonFigureCount c + 1)%nat |} in
  let m := set_micro c' m in
  do u <- random;
  if Rlt_b u 0.3 then
    do u' <- random;
    let b := beh m in
    ret (set_beh {| role := role b; roleExpires := roleExpires b;
                    episode := episode b; episodeExpires := episodeExpires b;
                    fleeSide := if Rlt_b u' 0.5 then 1 else -1 |} m)
  else ret m.

(** ** Micro offset *)

(** The pattern in use, its options and gain, and the local time, as
    [computeMicroOffset] sets them up. *)
Definition microOpts (cfg : Config) (m : Mover) (t : R) : Opts :=
  let dtMs := t - orElse (microStart (micro m)) 0 in
  {| o_w := orElse (wCurrent (modul m)) 1 * orElse (moversSpeed cfg) 1;
     phase1 := orElse (p1 (modul m)) 0;
     phase2 := orElse (p2 (modul m)) 0;
     elapsed := dtMs;
     duration := orElse (microDuration (micro m)) 1 |}.

Definition microGainUsed (m : Mover) : R :=
  orElse (match microGainEff (modul m) with
          | Some g => g
          | None => microGain (micro m)
          end) 1.

(** The normalised offset of the pattern, turned by the frame angle. *)
Definition microPoint (cfg : Config) (m : Mover) (t : R) : Vec2 :=
  let dtMs := t - orElse (microStart (micro m)) 0 in
  let elapsedSec := dtMs * 0.001 in
  let fn := MICRO_PATTERNS (microPattern (micro m)) in
  let pt := fn elapsedSec (microGainUsed m) (microOpts cfg m t) in
  let a := frameAngle (modul m) in
  let cosA := cos a in
  let sinA := sin a in
  {| vx := vx pt * cosA - vy pt * sinA; vy := vx pt * sinA + vy pt * cosA |}.

(** [ampX] and [ampY]: the amplitude of the tier. *)
Definition microAmp (m : Mover) (limX limY : R) : Vec2 :=
  if includes_spiral (microPattern (micro m)) then
    let base := SPIRAL_SCALE (microTier (micro m)) * Rmin limX limY in
    {| vx := base; vy := base |}
  else
    {| vx := TIER_SCALE (microTier (micro m)) * limX;
       vy := TIER_SCALE (microTier (micro m)) * limY |}.

(** [ox], [oy] right after the scaling by the tier. *)
Definition scaledOffset (cfg : Config) (m : Mover) (t limX limY : R) : Vec2 :=
  let pt := microPoint cfg m t in
  let amp := microAmp m limX limY in
  {| vx := vx pt * vx amp; vy := vy pt * vy amp |}.

(** [u && t < u] for a deadline that may be undefined. *)
Definition before (t : R) (u : option R) : bool :=
  match u with
  | Some v => negb (Req_b v 0) && Rlt_b t v
  | None => false
  end.

(** [ox], [oy] with the feints applied, as they enter the soft clamp. *)
Definition preClampOffset (cfg : Config) (m : Mover) (t limX limY : R) : Vec2 :=
  let dtMs := t - orElse (microStart (micro m)) 0 in
  let elapsedSec := dtMs * 0.001 in
  let amp := microAmp m limX limY in
  let o := scaledOffset cfg m t limX limY in
  let ox := vx o in
  let oy := vy o in
  let ox := if before t (phaseFlipUntil (modul m)) then - ox else ox in
  if before t (zigZagUntil (modul m)) then
    let zz := sin (elapsedSec * 25) * 0.1 in
    {| vx := ox + zz * vx amp * 0.3; vy := oy + zz * vy amp * 0.3 |}
  else {| vx := ox; vy := oy |}.

(** The soft radial clamp: one factor for both axes. *)
Definition softClamp (m : Mover) (limX limY : R) (o : Vec2) : Vec2 :=
  let ox := vx o in
  let oy := vy o in
  let anchorSx := anchorPosSx (anchor m) in
  let anchorSy := anchorPosSy (anchor m) in
  let buffer := m_r (kin m) + 20 in
  let maxDx := limX - Rabs anchorSx - buffer in
  let maxDy := limY - Rabs anchorSy - buffer in
  let maxAbs := Rmax (Rmax (Rabs ox) (Rabs oy)) 1e-6 in
  let scale :=
    if Rlt_b 0 maxAbs then
      let fx := if Rle_b maxDx 0 then 0 else maxDx / Rmax (Rabs ox) 1e-6 in
      let fy := if Rle_b maxDy 0 then 0 else maxDy / Rmax (Rabs oy) 1e-6 in
      Rmin (Rmin 1 fx) fy
    else 1 in
  {| vx := ox * scale; vy := oy * scale |}.

(** [computeMicroOffset(m, t, limX, limY)]: the offset and the mover
    with its [prevOffset] cache. *)
Definition computeMicroOffset (cfg : Config) (m : Mover) (t limX limY : R)
    : Vec2 * Mover :=
  let o := softClamp m limX limY (preClampOffset cfg m t limX limY) in
  let bdt := t - orElse (microBlendStart (micro m)) 0 in
  let alpha := Rmax 0 (Rmin 1 (if Rlt_b 0 MICRO_BLEND_MS then bdt / MICRO_BLEND_MS else 1)) in
  let prev := prevOffset (micro m) in
  let result := {| vx := vx prev * (1 - alpha) + vx o * alpha;
                   vy := vy prev * (1 - alpha) + vy o * alpha |} in
  (result, if Rle_b 1 alpha then set_prevOffset result m else m).

(** ** The world: state.js and the module state of movers.js *)

Record Canvas := { width : R; height : R }.

Record Player := { p_x : R; p_y : R }.

(** A target: [{ x, y, r, hitStart, dead }]. *)
Record Target := { t_x : R; t_y : R; t_r : R; hitStart : R; t_dead : bool }.

Record World := {
  cfg : Config;
  canvas : option Canvas;
  rollAngle : R;
  player : Player;
  targets : list Target;
  movers : list Mover;
  heatMap : HeatMap;
  roleCounts : Counts Role;
  episodeCounts : Counts Episode;
  clock : R;
  rng : Rng;
  crosshairFlashUntil : R;
  missFlashUntil : R;
  lastSuccessAt : R
}.

Definition set_cfg (v : Config) (w : World) : World :=
  {| cfg := v; canvas := canvas w; rollAngle := rollAngle w; player := player w;
     targets := targets w; movers := movers w; heatMap := heatMap w;
     roleCounts := roleCounts w; episodeCounts := episodeCounts w; clock := clock w;
     rng := rng w; crosshairFlashUntil := crosshairFlashUntil w;
     missFlashUntil := missFlashUntil w; lastSuccessAt := lastSuccessAt w |}.

Definition set_targets (v : list Target) (w : World) : World :=
  {| cfg := cfg w; canvas := canvas w; rollAngle := rollAngle w; player := player w;
     targets := v; movers := movers w; heatMap := heatMap w;
     roleCounts := roleCounts w; episodeCounts := episodeCounts w; clock := clock w;
     rng := rng w; crosshairFlashUntil := crosshairFlashUntil w;
     missFlashUntil := missFlashUntil w; lastSuccessAt := lastSuccessAt w |}.

Definition set_movers (v : list Mover) (w : World) : World :=
  {| cfg := cfg w; canvas := canvas w; rollAngle := rollAngle w; player := player w;
     targets := targets w; movers := v; heatMap := heatMap w;
     roleCounts := roleCounts w; episodeCounts := episodeCounts w; clock := clock w;
     rng := rng w; crosshairFlashUntil := crosshairFlashUntil w;
     missFlashUntil := missFlashUntil w; lastSuccessAt := lastSuccessAt w |}.

Definition set_heatMap (v : HeatMap) (w : World) : World :=
  {| cfg := cfg w; canvas := canvas w; rollAngle := rollAngle w; player := player w;
     targets := targets w; movers := movers w; heatMap := v;
     roleCounts := roleCounts w; episodeCounts := episodeCounts w; clock := clock w;
     rng := rng w; crosshairFlashUntil := crosshairFlashUntil w;
     missFlashUntil := missFlashUntil w; lastSuccessAt := lastSuccessAt w |}.

Definition set_roleCounts (v : Counts Role) (w : World) : World :=
  {| cfg := cfg w; canvas := canvas w; rollAngle := rollAngle w; player := player w;
     targets := targets w; movers := movers w; heatMap := heatMap w;
     roleCounts := v; episodeCounts := episodeCounts w; clock := clock w;
     rng := rng w; crosshairFlashUntil := crosshairFlashUntil w;
     missFlashUntil := missFlashUntil w; lastSuccessAt := lastSuccessAt w |}.

Definition set_episodeCounts (v : Counts Episode) (w : World) : World :=
  {| cfg := cfg w; canvas := canvas w; rollAngle := rollAngle w; player := player w;
     targets := targets w; movers := movers w; heatMap := heatMap w;
     roleCounts := roleCounts w; episodeCounts := v; clock := clock w;
     rng := rng w; crosshairFlashUntil := crosshairFlashUntil w;
     missFlashUntil := missFlashUntil w; lastSuccessAt := lastSuccessAt w |}.

Definition set_rng (v : Rng) (w : World) : World :=
  {| cfg := cfg w; canvas := canvas w; rollAngle := rollAngle w; player := player w;
     targets := targets w; movers := movers w; heatMap := heatMap w;
     roleCounts := roleCounts w; episodeCounts := episodeCounts w; clock := clock w;
     rng := v; crosshairFlashUntil := crosshairFlashUntil w;
     missFlashUntil := missFlashUntil w; lastSuccessAt := lastSuccessAt w |}.

Definition set_crosshairFlashUntil (v : R) (w : World) : World :=
  {| cfg := cfg w; canvas := canvas w; rollAngle := rollAngle w; player := player w;
     targets := targets w; movers := movers w; heatMap := heatMap w;
     roleCounts := roleCounts w; episodeCounts := episodeCounts w; clock := clock w;
     rng := rng w; crosshairFlashUntil := v;
     missFlashUntil := missFlashUntil w; lastSuccessAt := lastSuccessAt w |}.

Definition set_missFlashUntil (v : R) (w : World) : World :=
  {| cfg := cfg w; canvas := canvas w; rollAngle := rollAngle w; player := player w;
     targets := targets w; movers := movers w; heatMap := heatMap w;
     roleCounts := roleCounts w; episodeCounts := episodeCounts w; clock := clock w;
     rng := rng w; crosshairFlashUntil := crosshairFlashUntil w;
     missFlashUntil := v; lastSuccessAt := lastSuccessAt w |}.

Definition set_lastSuccessAt (v : R) (w : World) : World :=
  {| cfg := cfg w; canvas := canvas w; rollAngle := rollAngle w; player := player w;
     targets := targets w; movers := movers w; heatMap := heatMap w;
     roleCounts := roleCounts w; episodeCounts := episodeCounts w; clock := clock w;
     rng := rng w; crosshairFlashUntil := crosshairFlashUntil w;
     missFlashUntil := missFlashUntil w; lastSuccessAt := v |}.

(** The result of a call: a value, or the [TypeError] raised by reading
    a property of [null] or [undefined], or by assigning to a binding of
    a module namespace.  The world reached is kept in both cases, as the
    mutations done before a throw persist. *)
Inductive Res (A : Type) := Val (a : A) | Throw.
Arguments Val {A} a.
Arguments Throw {A}.

Definition Js (A : Type) : Type := World -> Res A * World.

Definition jret {A} (a : A) : Js A := fun w => (Val a, w).

Definition jbind {A B} (c : Js A) (k : A -> Js B) : Js B :=
  fun w => match c w with
           | (Val a, w') => k a w'
           | (Throw, w') => (Throw, w')
           end.

Definition throw {A} : Js A := fun w => (Throw, w).

(** [state.x = v] in a module that reaches state.js through
    [import * as state], for a binding [x] that state.js declares with
    [export let]: the namespace object refuses every write and the code
    of a module is strict, so the statement throws a [TypeError] and
    [x] keeps its value.  [f] is the update that the statement asks
    for.  The objects that state.js exports ([state.player],
    [state.movers], the elements of [state.targets]) are mutated in
    place, which is no such assignment. *)
Definition assignState (f : World -> World) : Js unit := throw.

Notation "'run' x <- c ; k" := (jbind c (fun x => k))
  (at level 10, x name, c at level 100, k at level 200).

Definition get {A} (f : World -> A) : Js A := fun w => (Val (f w), w).
Definition modify (f : World -> World) : Js unit := fun w => (Val tt, f w).

(** A computation that only draws random numbers. *)
Definition liftRand {A} (c : Rand A) : Js A :=
  fun w => let (a, g) := c (rng w) in (Val a, set_rng g w).

(** [nowMs()] *)
Definition nowMs : Js R := get clock.

(** [state.canvas.width / 2 - MARGIN] and the same for the height; reading
    [width] of a null canvas throws. *)
Definition arenaLimits : Js (R * R) :=
  fun w => match canvas w with
           | Some c => (Val (width c / 2 - MARGIN, height c / 2 - MARGIN), w)
           | None => (Throw, w)
           end.

(** Monadic [for] loop over a list of indices. *)
Fixpoint jforM (l : list nat) (body : nat -> Js unit) : Js unit :=
  match l with
  | [] => jret tt
  | i :: l' => run _ <- body i; jforM l' body
  end.

(** ** Spawning *)

(** [PATTERNS.length] *)
Definition PATTERNS_length : nat := 8.

(** The placement loop of [spawnMoverInWindow]: up to [tries] draws,
    stopping at the first point at least 90 px from the centre. *)
Fixpoint spawnPosition (tries : nat) (limX limY r : R) (cur : R * R) : Rand (R * R) :=
  match tries with
  | O => ret cur
  | S n =>
      do sx <- rand (- limX + r) (limX - r);
      do sy <- rand (- limY + r) (limY - r);
      if Rle_b 90 (hypot sx sy) then ret (sx, sy)
      else spawnPosition n limX limY r (sx, sy)
  end.

(** The draws of [spawnMoverInWindow] between the two pool picks and
    the object literal: DNA, first gain, first pattern and first tier. *)
Definition spawnTraits (role : Role) : Rand (Dna * R * Pattern * Tier) :=
  do wBase <- rand 1.0 2.2;
  do gmin <- rand 0.6 1.2;
  do gmax <- rand 1.2 1.8;
  do feint <- rand 0.1 0.4;
  let dna := {| wBase := wBase; microGainMin := gmin; microGainMax := gmax;
                feintChance := feint |} in
  do initialMicroGain <- rand (microGainMin dna) (microGainMax dna);
  let weights := patternWeights (ROLES role) in
  let names := MICRO_PATTERN_NAMES in
  do chosenIndex <- weightedIndex (map (fun n => weightOr1 (weights n)) names);
  let initialPattern := nth chosenIndex names figure8 in
  let tierWeights := tierWeights (ROLES role) in
  let tiers := [TierS; TierM; TierL] in
  do kt <- weightedIndex (map tierWeights tiers);
  let chosenTier := nth kt tiers TierS in
  ret (dna, initialMicroGain, initialPattern, chosenTier).

Definition spawnMoverInWindow : Js Mover :=
  run lim <- arenaLimits;
  let limX := fst lim in
  let limY := snd lim in
  run angle <- get rollAngle;
  let cos := cos angle in
  let sin := sin angle in
  run cfg <- get cfg;
  let r := clamp (moversR cfg) 4 (Rmin limX limY) in
  run pos <- liftRand (spawnPosition 30 limX limY r (0, 0));
  let w := screenToWorld (fst pos) (snd pos) cos sin in
  run svx <- liftRand (rand (-1) 1);
  run svy <- liftRand (rand (-1) 1);
  let sp := orElse (hypot svx svy) 1 in
  let svx := svx / sp in
  let svy := svy / sp in
  let vw := screenToWorld svx svy cos sin in
  run tNow <- nowMs;
  run up <- liftRand random;
  let pattern := Z.to_nat (floor (up * INR PATTERNS_length)) in
  run pl <- get player;
  let x := p_x pl + dx w in
  let y := p_y pl + dy w in
  run rc <- get roleCounts;
  run rolePick <- liftRand (pickRole rc);
  run _ <- modify (set_roleCounts (snd rolePick));
  let role := fst rolePick in
  run ec <- get episodeCounts;
  run episodePick <- liftRand (pickEpisode ec);
  run _ <- modify (set_episodeCounts (snd episodePick));
  let episode := fst episodePick in
  run traits <- liftRand (spawnTraits role);
  let '(dna, initialMicroGain, initialPattern, chosenTier) := traits in
  run p1 <- liftRand (rand 0 (PI * 2));
  run p2 <- liftRand (rand 0 (PI * 2));
  run uSwitch <- liftRand (rand 2000 6000);
  run microDuration <- liftRand (rand MICRO_MIN_MS MICRO_MAX_MS);
  run uMicro <- liftRand (rand MICRO_MIN_MS MICRO_MAX_MS);
  run uSide <- liftRand random;
  run uRole <- liftRand (rand 8000 16000);
  run uEpisode <- liftRand (rand 2000 6000);
  run frameAngle <- liftRand (rand 0 (PI * 2));
  run frameRate <- liftRand (rand 0.0003 0.0009);
  run amPhase <- liftRand (rand 0 (PI * 2));
  run fmPhase <- liftRand (rand 0 (PI * 2));
  jret {|
    kin := {| m_x := x; m_y := y; m_vx := dx vw; m_vy := dy vw; m_r := r |};
    combat := {| hitUntil := 0; hits := 0; escapeBoost := 0; lastHitTime := 0;
                 dead := false; deadStart := 0 |};
    legacy := {| originX := x; originY := y; t0 := tNow; pattern := pattern;
                 nextPatternSwitch := tNow + uSwitch;
                 anchorSx := 0; anchorSy := 0; anchorExpires := 0 |};
    anchor := {| anchorPosSx := 0; anchorPosSy := 0;
                 anchorTargetSx := 0; anchorTargetSy := 0;
                 anchorVelSx := 0; anchorVelSy := 0;
                 anchorMoveStart := tNow; anchorMoveDuration := 3000;
                 anchorMoveEnd := tNow + 3000 |};
    micro := {| microPattern := initialPattern;
                microType := if includes_spiral initialPattern
                             then type_spiral else type_figure8;
                microTier := chosenTier;
                microTierIndex := MICRO_TIERS_indexOf chosenTier;
                microStart := tNow;
                microDuration := microDuration;
                microBlendStart := tNow;
                microNextSwitch := tNow + uMicro;
                prevOffset := {| vx := 0; vy := 0 |};
                microGain := initialMicroGain;
                nonFigureCount := if startsWith_figure8 initialPattern
                                  then 0%nat else 1%nat |};
    modul := {| p1 := p1; p2 := p2; wCurrent := wBase dna;
                frameAngle := frameAngle; frameRate := frameRate;
                amPhase := amPhase; fmPhase := fmPhase;
                microGainEff := None; phaseFlipUntil := None; zigZagUntil := None |};
    beh := {| role := role; roleExpires := tNow + uRole;
              episode := episode; episodeExpires := tNow + uEpisode;
              fleeSide := if Rlt_b uSide 0.5 then 1 else -1 |};
    dna := dna |}.

(** The state of a mover after [respawnMover] copied the fields of the
    fresh mover [nm] into it: [deadStart], [microGainEff],
    [phaseFlipUntil] and [zigZagUntil] are not copied. *)
Definition respawned (m nm : Mover) : Mover :=
  {| kin := kin nm;
     combat := {| hitUntil := 0; hits := 0; escapeBoost := 0; lastHitTime := 0;
                  dead := false; deadStart := deadStart (combat m) |};
     legacy := legacy nm;
     anchor := anchor nm;
     micro := micro (set_prevOffset {| vx := 0; vy := 0 |} nm);
     modul := {| p1 := p1 (modul nm); p2 := p2 (modul nm);
                 wCurrent := wCurrent (modul nm);
                 frameAngle := frameAngle (modul nm);
                 frameRate := frameRate (modul nm);
                 amPhase := amPhase (modul nm); fmPhase := fmPhase (modul nm);
                 microGainEff := microGainEff (modul m);
                 phaseFlipUntil := phaseFlipUntil (modul m);
                 zigZagUntil := zigZagUntil (modul m) |};
     beh := beh nm;
     dna := dna nm |}.

(** [respawnMover(m)] for the mover at index [i]; an index outside the
    array is [undefined], whose fields cannot be written. *)
Definition respawnMover (i : nat) : Js unit :=
  run nm <- spawnMoverInWindow;
  run ms <- get movers;
  match ms !! i with
  | None => throw
  | Some m =>
      let oldRole := role (beh m) in
      let oldEpisode := episode (beh m) in
      run _ <- modify (fun w => set_movers (<[i := respawned m nm]> (movers w)) w);
      run _ <- modify (fun w =>
                 set_roleCounts (counts_release Role_eqb (roleCounts w) oldRole) w);
      run _ <- modify (fun w =>
                 set_roleCounts (counts_bump Role_eqb (roleCounts w) (role (beh nm))) w);
      run _ <- modify (fun w =>
                 set_episodeCounts
                   (counts_release Episode_eqb (episodeCounts w) oldEpisode) w);
      modify (fun w =>
                 set_episodeCounts
                   (counts_bump Episode_eqb (episodeCounts w) (episode (beh nm))) w)
  end.

(** [while (state.movers.length < n) state.movers.push(spawnMoverInWindow())],
    which runs [k = n - length] times. *)
Fixpoint pushSpawned (k : nat) : Js unit :=
  match k with
  | O => jret tt
  | S k' =>
      run nm <- spawnMoverInWindow;
      run _ <- modify (fun w => set_movers (movers w ++ [nm]) w);
      pushSpawned k'
  end.

Definition set_moversCount (n : Z) (c : Config) : Config :=
  {| regenOnHit := regenOnHit c; moversEnabled := moversEnabled c; moversCount := n;
     moversSpeed := moversSpeed c; moversAvoid := moversAvoid c; moversR := moversR c;
     moversFlee := moversFlee c; moversHit1Boost := moversHit1Boost c;
     moversHit2Boost := moversHit2Boost c |}.

Definition ensureMoversCount : Js unit :=
  run c <- get cfg;
  let n := if moversEnabled c then clampZ (toInt32 (moversCount c)) 0 5 else 0%Z in
  run _ <- modify (fun w => set_cfg (set_moversCount n (cfg w)) w);
  if (n =? 0)%Z then modify (set_movers [])
  else
    run ms <- get movers;
    run _ <- pushSpawned (Z.to_nat n - length ms);
    (* while (state.movers.length > n) state.movers.pop() *)
    modify (fun w => set_movers (take (Z.to_nat n) (movers w)) w).

(** [m.dead = false; m.hits = 0; m.escapeBoost = 0; m.lastHitTime = 0] *)
Definition revive (m : Mover) : Mover :=
  let c := combat m in
  set_combat {| hitUntil := hitUntil c; hits := 0; escapeBoost := 0; lastHitTime := 0;
                dead := false; deadStart := deadStart c |} m.

Definition respawnAllMovers : Js unit :=
  run _ <- ensureMoversCount;
  run ms <- get movers;
  jforM (seq 0 (length ms)) (fun i =>
    run _ <- respawnMover i;
    modify (fun w => set_movers (alter revive i (movers w)) w)).

(** ** Hit test *)

(** The first live mover under the crosshair from index [i] on, or -1. *)
Fixpoint hitTestFrom (pl : Player) (ms : list Mover) (i : nat) : Z :=
  match ms with
  | [] => (-1)%Z
  | m :: ms' =>
      if dead (combat m) then hitTestFrom pl ms' (S i)
      else
        let dx := m_x (kin m) - p_x pl in
        let dy := m_y (kin m) - p_y pl in
        if Rlt_b (hypot dx dy) (m_r (kin m)) then Z.of_nat i
        else hitTestFrom pl ms' (S i)
  end.

Definition hitTestMovers (w : World) : Z :=
  if negb (moversEnabled (cfg w)) || (length (movers w) =? 0)%nat then (-1)%Z
  else hitTestFrom (player w) (movers w) 0.

(** ** Hit registration: [shoot] of main.js *)

Definition playSuccessWithDelay : Js unit :=
  run t <- nowMs;
  run last <- get lastSuccessAt;
  if Rlt_b (t - last) SUCCESS_COOLDOWN_MS then jret tt
  else
    (* state.lastSuccessAt = t; the timer is not set *)
    assignState (set_lastSuccessAt t).

(** The escape boost [shoot] derives from the new hit count. *)
Definition escapeBoostFor (c : Config) (hits : nat) : R :=
  if (hits =? 1)%nat then orElse (moversHit1Boost c) 0
  else if (2 <=? hits)%nat
       then orElse (moversHit1Boost c) 0 + orElse (moversHit2Boost c) 0
       else 0.

(** The hit is counted: [hitUntil], [hits], [lastHitTime], [escapeBoost]. *)
Definition countHit (c : Config) (t : R) (m : Mover) : Mover :=
  let k := combat m in
  let hits' := (hits k + 1)%nat in
  set_combat {| hitUntil := t + 140; hits := hits'; escapeBoost := escapeBoostFor c hits';
                lastHitTime := t; dead := dead k; deadStart := deadStart k |} m.

(** [m.hits = v] *)
Definition set_hits (v : nat) (m : Mover) : Mover :=
  let k := combat m in
  set_combat {| hitUntil := hitUntil k; hits := v; escapeBoost := escapeBoost k;
                lastHitTime := lastHitTime k; dead := dead k;
                deadStart := deadStart k |} m.

(** [m.dead = true; m.hitUntil = 0; m.lastHitTime = 0] *)
Definition kill (m : Mover) : Mover :=
  let k := combat m in
  set_combat {| hitUntil := 0; hits := hits k; escapeBoost := escapeBoost k;
                lastHitTime := 0; dead := true; deadStart := deadStart k |} m.

(** The target under the crosshair nearest to it: [bestIdx], [bestD]. *)
Definition nearestTarget (pl : Player) (tgs : list Target) : option nat * ExtR :=
  fold_left (fun (acc : option nat * ExtR) (e : nat * Target) =>
               let (i, tg) := e in
               if t_dead tg then acc
               else if negb (Req_b (hitStart tg) 0) then acc
               else
                 let dx := t_x tg - p_x pl in
                 let dy := t_y tg - p_y pl in
                 let d := hypot dx dy in
                 if Rlt_b d (t_r tg) && ext_below d (snd acc) then (Some i, Fin d)
                 else acc)
            (imap (fun i tg => (i, tg)) tgs) (None, PInf).

(** [state.targets[i].hitStart = t] *)
Definition markTarget (t : R) (tg : Target) : Target :=
  {| t_x := t_x tg; t_y := t_y tg; t_r := t_r tg; hitStart := t; t_dead := t_dead tg |}.

(** [shoot()]; the sounds it plays are outside the world.  The second
    statement, [state.crosshairFlashUntil = t + CROSSHAIR_FLASH_MS],
    throws, so that nothing of what follows it is ever run. *)
Definition shoot : Js unit :=
  run t <- nowMs;
  run _ <- assignState (set_crosshairFlashUntil (t + CROSSHAIR_FLASH_MS));
  run mi <- get hitTestMovers;
  if (0 <=? mi)%Z then
    let i := Z.to_nat mi in
    run ms <- get movers;
    match ms !! i with
    | None => throw
    | Some m =>
        run c <- get cfg;
        let m := countHit c t m in
        run _ <- modify (fun w => set_movers (<[i := m]> (movers w)) w);
        if (MOVERS_MAX_HITS <=? hits (combat m))%nat then
          let m := set_hits MOVERS_MAX_HITS m in
          run _ <- modify (fun w => set_movers (<[i := m]> (movers w)) w);
          if regenOnHit c then
            run _ <- respawnMover i;
            playSuccessWithDelay
          else
            run _ <- modify (fun w => set_movers (<[i := kill m]> (movers w)) w);
            playSuccessWithDelay
        else jret tt
    end
  else
    run pl <- get player;
    run tgs <- get targets;
    match fst (nearestTarget pl tgs) with
    | Some bestIdx =>
        run _ <- modify (fun w => set_targets (alter (markTarget t) bestIdx (targets w)) w);
        playSuccessWithDelay
    | None => assignState (set_missFlashUntil (t + MISS_FLASH_MS))
    end.

(** ** The per-frame update *)

(** What [updateMovers] computes once per frame, before the loop over
    the movers. *)
Record Frame := {
  tNow : R;
  limXVal : R;
  limYVal : R;
  cosR : R;
  sinR : R;
  liveTargetsScr : list TargetScr;
  moversScr : list Screen;
  dtN : R;
  dtMs : R;
  playerSpeed : R
}.

(** A computation on the world that only draws random numbers. *)
Definition drawing {A} (c : Rand A) : St World A :=
  fun w => let (a, g) := c (rng w) in (a, set_rng g w).

(** Reading and writing the world. *)
Definition gets {A} (f : World -> A) : St World A := fun w => (f w, w).
Definition update (f : World -> World) : St World unit := fun w => (tt, f w).

(** Heal: [m.hits > 0 && m.lastHitTime && (tNow - m.lastHitTime > HEAL_INTERVAL_MS)]. *)
Definition heals (tNow : R) (k : Combat) : bool :=
  (0 <? hits k)%nat && negb (Req_b (lastHitTime k) 0)
  && Rlt_b HEAL_INTERVAL_MS (tNow - lastHitTime k).

Definition healPhase (tNow : R) (m : Mover) : Mover :=
  let k := combat m in
  if heals tNow k then
    set_combat {| hitUntil := hitUntil k; hits := 0; escapeBoost := 0; lastHitTime := 0;
                  dead := dead k; deadStart := deadStart k |} m
  else m.

(** Role rotation. *)
Definition rolePhase (tNow : R) (m : Mover) : St World Mover :=
  if Rlt_b (roleExpires (beh m)) tNow then
    do _ <- update (fun w => set_roleCounts
                               (counts_release Role_eqb (roleCounts w) (role (beh m))) w);
    do rc <- gets roleCounts;
    do rolePick <- drawing (pickRole rc);
    do _ <- update (set_roleCounts (snd rolePick));
    do u <- drawing (rand 8000 16000);
    let b := beh m in
    let m := set_beh {| role := fst rolePick; roleExpires := tNow + u;
                        episode := episode b; episodeExpires := episodeExpires b;
                        fleeSide := fleeSide b |} m in
    let m := set_anchorExpires tNow m in
    drawing (chooseNewMicro m tNow)
  else ret m.

(** [chooseNewAnchorTarget] on the mover [m] held at index [i], with the
    heat map of the world. *)
Definition retarget (f : Frame) (i : nat) (m : Mover) : St World Mover :=
  do c <- gets cfg;
  do h <- gets heatMap;
  do ms <- gets movers;
  do r <- drawing (chooseNewAnchorTarget c h ms i m (tNow f) (limXVal f) (limYVal f)
                     (liveTargetsScr f));
  do _ <- update (set_heatMap (snd r));
  ret (set_anchor (fst r) m).

(** Episode rotation. *)
Definition episodePhase (f : Frame) (i : nat) (m : Mover) : St World Mover :=
  if Rlt_b (episodeExpires (beh m)) (tNow f) then
    do _ <- update (fun w => set_episodeCounts
                (counts_release Episode_eqb (episodeCounts w) (episode (beh m))) w);
    do ec <- gets episodeCounts;
    do episodePick <- drawing (pickEpisode ec);
    do _ <- update (set_episodeCounts (snd episodePick));
    do u <- drawing (rand 2000 6000);
    let b := beh m in
    let m := set_beh {| role := role b; roleExpires := roleExpires b;
                        episode := fst episodePick; episodeExpires := tNow f + u;
                        fleeSide := fleeSide b |} m in
    do _ <- update (fun w => set_episodeCounts
                (counts_bump Episode_eqb (episodeCounts w) (episode (beh m))) w);
    do m <- retarget f i m;
    drawing (chooseNewMicro m (tNow f))
  else ret m.

(** [m.anchorPosSx += m.anchorVelSx * dtMs], and the same for y. *)
Definition advanceAnchor (dtMs : R) (a : Anchor) : Anchor :=
  {| anchorPosSx := anchorPosSx a + anchorVelSx a * dtMs;
     anchorPosSy := anchorPosSy a + anchorVelSy a * dtMs;
     anchorTargetSx := anchorTargetSx a;
     anchorTargetSy := anchorTargetSy a;
     anchorVelSx := anchorVelSx a;
     anchorVelSy := anchorVelSy a;
     anchorMoveStart := anchorMoveStart a;
     anchorMoveDuration := anchorMoveDuration a;
     anchorMoveEnd := anchorMoveEnd a |}.

(** A new destination when the transition is over. *)
Definition retargetPhase (f : Frame) (i : nat) (m : Mover) : St World Mover :=
  if Rle_b (anchorMoveEnd (anchor m)) (tNow f) then retarget f i m else ret m.

(** A new micro-pattern when the current one is over. *)
Definition microPhase (tNow : R) (m : Mover) : St World Mover :=
  if Rlt_b (microNextSwitch (micro m)) tNow then drawing (chooseNewMicro m tNow)
  else ret m.

(** The threat from the proximity of the crosshair. *)
Definition threatOf (c : Config) (f : Frame) (scr : Screen) : R :=
  let distToCenter := hypot (sx scr) (sy scr) in
  let maxDist := Rmin (limXVal f) (limYVal f) * 0.75 in
  if moversFlee c then Rmax 0 (1 - distToCenter / maxDist) else 0.

(** Frequency and amplitude modulation, and the shortening of the
    micro-pattern under threat. *)
Definition modulatePhase (tNow threatAlpha : R) (m : Mover) : Mover :=
  let fm := 1 + 0.2 * sin (tNow * 0.0004 + orElse (fmPhase (modul m)) 0) in
  let targetW := wBase (dna m) * fm * (1 + threatAlpha * 0.8) in
  let w := wCurrent (modul m) + (targetW - wCurrent (modul m)) * 0.1 in
  let am := 1 + 0.2 * sin (tNow * 0.0005 + orElse (amPhase (modul m)) 0) in
  let m := set_modulation w (orElse (microGain (micro m)) 1 * am * (1 + threatAlpha * 0.5)) m in
  let remaining := microNextSwitch (micro m) - tNow in
  let desiredRem := orElse (microDuration (micro m)) MICRO_MAX_MS * (1 - 0.5 * threatAlpha) in
  if Rlt_b desiredRem remaining then set_microNextSwitch (tNow + desiredRem) m else m.

(** The shortening of the anchor transition. *)
Definition hurryAnchor (tNow threatAlpha : R) (e : Episode) (a : Anchor) : Anchor :=
  let rem := anchorMoveEnd a - tNow in
  let macroSpeed := macroSpeed (EPISODES e) in
  let desired := anchorMoveDuration a * (1 - 0.3 * threatAlpha) / macroSpeed in
  if Rlt_b desired rem then
    let remainingTime := desired in
    let dxLeft := anchorTargetSx a - anchorPosSx a in
    let dyLeft := anchorTargetSy a - anchorPosSy a in
    {| anchorPosSx := anchorPosSx a;
       anchorPosSy := anchorPosSy a;
       anchorTargetSx := anchorTargetSx a;
       anchorTargetSy := anchorTargetSy a;
       anchorVelSx := dxLeft / remainingTime;
       anchorVelSy := dyLeft / remainingTime;
       anchorMoveStart := anchorMoveStart a;
       anchorMoveDuration := remainingTime;
       anchorMoveEnd := tNow + remainingTime |}
  else a.

(** Feints under threat. *)
Definition feintPhase (tNow threatAlpha : R) (m : Mover) : Rand Mover :=
  if Rlt_b 0.45 threatAlpha then
    do u <- random;
    if Rlt_b u (orElse (feintChance (dna m)) 0.2 * threatAlpha * 0.3) then
      do uc <- random;
      let choice := floor (uc * 3) in
      if (choice =? 0)%Z then ret (set_anchorExpires tNow m)
      else if (choice =? 1)%Z then
        do v <- rand 200 500; ret (set_phaseFlipUntil (tNow + v) m)
      else
        do v <- rand 250 600; ret (set_zigZagUntil (tNow + v) m)
    else ret m
  else ret m.

(** *** Steering: avoidance, flight and integration *)

(** Repulsion from the live targets, added to [(ax, ay)]. *)
Definition repelTargets (avoidK mr : R) (scr : Screen) (tgs : list TargetScr)
    (acc : R * R) : R * R :=
  fold_left (fun (acc : R * R) (o : TargetScr) =>
               let dxs := sx scr - tg_sx o in
               let dys := sy scr - tg_sy o in
               let dist := orElse (hypot dxs dys) 0.0001 in
               let avoidR := mr + tg_r o + 70 in
               if Rlt_b dist avoidR then
                 let p := 1 - dist / avoidR in
                 (fst acc + (dxs / dist) * (p * 1.2) * avoidK,
                  snd acc + (dys / dist) * (p * 1.2) * avoidK)
               else acc) tgs acc.

(** [moversScr[j]]; the snapshot has one entry per mover. *)
Definition scrAt (f : Frame) (j : nat) : Screen :=
  default {| sx := 0; sy := 0 |} (moversScr f !! j).

(** Separation from the other live movers. *)
Definition separate (f : Frame) (avoidK : R) (ms : list Mover) (i : nat) (mr : R)
    (scr : Screen) (acc : R * R) : R * R :=
  fold_left (fun (acc : R * R) (e : nat * Mover) =>
               let (j, other) := e in
               if (j =? i)%nat then acc
               else if dead (combat other) then acc
               else
                 let o := scrAt f j in
                 let dxs := sx scr - sx o in
                 let dys := sy scr - sy o in
                 let dist := orElse (hypot dxs dys) 0.0001 in
                 let avoidR := mr + m_r (kin other) + 55 in
                 if Rlt_b dist avoidR then
                   let p := 1 - dist / avoidR in
                   (fst acc + (dxs / dist) * (p * 0.8) * avoidK,
                    snd acc + (dys / dist) * (p * 0.8) * avoidK)
                 else acc)
            (imap (fun j other => (j, other)) ms) acc.

(** Predictive avoidance within the look-ahead window. *)
Definition anticipate (f : Frame) (avoidK : R) (ms : list Mover) (i : nat) (mr : R)
    (scr vScr : Screen) (acc : R * R) : R * R :=
  let ttcWindow := 0.5 in
  fold_left (fun (acc : R * R) (e : nat * Mover) =>
               let (j, other) := e in
               if (j =? i)%nat then acc
               else if dead (combat other) then acc
               else
                 let relX := sx scr - sx (scrAt f j) in
                 let relY := sy scr - sy (scrAt f j) in
                 let oVel := worldToScreen (m_vx (kin other)) (m_vy (kin other))
                               (cosR f) (sinR f) in
                 let relVx := sx vScr - sx oVel in
                 let relVy := sy vScr - sy oVel in
                 let relSpeedSq := relVx * relVx + relVy * relVy in
                 if Rlt_b relSpeedSq 1e-6 then acc
                 else
                   let ttc := - (relX * relVx + relY * relVy) / relSpeedSq in
                   if Rlt_b 0 ttc && Rlt_b ttc ttcWindow then
                     let fx := relX + relVx * ttc in
                     let fy := relY + relVy * ttc in
                     let distF := hypot fx fy in
                     let safeDist := mr + m_r (kin other) + 50 in
                     if Rlt_b distF safeDist then
                       let p := 1 - distF / safeDist in
                       let evX := fx / orElse distF 0.0001 in
                       let evY := fy / orElse distF 0.0001 in
                       (fst acc + evX * p * 0.5 * avoidK, snd acc + evY * p * 0.5 * avoidK)
                     else acc
                   else acc)
            (imap (fun j other => (j, other)) ms) acc.

(** Flight from the crosshair, added to the desired velocity. *)
Definition flee (c : Config) (f : Frame) (m : Mover) (scr : Screen) (des : R * R)
    : R * R :=
  let esc := escapeBoost (combat m) in
  let fleeActive := moversFlee c && (Rlt_b 0 (playerSpeed f) || Rlt_b 0 esc) in
  if fleeActive then
    let distToPlayer := orElse (hypot (sx scr) (sy scr)) 0.0001 in
    let fleeR := Rmin (limXVal f) (limYVal f) * 0.7 in
    let withinRadius := Rlt_b distToPlayer fleeR in
    if withinRadius || Rlt_b 0 esc then
      let inv := if withinRadius then 1 - distToPlayer / fleeR else 1 in
      let boost := 1 + orElse esc 0 in
      let baseFleeV := if moversFlee c && Rlt_b 0 (playerSpeed f) then playerSpeed f
                       else 8.0 * orElse (moversSpeed c) 1 in
      let fleeV := baseFleeV * inv * boost in
      let dirX := sx scr / distToPlayer in
      let dirY := sy scr / distToPlayer in
      let latX := - dirY * orElse (fleeSide (beh m)) 1 in
      let latY := dirX * orElse (fleeSide (beh m)) 1 in
      let slow := negb (moversFlee c) || Req_b (playerSpeed f) 0 in
      let radialFactor := if slow then 0.8 else 0.6 in
      let lateralFactor := if slow then 0.2 else 0.4 in
      (fst des + (dirX * radialFactor + latX * lateralFactor) * fleeV,
       snd des + (dirY * radialFactor + latY * lateralFactor) * fleeV)
    else des
  else des.

(** Containment of one screen coordinate in [-b, b]: the position is
    clamped and the outward velocity is zeroed. *)
Definition contain (b pos vel : R) : R * R :=
  if Rlt_b pos (- b) then (- b, if Rlt_b vel 0 then 0 else vel)
  else if Rlt_b b pos then (b, if Rlt_b 0 vel then 0 else vel)
  else (pos, vel).

(** From the micro offset to the new world position and velocity. *)
Definition steer (c : Config) (f : Frame) (pl : Player) (ms : list Mover) (i : nat)
    (m : Mover) (scr vScr : Screen) (microOff : Vec2) : Kin :=
  let baseSpeed := moversSpeed c in
  let avoidK := moversAvoid c in
  let mr := m_r (kin m) in
  let targetSx := orElse (anchorPosSx (anchor m)) 0 + vx microOff in
  let targetSy := orElse (anchorPosSy (anchor m)) 0 + vy microOff in
  let des := ((targetSx - sx scr) * 0.06, (targetSy - sy scr) * 0.06) in
  let a := repelTargets avoidK mr scr (liveTargetsScr f) (0, 0) in
  let a := separate f avoidK ms i mr scr a in
  let a := anticipate f avoidK ms i mr scr vScr a in
  let des := flee c f m scr des in
  let nX := sin (sx scr * 0.02 + tNow f * 0.001 + wBase (dna m)) * 0.5 in
  let nY := cos (sy scr * 0.02 + tNow f * 0.001 + wBase (dna m)) * 0.5 in
  let des := (fst des + nX * 0.3, snd des + nY * 0.3) in
  let des := if negb (moversFlee c) && Rlt_b 0 (escapeBoost (combat m)) then
               let boostFactor := 1 + escapeBoost (combat m) in
               (fst des * boostFactor, snd des * boostFactor)
             else des in
  let sv := (fst des + fst a, snd des + snd a) in
  let sv := if Rlt_b (hypot (fst sv) (snd sv)) 0.0005
            then (sx vScr * 0.7, sy vScr * 0.7) else sv in
  let spd := orElse (hypot (fst sv) (snd sv)) 1 in
  let maxSp := 8.0 * baseSpeed in
  let sv := if Rlt_b maxSp spd then ((fst sv / spd) * maxSp, (snd sv / spd) * maxSp)
            else sv in
  let px := sx scr + fst sv * dtN f in
  let py := sy scr + snd sv * dtN f in
  let bx := limXVal f - mr in
  let by_ := limYVal f - mr in
  let cx := contain bx px (fst sv) in
  let cy := contain by_ py (snd sv) in
  let wpos := screenToWorld (fst cx) (fst cy) (cosR f) (sinR f) in
  let wvel := screenToWorld (snd cx) (snd cy) (cosR f) (sinR f) in
  {| m_x := p_x pl + dx wpos; m_y := p_y pl + dy wpos;
     m_vx := dx wvel; m_vy := dy wvel; m_r := mr |}.

(** *** The loop body and the frame *)

(** The body of the loop of [updateMovers] for a live mover [m], held at
    index [i]; the result is written back to the array. *)
Definition updateLive (f : Frame) (i : nat) (m : Mover) : St World Mover :=
  let m := healPhase (tNow f) m in
  do m <- rolePhase (tNow f) m;
  do m <- episodePhase f i m;
  let m := set_anchor (advanceAnchor (dtMs f) (anchor m)) m in
  do m <- retargetPhase f i m;
  do m <- microPhase (tNow f) m;
  do pl <- gets player;
  do c <- gets cfg;
  let dx := m_x (kin m) - p_x pl in
  let dy := m_y (kin m) - p_y pl in
  let scr := worldToScreen dx dy (cosR f) (sinR f) in
  let vScr := worldToScreen (m_vx (kin m)) (m_vy (kin m)) (cosR f) (sinR f) in
  let threatAlpha := threatOf c f scr in
  let m := modulatePhase (tNow f) threatAlpha m in
  let m := set_anchor (hurryAnchor (tNow f) threatAlpha (episode (beh m)) (anchor m)) m in
  do m <- drawing (feintPhase (tNow f) threatAlpha m);
  let m := set_frameAngle (orElse (frameAngle (modul m)) 0 + frameRate (modul m) * dtMs f) m in
  let om := computeMicroOffset c m (tNow f) (limXVal f) (limYVal f) in
  let m := snd om in
  do ms <- gets movers;
  ret (set_kin (steer c f pl ms i m scr vScr (fst om)) m).

(** The body of the loop of [updateMovers] at index [i]: dead movers
    are skipped. *)
Definition updateMover (f : Frame) (i : nat) : St World unit :=
  do ms <- gets movers;
  match ms !! i with
  | None => ret tt
  | Some m =>
      if dead (combat m) then ret tt
      else
        do m' <- updateLive f i m;
        update (fun w => set_movers (<[i := m']> (movers w)) w)
  end.

(** The live targets in screen space. *)
Definition liveTargets (pl : Player) (cosR sinR : R) (tgs : list Target)
    : list TargetScr :=
  omap (fun tg =>
          if t_dead tg || negb (Req_b (hitStart tg) 0) then None
          else
            let dxT := t_x tg - p_x pl in
            let dyT := t_y tg - p_y pl in
            let scrT := worldToScreen dxT dyT cosR sinR in
            Some {| tg_sx := sx scrT; tg_sy := sy scrT; tg_r := t_r tg |}) tgs.

(** The heat every live mover adds to the cell of its anchor. *)
Definition warmAnchors (limX limY : R) (ms : list Mover) (h : HeatMap) : HeatMap :=
  fold_left (fun h mv =>
               if dead (combat mv) then h
               else
                 let cell := getCellForPos (anchorPosSx (anchor mv))
                               (anchorPosSy (anchor mv)) limX limY in
                 heat_add h (row cell) (col cell) (HEATMAP_INCREMENT * 0.2)) ms h.

(** The frame proper: what [updateMovers] does once the count of movers
    is reconciled. *)
Definition updateFrame (dtN playerSpeed : R) : Js unit :=
  run c <- get cfg;
  run ms <- get movers;
  if negb (moversEnabled c) || (length ms =? 0)%nat then jret tt
  else
    run tNow <- nowMs;
    run lim <- arenaLimits;
    let limXVal := fst lim in
    let limYVal := snd lim in
    run angle <- get rollAngle;
    let cosR := cos angle in
    let sinR := sin angle in
    run pl <- get player;
    run tgs <- get targets;
    let moversScr := map (fun mv =>
                       worldToScreen (m_x (kin mv) - p_x pl) (m_y (kin mv) - p_y pl)
                         cosR sinR) ms in
    run _ <- modify (fun w => set_heatMap (decayHeatMap (heatMap w)) w);
    run _ <- modify (fun w => set_heatMap
                                (warmAnchors limXVal limYVal (movers w) (heatMap w)) w);
    let f := {| tNow := tNow; limXVal := limXVal; limYVal := limYVal;
                cosR := cosR; sinR := sinR;
                liveTargetsScr := liveTargets pl cosR sinR tgs;
                moversScr := moversScr; dtN := dtN; dtMs := dtN * 16.6667;
                playerSpeed := playerSpeed |} in
    jforM (seq 0 (length ms)) (fun i w => let (_, w') := updateMover f i w in (Val tt, w')).

(** [updateMovers(dtN, playerSpeed)]; the statements after the first
    block of the source are never reached and are not modelled. *)
Definition updateMovers (dtN playerSpeed : R) : Js unit :=
  run _ <- ensureMoversCount;
  updateFrame dtN playerSpeed.

(** * Properties *)

(** ** Sample inputs *)

(** A tape on which [Math.random()] always returns 0. *)
Definition zeroRng : Rng := {| tape := fun _ => 0; cursor := 0 |}.

(** [CFG] as config.js defines it. *)
Definition defaultConfig : Config :=
  {| regenOnHit := true; moversEnabled := true; moversCount := 3;
     moversSpeed := 1.00; moversAvoid := 1.00; moversR := 14; moversFlee := false;
     moversHit1Boost := 0.40; moversHit2Boost := 0.60 |}.

(** The state when the modules are loaded: no canvas yet, no movers. *)
Definition initialWorld : World :=
  {| cfg := defaultConfig; canvas := None; rollAngle := 0;
     player := {| p_x := 0; p_y := 0 |}; targets := []; movers := [];
     heatMap := heatMap_init; roleCounts := []; episodeCounts := [];
     clock := 0; rng := zeroRng; crosshairFlashUntil := 0; missFlashUntil := 0;
     lastSuccessAt := 0 |}.

(** ** Hit test (C10) *)

(** C10.  [hitTestMovers] returns -1 whenever the movers are disabled in
    the configuration or the collection is empty, whatever the positions
    of the movers and of the player. *)
Theorem hitTest_disabled_or_empty (w : World) :
  moversEnabled (cfg w) = false \/ movers w = [] -> hitTestMovers w = (-1)%Z.
Proof.
  intros [H | H]; unfold hitTestMovers; rewrite H; [reflexivity |].
  simpl. rewrite orb_true_r. reflexivity.
Qed.

Lemma hitTest_disabled_or_empty_witness :
  (moversEnabled (cfg initialWorld) = false \/ movers initialWorld = [])
  /\ hitTestMovers initialWorld = (-1)%Z.
Proof.
  split; [right; reflexivity |].
  apply (hitTest_disabled_or_empty initialWorld); right; reflexivity.
Defined.

(** ** Disabled movers (C9) *)

(** C9.  With the movers disabled in the configuration, [updateMovers]
    returns normally and leaves the collection empty, whatever it held. *)
Theorem updateMovers_disabled_empties (dtN playerSpeed : R) (w : World) :
  moversEnabled (cfg w) = false ->
  exists w', updateMovers dtN playerSpeed w = (Val tt, w')
             /\ movers w' = [] /\ length (movers w') = 0%nat.
Proof.
  intros H. unfold updateMovers, updateFrame, ensureMoversCount, jbind, get, modify, jret.
  rewrite H. simpl. rewrite H. simpl. eexists; split; [reflexivity |].
  split; reflexivity.
Qed.

(** ** Missing canvas (C8) *)

Arguments spawnMoverInWindow : simpl never.
Arguments respawnMover : simpl never.
Arguments updateMover : simpl never.
Arguments updateLive : simpl never.
Arguments chooseNewMicro : simpl never.
Arguments chooseNewAnchorTarget : simpl never.
Arguments steer : simpl never.
Arguments computeMicroOffset : simpl never.

Lemma spawnMoverInWindow_null_canvas (w : World) :
  canvas w = None -> spawnMoverInWindow w = (Throw, w).
Proof.
  intros Hc. unfold spawnMoverInWindow. unfold jbind at 1.
  unfold arenaLimits. rewrite Hc. reflexivity.
Qed.

(** ** Heat map (C7) *)

Lemma for_range_S {A : Type} (n : nat) (body : nat -> A -> A) (a : A) :
  for_range (S n) body a = body n (for_range n body a).
Proof. unfold for_range. rewrite seq_S, fold_left_app. reflexivity. Qed.

Lemma for_range_alter_lookup {A : Type} (g : A -> A) (n : nat) (l : list A) (j : nat) :
  for_range n (fun c row => alter g c row) l !! j
  = if decide (j < n)%nat then g <$> l !! j else l !! j.
Proof.
  induction n as [| n IH].
  - destruct (decide (j < 0)%nat); [lia | reflexivity].
  - rewrite for_range_S. destruct (decide (n = j)) as [-> | Hne].
    + rewrite list_lookup_alter_eq, IH.
      destruct (decide (j < j)%nat); [lia |].
      destruct (decide (j < S j)%nat); [reflexivity | lia].
    + rewrite list_lookup_alter_ne by assumption. rewrite IH.
      destruct (decide (j < n)%nat), (decide (j < S n)%nat); try reflexivity; lia.
Qed.

(** One decay multiplies every cell of the grid by [HEATMAP_DECAY]. *)
Lemma decayHeatMap_at (h : HeatMap) (r c : nat) :
  (r < HEAT_ROWS)%nat -> (c < HEAT_COLS)%nat ->
  heat_at (decayHeatMap h) r c = heat_at h r c * HEATMAP_DECAY.
Proof.
  intros Hr Hc. unfold heat_at, decayHeatMap.
  rewrite for_range_alter_lookup.
  destruct (decide (r < HEAT_ROWS)%nat); [| lia].
  destruct (h !! r) as [rw |]; simpl; [| lra].
  rewrite for_range_alter_lookup.
  destruct (decide (c < HEAT_COLS)%nat); [| lia].
  destruct (rw !! c); simpl; lra.
Qed.

(** Every cell is non-negative. *)
Definition heat_nonneg (h : HeatMap) : Prop := forall r c, 0 <= heat_at h r c.

Lemma heatMap_init_nonneg : heat_nonneg heatMap_init.
Proof.
  intros r c. unfold heat_at, heatMap_init.
  destruct (replicate HEAT_ROWS (replicate HEAT_COLS 0) !! r) as [rw |] eqn:E; simpl; [| lra].
  apply lookup_replicate_1 in E as [-> _].
  destruct (replicate HEAT_COLS 0 !! c) as [v |] eqn:E'; simpl; [| lra].
  apply lookup_replicate_1 in E' as [-> _]. lra.
Qed.

Lemma decayHeatMap_lookup_cell (h : HeatMap) (r c : nat) :
  heat_at (decayHeatMap h) r c = heat_at h r c * HEATMAP_DECAY
  \/ heat_at (decayHeatMap h) r c = heat_at h r c.
Proof.
  unfold heat_at, decayHeatMap.
  rewrite for_range_alter_lookup.
  destruct (decide (r < HEAT_ROWS)%nat); [| right; reflexivity].
  destruct (h !! r) as [rw |]; simpl; [| right; reflexivity].
  rewrite for_range_alter_lookup.
  destruct (decide (c < HEAT_COLS)%nat); [| right; reflexivity].
  destruct (rw !! c); simpl; [left; reflexivity | right; reflexivity].
Qed.

Lemma decayHeatMap_nonneg (h : HeatMap) : heat_nonneg h -> heat_nonneg (decayHeatMap h).
Proof.
  intros H r c. specialize (H r c).
  destruct (decayHeatMap_lookup_cell h r c) as [-> | ->]; [| assumption].
  unfold HEATMAP_DECAY. nra.
Qed.

(** Adding heat to a cell changes no other cell and raises that one. *)
Lemma heat_add_at (h : HeatMap) (r c r' c' : nat) (amount : R) :
  heat_at (heat_add h r c amount) r' c'
  = heat_at h r' c' \/
  heat_at (heat_add h r c amount) r' c' = heat_at h r' c' + amount.
Proof.
  unfold heat_at, heat_add.
  destruct (decide (r = r')) as [-> | Hr].
  - rewrite list_lookup_alter_eq. destruct (h !! r') as [rw |]; simpl; [| left; reflexivity].
    destruct (decide (c = c')) as [-> | Hc].
    + rewrite list_lookup_alter_eq. destruct (rw !! c'); simpl; [right | left]; reflexivity.
    + rewrite list_lookup_alter_ne by assumption. left; reflexivity.
  - rewrite list_lookup_alter_ne by assumption. left; reflexivity.
Qed.

Lemma heat_add_nonneg (h : HeatMap) (r c : nat) (amount : R) :
  0 <= amount -> heat_nonneg h -> heat_nonneg (heat_add h r c amount).
Proof.
  intros Ha H r' c'. specialize (H r' c').
  destruct (heat_add_at h r c r' c' amount) as [-> | ->]; lra.
Qed.

(** The increments [heatMap[r][c] += a] of a list, one after the
    other; an entry is [(r, c, a)]. *)
Definition bumps (incs : list (nat * nat * R)) (h : HeatMap) : HeatMap :=
  fold_left (fun h i => heat_add h (fst (fst i)) (snd (fst i)) (snd i)) incs h.

(** [h'] is [h] after increments, each by a positive amount. *)
Definition raised (h h' : HeatMap) : Prop :=
  exists incs, Forall (fun i => 0 < snd i) incs /\ h' = bumps incs h.

Lemma raised_refl (h : HeatMap) : raised h h.
Proof. exists []. split; [constructor | reflexivity]. Qed.

Lemma raised_trans (h1 h2 h3 : HeatMap) : raised h1 h2 -> raised h2 h3 -> raised h1 h3.
Proof.
  intros (i1 & F1 & ->) (i2 & F2 & ->). exists (i1 ++ i2).
  split; [apply Forall_app; split; assumption |].
  unfold bumps. rewrite fold_left_app. reflexivity.
Qed.

Lemma raised_add (h : HeatMap) (r c : nat) (a : R) : 0 < a -> raised h (heat_add h r c a).
Proof.
  intros Ha. exists [(r, c, a)]. split; [repeat constructor; exact Ha | reflexivity].
Qed.

Lemma raised_nonneg (h h' : HeatMap) : raised h h' -> heat_nonneg h -> heat_nonneg h'.
Proof.
  intros (incs & F & ->). revert h.
  induction F as [| i incs Hi _ IH]; intros h Hh; [exact Hh |].
  cbn [bumps fold_left]. apply IH. apply heat_add_nonneg; [lra | exact Hh].
Qed.

(** An increment leaves every other cell as it is. *)
Lemma heat_add_other (h : HeatMap) (r c r' c' : nat) (amount : R) :
  (r, c) <> (r', c') -> heat_at (heat_add h r c amount) r' c' = heat_at h r' c'.
Proof.
  intros Hne. unfold heat_at, heat_add.
  destruct (decide (r = r')) as [<- | Hr].
  - rewrite list_lookup_alter_eq. destruct (h !! r) as [rw |]; [| reflexivity].
    cbn. rewrite list_lookup_alter_ne; [reflexivity |]. intros <-. apply Hne. reflexivity.
  - rewrite list_lookup_alter_ne by exact Hr. reflexivity.
Qed.

(** A cell that no increment of the list names keeps its heat. *)
Lemma bumps_other (incs : list (nat * nat * R)) (h : HeatMap) (r c : nat) :
  Forall (fun i => fst i <> (r, c)) incs -> heat_at (bumps incs h) r c = heat_at h r c.
Proof.
  intros F. revert h. induction F as [| i incs Hi _ IH]; intros h; [reflexivity |].
  cbn [bumps fold_left]. fold (bumps incs (heat_add h (fst (fst i)) (snd (fst i)) (snd i))).
  rewrite IH. apply heat_add_other. destruct i as [[r0 c0] a]. exact Hi.
Qed.

#[local] Hint Resolve raised_refl : core.

Lemma decay_below (x eps : R) :
  0 < eps -> exists N, forall n, (N <= n)%nat -> x * HEATMAP_DECAY ^ n < eps.
Proof.
  intros He. destruct (Rle_dec x 0) as [Hx | Hx].
  - exists 0%nat. intros n _.
    assert (0 < HEATMAP_DECAY ^ n) by (apply pow_lt; unfold HEATMAP_DECAY; lra). nra.
  - assert (Hx' : 0 < x) by lra.
    destruct (pow_lt_1_zero HEATMAP_DECAY) with (y := eps / x) as [N HN].
    + unfold HEATMAP_DECAY. rewrite Rabs_pos_eq; lra.
    + apply Rdiv_lt_0_compat; assumption.
    + exists N. intros n Hn. specialize (HN n ltac:(lia)).
      assert (Hp : 0 < HEATMAP_DECAY ^ n) by (apply pow_lt; unfold HEATMAP_DECAY; lra).
      rewrite Rabs_pos_eq in HN by lra.
      apply (Rmult_lt_compat_l x) in HN; [| assumption].
      replace (x * (eps / x)) with eps in HN by (field; lra). exact HN.
Qed.

Lemma bind_run {S A B} (c : St S A) (k : A -> St S B) (s : S) :
  bind c k s = k (fst (c s)) (snd (c s)).
Proof. unfold bind. destruct (c s). reflexivity. Qed.

(** ** Reasoning about calls *)

(** [c] returns normally from [w], with a value and a world that
    satisfy [Q]. *)
Definition returns {A} (c : Js A) (Q : A -> World -> Prop) (w : World) : Prop :=
  exists a w', c w = (Val a, w') /\ Q a w'.

Lemma returns_bind {A B} (c : Js A) (k : A -> Js B) Q w :
  returns c (fun a w' => returns (k a) Q w') w -> returns (jbind c k) Q w.
Proof.
  intros (a & w' & Hc & b & w'' & Hk & HQ). exists b, w''. split; [| assumption].
  unfold jbind. rewrite Hc. assumption.
Qed.

Lemma returns_ret {A} (a : A) (Q : A -> World -> Prop) w : Q a w -> returns (jret a) Q w.
Proof. intros H. exists a, w. split; [reflexivity | assumption]. Qed.

Lemma returns_get {A} (f : World -> A) (Q : A -> World -> Prop) w :
  Q (f w) w -> returns (get f) Q w.
Proof. intros H. exists (f w), w. split; [reflexivity | assumption]. Qed.

Lemma returns_nowMs (Q : R -> World -> Prop) w : Q (clock w) w -> returns nowMs Q w.
Proof. apply returns_get. Qed.

Lemma returns_modify (f : World -> World) (Q : unit -> World -> Prop) w :
  Q tt (f w) -> returns (modify f) Q w.
Proof. intros H. exists tt, (f w). split; [reflexivity | assumption]. Qed.

Lemma returns_arenaLimits (Q : R * R -> World -> Prop) w c :
  canvas w = Some c -> Q (width c / 2 - MARGIN, height c / 2 - MARGIN) w ->
  returns arenaLimits Q w.
Proof.
  intros Hc H. eexists _, w. split; [| exact H]. unfold arenaLimits. rewrite Hc. reflexivity.
Qed.

Lemma returns_weaken {A} (c : Js A) (Q Q' : A -> World -> Prop) w :
  (forall a w', Q a w' -> Q' a w') -> returns c Q w -> returns c Q' w.
Proof. intros H (a & w' & Hc & HQ). exists a, w'. split; [assumption | auto]. Qed.

(** A random computation reads the tape and never writes it. *)
Definition keeps_tape {A} (c : Rand A) : Prop := forall g, tape (snd (c g)) = tape g.

Lemma keeps_tape_ret {A} (a : A) : keeps_tape (ret a).
Proof. intros g. reflexivity. Qed.

Lemma keeps_tape_bind {A B} (c : Rand A) (k : A -> Rand B) :
  keeps_tape c -> (forall a, keeps_tape (k a)) -> keeps_tape (bind c k).
Proof.
  intros Hc Hk g. unfold bind. specialize (Hc g). destruct (c g) as [a g'].
  rewrite Hk. exact Hc.
Qed.

Lemma keeps_tape_random : keeps_tape random.
Proof. intros g. reflexivity. Qed.

Lemma keeps_tape_rand a b : keeps_tape (rand a b).
Proof. apply keeps_tape_bind; [apply keeps_tape_random | intros; apply keeps_tape_ret]. Qed.

Lemma keeps_tape_if {A} (b : bool) (c d : Rand A) :
  keeps_tape c -> keeps_tape d -> keeps_tape (if b then c else d).
Proof. destruct b; auto. Qed.

Lemma keeps_tape_forM {A} (l : list nat) (body : nat -> A -> Rand A) (a : A) :
  (forall i x, keeps_tape (body i x)) -> keeps_tape (forM l body a).
Proof.
  intros H. revert a. induction l as [| i l IH]; intros a; simpl.
  - apply keeps_tape_ret.
  - apply keeps_tape_bind; [apply H | intros; apply IH].
Qed.

Create HintDb tape.
#[export] Hint Resolve keeps_tape_ret keeps_tape_random keeps_tape_rand : tape.

Ltac tape_tac :=
  repeat lazymatch goal with
    | |- keeps_tape (ret _) => apply keeps_tape_ret
    | |- keeps_tape random => apply keeps_tape_random
    | |- keeps_tape (rand _ _) => apply keeps_tape_rand
    | |- keeps_tape (bind _ _) => apply keeps_tape_bind; [| intros]
    | |- keeps_tape (forM _ _ _) => apply keeps_tape_forM; intros
    | |- keeps_tape (if _ then _ else _) => apply keeps_tape_if
    | |- keeps_tape (match ?x with _ => _ end) => destruct x
    | |- keeps_tape (let _ := _ in _) => cbv zeta
    | |- keeps_tape _ => solve [auto with tape]
    end.

Lemma keeps_tape_spawnPosition tries limX limY r cur :
  keeps_tape (spawnPosition tries limX limY r cur).
Proof. revert cur. induction tries as [| n IH]; intros cur; simpl; tape_tac; apply IH. Qed.

Lemma keeps_tape_weightedIndex ws : keeps_tape (weightedIndex ws).
Proof. unfold weightedIndex. tape_tac. Qed.

Lemma keeps_tape_pick {K} (eqb : K -> K -> bool) names maxCount dflt cs :
  keeps_tape (pick eqb names maxCount dflt cs).
Proof. unfold pick. tape_tac. Qed.

Lemma keeps_tape_pickRole cs : keeps_tape (pickRole cs).
Proof. apply keeps_tape_pick. Qed.

Lemma keeps_tape_pickEpisode cs : keeps_tape (pickEpisode cs).
Proof. apply keeps_tape_pick. Qed.

#[export] Hint Resolve keeps_tape_spawnPosition keeps_tape_weightedIndex
  keeps_tape_pickRole keeps_tape_pickEpisode : tape.

Lemma keeps_tape_spawnTraits role : keeps_tape (spawnTraits role).
Proof. unfold spawnTraits. tape_tac. Qed.

Lemma keeps_tape_chooseNewMicro m t : keeps_tape (chooseNewMicro m t).
Proof. unfold chooseNewMicro. tape_tac. Qed.

Lemma keeps_tape_anchorAttempt cfg h ms i m limX limY bias tgs best :
  keeps_tape (anchorAttempt cfg h ms i m limX limY bias tgs best).
Proof. unfold anchorAttempt. tape_tac. Qed.

#[export] Hint Resolve keeps_tape_spawnTraits keeps_tape_chooseNewMicro
  keeps_tape_anchorAttempt : tape.

Lemma keeps_tape_chooseNewAnchorTarget cfg h ms i m t limX limY tgs :
  keeps_tape (chooseNewAnchorTarget cfg h ms i m t limX limY tgs).
Proof. unfold chooseNewAnchorTarget. tape_tac. Qed.

Lemma keeps_tape_feintPhase tNow threat m : keeps_tape (feintPhase tNow threat m).
Proof. unfold feintPhase. tape_tac. Qed.

#[export] Hint Resolve keeps_tape_chooseNewAnchorTarget keeps_tape_feintPhase : tape.

Lemma returns_liftRand {A} (c : Rand A) (Q : A -> World -> Prop) w :
  keeps_tape c ->
  (forall a g, tape g = tape (rng w) -> c (rng w) = (a, g) -> Q a (set_rng g w)) ->
  returns (liftRand c) Q w.
Proof.
  intros Hk H. unfold returns, liftRand. specialize (Hk (rng w)).
  specialize (H (fst (c (rng w))) (snd (c (rng w))) Hk).
  destruct (c (rng w)) as [a g]. simpl in *. exists a, (set_rng g w).
  split; [reflexivity | apply H; reflexivity].
Qed.

Ltac world_goal :=
  cbn [cfg canvas rollAngle player targets movers heatMap roleCounts episodeCounts
       clock rng crosshairFlashUntil missFlashUntil lastSuccessAt
       set_cfg set_targets set_movers set_heatMap set_roleCounts set_episodeCounts
       set_rng set_crosshairFlashUntil set_missFlashUntil set_lastSuccessAt
       fst snd].

Ltac world_simpl :=
  cbn [cfg canvas rollAngle player targets movers heatMap roleCounts episodeCounts
       clock rng crosshairFlashUntil missFlashUntil lastSuccessAt
       set_cfg set_targets set_movers set_heatMap set_roleCounts set_episodeCounts
       set_rng set_crosshairFlashUntil set_missFlashUntil set_lastSuccessAt
       fst snd] in *.

Ltac jstep :=
  lazymatch goal with
  | |- returns (jbind _ _) _ _ => apply returns_bind
  | |- returns (get _) _ _ => apply returns_get; world_goal
  | |- returns nowMs _ _ => apply returns_nowMs; world_goal
  | |- returns (modify _) _ _ => apply returns_modify; world_goal
  | |- returns (jret _) _ _ => apply returns_ret
  | |- returns (liftRand _) _ _ =>
      apply returns_liftRand; [solve [auto with tape] | intros ? ? ? ?]; world_simpl
  | |- returns (let _ := _ in _) _ _ => cbv zeta
  | |- returns (match ?x with _ => _ end) _ _ => destruct x eqn:?
  end.

(** ** Spawning and respawning *)

(** What a call leaves alone when it only touches the movers, the pools
    and the position on the tape. *)
Record same_base (w w' : World) : Prop := {
  sb_cfg : cfg w' = cfg w;
  sb_canvas : canvas w' = canvas w;
  sb_rollAngle : rollAngle w' = rollAngle w;
  sb_player : player w' = player w;
  sb_targets : targets w' = targets w;
  sb_heatMap : heatMap w' = heatMap w;
  sb_clock : clock w' = clock w;
  sb_tape : tape (rng w') = tape (rng w);
  sb_crosshair : crosshairFlashUntil w' = crosshairFlashUntil w;
  sb_miss : missFlashUntil w' = missFlashUntil w;
  sb_success : lastSuccessAt w' = lastSuccessAt w
}.

Lemma same_base_refl w : same_base w w.
Proof. constructor; reflexivity. Qed.

Lemma same_base_trans w1 w2 w3 : same_base w1 w2 -> same_base w2 w3 -> same_base w1 w3.
Proof. intros [] []. constructor; congruence. Qed.

Definition fresh_combat : Combat :=
  {| hitUntil := 0; hits := 0; escapeBoost := 0; lastHitTime := 0;
     dead := false; deadStart := 0 |}.

(** The anchor of a mover spawned at time [t]: at rest at the centre. *)
Definition fresh_anchor (t : R) : Anchor :=
  {| anchorPosSx := 0; anchorPosSy := 0; anchorTargetSx := 0; anchorTargetSy := 0;
     anchorVelSx := 0; anchorVelSy := 0;
     anchorMoveStart := t; anchorMoveDuration := 3000; anchorMoveEnd := t + 3000 |}.

(** [spawnMoverInWindow] returned [nm] and turned [w] into [w']. *)
Record Spawned (w : World) (nm : Mover) (w' : World) : Prop := {
  sp_base : same_base w w';
  sp_movers : movers w' = movers w;
  sp_combat : combat nm = fresh_combat;
  sp_anchor : anchor nm = fresh_anchor (clock w);
  sp_prevOffset : prevOffset (micro nm) = {| vx := 0; vy := 0 |};
  sp_microStart : microStart (micro nm) = clock w;
  sp_microBlendStart : microBlendStart (micro nm) = clock w;
  sp_role : exists g g', tape g = tape (rng w)
              /\ pickRole (roleCounts w) g = (role (beh nm), roleCounts w', g');
  sp_episode : exists g g', tape g = tape (rng w)
              /\ pickEpisode (episodeCounts w) g = (episode (beh nm), episodeCounts w', g')
}.

Lemma spawnMoverInWindow_spec (w : World) (c : Canvas) :
  canvas w = Some c ->
  returns spawnMoverInWindow (fun nm w' => Spawned w nm w') w.
Proof.
  intros Hc. unfold spawnMoverInWindow.
  apply returns_bind. eapply returns_arenaLimits; [exact Hc |].
  repeat jstep. world_simpl.
  constructor; world_simpl; try reflexivity.
  - constructor; world_simpl; try reflexivity. congruence.
  - match goal with
    | H : pickRole _ ?g = (?a, ?g') |- _ =>
        exists g, g'; split; [congruence | rewrite H; destruct a; reflexivity]
    end.
  - match goal with
    | H : pickEpisode _ ?g = (?a, ?g') |- _ =>
        exists g, g'; split; [congruence | rewrite H; destruct a; reflexivity]
    end.
Qed.

(** [respawnMover(i)] replaced the mover [m] at index [i]. *)
Record Respawned (i : nat) (m : Mover) (w w' : World) : Prop := {
  rs_base : same_base w w';
  rs_new : exists nm w1,
      Spawned w nm w1
      /\ movers w' = <[i := respawned m nm]> (movers w)
      /\ roleCounts w'
         = counts_bump Role_eqb
             (counts_release Role_eqb (roleCounts w1) (role (beh m))) (role (beh nm))
      /\ episodeCounts w'
         = counts_bump Episode_eqb
             (counts_release Episode_eqb (episodeCounts w1) (episode (beh m)))
             (episode (beh nm))
}.

Lemma respawnMover_spec (w : World) (c : Canvas) (i : nat) (m : Mover) :
  canvas w = Some c -> movers w !! i = Some m ->
  returns (respawnMover i) (fun _ w' => Respawned i m w w') w.
Proof.
  intros Hc Hm. unfold respawnMover.
  apply returns_bind.
  eapply returns_weaken; [| apply (spawnMoverInWindow_spec w c Hc)].
  intros nm w1 Hsp. cbv beta.
  apply returns_bind, returns_get.
  rewrite (sp_movers _ _ _ Hsp), Hm.
  repeat jstep. world_simpl.
  pose proof (sp_base _ _ _ Hsp) as [].
  constructor.
  - constructor; world_simpl; assumption.
  - exists nm, w1. world_simpl. rewrite (sp_movers _ _ _ Hsp).
    split; [exact Hsp |]. split; [reflexivity |]. split; reflexivity.
Qed.

(** ** Reasoning about the frame update *)

(** The value and the world that a computation on the world gives
    satisfy [Q]. *)
Definition yields {A} (c : St World A) (Q : A -> World -> Prop) (w : World) : Prop :=
  Q (fst (c w)) (snd (c w)).

Lemma yields_bind {A B} (c : St World A) (k : A -> St World B) Q w :
  yields c (fun a w' => yields (k a) Q w') w -> yields (bind c k) Q w.
Proof. unfold yields, bind. destruct (c w) as [a w']. auto. Qed.

Lemma yields_ret {A} (a : A) (Q : A -> World -> Prop) w : Q a w -> yields (ret a) Q w.
Proof. auto. Qed.

Lemma yields_gets {A} (f : World -> A) (Q : A -> World -> Prop) w :
  Q (f w) w -> yields (gets f) Q w.
Proof. auto. Qed.

Lemma yields_update (f : World -> World) (Q : unit -> World -> Prop) w :
  Q tt (f w) -> yields (update f) Q w.
Proof. auto. Qed.

Lemma yields_drawing {A} (c : Rand A) (Q : A -> World -> Prop) w :
  keeps_tape c ->
  (forall a g, tape g = tape (rng w) -> c (rng w) = (a, g) -> Q a (set_rng g w)) ->
  yields (drawing c) Q w.
Proof.
  intros Hk H. unfold yields, drawing. specialize (Hk (rng w)).
  specialize (H (fst (c (rng w))) (snd (c (rng w))) Hk).
  destruct (c (rng w)) as [a g]. simpl in *. apply H. reflexivity.
Qed.

Lemma yields_weaken {A} (c : St World A) (Q Q' : A -> World -> Prop) w :
  (forall a w', Q a w' -> Q' a w') -> yields c Q w -> yields c Q' w.
Proof. unfold yields. auto. Qed.

Lemma yields_conj {A} (c : St World A) (P Q : A -> World -> Prop) w :
  yields c P w -> yields c Q w -> yields c (fun a w' => P a w' /\ Q a w') w.
Proof. unfold yields. auto. Qed.

Ltac ystep :=
  lazymatch goal with
  | |- yields (bind _ _) _ _ => apply yields_bind
  | |- yields (gets _) _ _ => apply yields_gets; world_goal
  | |- yields (update _) _ _ => apply yields_update; world_goal
  | |- yields (ret _) _ _ => apply yields_ret
  | |- yields (drawing _) _ _ =>
      apply yields_drawing; [solve [auto with tape] | intros ? ? ? ?]; world_simpl
  | |- yields (let _ := _ in _) _ _ => cbv zeta
  end.

(** What the phases of the update leave alone: they write the pools,
    the heat map and the position on the tape only; heat is only added. *)
Record same_env (w w' : World) : Prop := {
  se_cfg : cfg w' = cfg w;
  se_canvas : canvas w' = canvas w;
  se_rollAngle : rollAngle w' = rollAngle w;
  se_player : player w' = player w;
  se_targets : targets w' = targets w;
  se_movers : movers w' = movers w;
  se_clock : clock w' = clock w;
  se_tape : tape (rng w') = tape (rng w);
  se_heat : raised (heatMap w) (heatMap w')
}.

Lemma same_env_refl w : same_env w w.
Proof. constructor; auto. Qed.

Lemma same_env_trans w1 w2 w3 : same_env w1 w2 -> same_env w2 w3 -> same_env w1 w3.
Proof. intros [] []. constructor; try congruence. eapply raised_trans; eassumption. Qed.

#[local] Hint Resolve same_env_refl : core.

(** What the re-choice of the micro-pattern, the role rotation and the
    feints leave alone in a mover. *)
Record kept (m m' : Mover) : Prop := {
  k_combat : combat m' = combat m;
  k_anchor : anchor m' = anchor m;
  k_kin : kin m' = kin m;
  k_episode : episode (beh m') = episode (beh m);
  k_episodeExpires : episodeExpires (beh m') = episodeExpires (beh m)
}.

Lemma kept_refl m : kept m m.
Proof. constructor; reflexivity. Qed.

Lemma kept_trans m1 m2 m3 : kept m1 m2 -> kept m2 m3 -> kept m1 m3.
Proof. intros [] []. constructor; congruence. Qed.

#[local] Hint Resolve kept_refl : core.

Lemma chooseNewMicro_kept (m : Mover) (t : R) (g : Rng) :
  kept m (fst (chooseNewMicro m t g)).
Proof.
  unfold chooseNewMicro. cbv zeta. unfold bind.
  repeat match goal with
         | |- context [let (_, _) := ?x in _] => destruct x
         end.
  destruct (Rlt_b _ _); [| constructor; reflexivity].
  repeat match goal with
         | |- context [let (_, _) := ?x in _] => destruct x
         end.
  constructor; reflexivity.
Qed.

Lemma feintPhase_kept (tNow threat : R) (m : Mover) (g : Rng) :
  kept m (fst (feintPhase tNow threat m g)).
Proof.
  unfold feintPhase. destruct (Rlt_b 0.45 threat); [| apply kept_refl].
  unfold bind. destruct (random g) as [u g1].
  destruct (Rlt_b u _); [| apply kept_refl].
  destruct (random g1) as [uc g2].
  destruct (floor (uc * 3) =? 0)%Z; [constructor; reflexivity |].
  destruct (floor (uc * 3) =? 1)%Z;
    match goal with |- context [let (_, _) := ?x in _] => destruct x end;
    constructor; reflexivity.
Qed.

Lemma modulatePhase_kept (tNow threat : R) (m : Mover) :
  kept m (modulatePhase tNow threat m).
Proof.
  unfold modulatePhase. cbv zeta. destruct (Rlt_b _ _); constructor; reflexivity.
Qed.

Lemma computeMicroOffset_kept (c : Config) (m : Mover) (t limX limY : R) :
  kept m (snd (computeMicroOffset c m t limX limY)).
Proof.
  unfold computeMicroOffset. cbv zeta. cbn [snd].
  destruct (Rle_b 1 _); constructor; reflexivity.
Qed.

(** ** Anchor targets stay inside the arena *)

Definition target_in (limX limY : R) (a : Anchor) : Prop :=
  Rabs (anchorTargetSx a) <= limX /\ Rabs (anchorTargetSy a) <= limY.

Definition pos_in (limX limY : R) (a : Anchor) : Prop :=
  Rabs (anchorPosSx a) <= limX /\ Rabs (anchorPosSy a) <= limY.

Lemma tape_ok_eq (g g' : Rng) : tape g' = tape g -> tape_ok g -> tape_ok g'.
Proof. intros E H n. rewrite E. apply H. Qed.

Lemma forM_invariant {A} (P : A -> Prop) (l : list nat) (body : nat -> A -> Rand A)
    (a : A) (g : Rng) :
  (forall i x, keeps_tape (body i x)) ->
  (forall i x g, tape_ok g -> P x -> P (fst (body i x g))) ->
  tape_ok g -> P a -> P (fst (forM l body a g)).
Proof.
  intros Hk Hb. revert a g. induction l as [| i l IH]; intros a g Hg Ha; simpl.
  - exact Ha.
  - unfold bind. pose proof (Hk i a g) as Ht. pose proof (Hb i a g Hg Ha) as Hp.
    destruct (body i a g) as [a' g']. simpl in *.
    apply IH; [eapply tape_ok_eq; eassumption | exact Hp].
Qed.

(** A cell index drawn as [Math.floor(rand(0, n))] lies in [0, n - 1]. *)
Lemma drawn_index_range (u : R) (n : nat) :
  0 <= u < 1 -> (0 < n)%nat ->
  0 <= INR (Z.to_nat (floor (0 + u * (INR n - 0)))) <= INR n - 1.
Proof.
  intros Hu Hn. unfold floor.
  set (x := 0 + u * (INR n - 0)).
  assert (Hn' : 1 <= INR n) by (apply (le_INR 1); lia).
  assert (Hx : 0 <= x < INR n) by (unfold x; nra).
  pose proof (Zfloor_bound x) as [Hlo Hhi].
  assert (Hz : (0 <= Zfloor x)%Z).
  { apply Z.lt_succ_r. apply lt_IZR. rewrite succ_IZR. lra. }
  assert (Hz' : (Zfloor x <= Z.of_nat n - 1)%Z).
  { apply Z.lt_succ_r. apply lt_IZR. rewrite succ_IZR, minus_IZR, <- INR_IZR_INZ. lra. }
  rewrite INR_IZR_INZ, Z2Nat.id by assumption.
  split; [apply IZR_le; assumption |].
  apply IZR_le in Hz'. rewrite minus_IZR, <- INR_IZR_INZ in Hz'. lra.
Qed.

(** A candidate: the centre of a cell plus a jitter of at most 40% of
    the cell, inside [-lim, lim]. *)
Lemma candidate_in_range (lim k u : R) (n : nat) :
  0 <= lim -> 0 <= k <= INR n - 1 -> 0 <= u < 1 -> (0 < n)%nat ->
  Rabs (- lim + (k + 0.5) * (lim * 2 / INR n) + (u - 0.5) * (lim * 2 / INR n) * 0.8)
  <= lim.
Proof.
  intros Hl Hk Hu Hn.
  assert (Hn' : 1 <= INR n) by (apply (le_INR 1); lia).
  set (cw := lim * 2 / INR n).
  assert (Hcw : 0 <= cw) by (unfold cw; apply Rmult_le_pos; [lra |];
                             left; apply Rinv_0_lt_compat; lra).
  assert (Hcn : cw * INR n = lim * 2) by (unfold cw; field; lra).
  apply Rabs_le. split; nra.
Qed.

Definition best_in (limX limY : R) (best : option Candidate) : Prop :=
  match best with
  | None => True
  | Some b => Rabs (c_sx b) <= limX /\ Rabs (c_sy b) <= limY
  end.

Lemma candidateAt_in (cfg : Config) (h : HeatMap) (ms : list Mover) (i : nat)
    (m : Mover) (limX limY bias : R) (tgs : list TargetScr) (vc vr u1 u2 : R) :
  0 <= limX -> 0 <= limY -> 0 <= vc < 1 -> 0 <= vr < 1 -> 0 <= u1 < 1 -> 0 <= u2 < 1 ->
  let cand := candidateAt cfg h ms i m limX limY bias tgs
                (0 + vc * (INR HEAT_COLS - 0)) (0 + vr * (INR HEAT_ROWS - 0)) u1 u2 in
  Rabs (c_sx cand) <= limX /\ Rabs (c_sy cand) <= limY.
Proof.
  intros HX HY Hc Hr H1 H2. unfold candidateAt. cbv zeta. cbn [c_sx c_sy].
  split; apply candidate_in_range; try assumption;
    try apply drawn_index_range; try assumption; unfold HEAT_COLS, HEAT_ROWS; lia.
Qed.

Arguments candidateAt : simpl never.

Lemma anchorAttempt_in (cfg : Config) (h : HeatMap) (ms : list Mover) (i : nat)
    (m : Mover) (limX limY bias : R) (tgs : list TargetScr) (best : option Candidate)
    (g : Rng) :
  tape_ok g -> 0 <= limX -> 0 <= limY -> best_in limX limY best ->
  best_in limX limY (fst (anchorAttempt cfg h ms i m limX limY bias tgs best g)).
Proof.
  intros Hg HX HY Hb. unfold anchorAttempt, rand. unfold bind, random, ret.
  cbn [fst snd tape cursor].
  match goal with
  | |- context [candidateAt ?x1 ?x2 ?x3 ?x4 ?x5 ?x6 ?x7 ?x8 ?x9 _ _ ?u1 ?u2] =>
      pose proof (candidateAt_in x1 x2 x3 x4 x5 x6 x7 x8 x9 (tape g (cursor g))
                    (tape g (S (cursor g))) u1 u2 HX HY) as Hin
  end.
  specialize (Hin (Hg _) (Hg _) (Hg _) (Hg _)). cbv zeta in Hin.
  destruct best as [b |]; [| exact Hin].
  match goal with |- context [ext_gt ?a ?b] => destruct (ext_gt a b) end;
    [exact Hin | exact Hb].
Qed.

(** The target that [chooseNewAnchorTarget] stores lies inside the arena;
    the anchor position is not moved; heat is only added. *)
Lemma chooseNewAnchorTarget_spec (cfg : Config) (h : HeatMap) (ms : list Mover)
    (i : nat) (m : Mover) (t limX limY : R) (tgs : list TargetScr) (g : Rng) :
  let r := fst (chooseNewAnchorTarget cfg h ms i m t limX limY tgs g) in
  anchorPosSx (fst r) = anchorPosSx (anchor m)
  /\ anchorPosSy (fst r) = anchorPosSy (anchor m)
  /\ raised h (snd r)
  /\ (tape_ok g -> 0 <= limX -> 0 <= limY -> target_in limX limY (fst r)).
Proof.
  unfold chooseNewAnchorTarget. cbv zeta. rewrite bind_run.
  match goal with
  | |- context [forM (seq 0 25) ?b None g] => set (loop := forM (seq 0 25) b None g)
  end.
  assert (Hbest : tape_ok g -> 0 <= limX -> 0 <= limY -> best_in limX limY (fst loop)).
  { intros Hg HX HY.
    apply (forM_invariant (best_in limX limY)); [| | exact Hg | exact I].
    - intros; apply keeps_tape_anchorAttempt.
    - intros; apply anchorAttempt_in; assumption. }
  assert (Htape : tape (snd loop) = tape g).
  { apply (keeps_tape_forM (seq 0 25)). intros; apply keeps_tape_anchorAttempt. }
  clearbody loop. destruct loop as [[b |] g1]; cbn [fst snd] in *.
  - rewrite bind_run. unfold ret. cbn [fst snd].
    split; [reflexivity |]. split; [reflexivity |]. split.
    + apply raised_add. unfold HEATMAP_INCREMENT. lra.
    + intros Hg HX HY. apply (Hbest Hg HX HY).
  - rewrite !bind_run. unfold ret. cbn [fst snd].
    split; [reflexivity |]. split; [reflexivity |]. split; [apply raised_refl |].
    intros Hg HX HY. unfold target_in, anchorToward. cbn [anchorTargetSx anchorTargetSy].
    assert (Hrange : forall b g', tape g' = tape g -> 0 <= b ->
                       Rabs (fst (rand (- b * 0.8) (b * 0.8) g')) <= b).
    { intros b0 g' Hg' Hb. unfold rand. rewrite bind_run. unfold ret, random. cbn [fst snd].
      pose proof (Hg (cursor g')) as Hu. rewrite <- Hg' in Hu.
      apply Rabs_le. split; nra. }
    split; apply Hrange; assumption.
Qed.

(** ** The course that [chooseNewAnchorTarget] sets *)

Lemma hypot_nonneg (a b : R) : 0 <= hypot a b.
Proof. apply sqrt_pos. Qed.

Lemma hypot_sq (a b : R) : hypot a b * hypot a b = a * a + b * b.
Proof. unfold hypot. apply sqrt_sqrt. nra. Qed.

Lemma macroSpeed_range (e : Episode) : 0.7 <= macroSpeed (EPISODES e) <= 1.4.
Proof. destruct e; cbn; lra. Qed.

Lemma orElse_hypot (a b : R) :
  0 < orElse (hypot a b) 1 /\ hypot a b <= orElse (hypot a b) 1.
Proof.
  pose proof (hypot_nonneg a b) as H. unfold orElse.
  destruct (Req_b_spec (hypot a b) 0) as [E | E]; lra.
Qed.

(** The anchor is on course: [rho] ms at its velocity bring it to its
    target. *)
Definition on_course (rho : R) (a : Anchor) : Prop :=
  anchorTargetSx a = anchorPosSx a + anchorVelSx a * rho
  /\ anchorTargetSy a = anchorPosSy a + anchorVelSy a * rho.

Lemma on_course_fresh (t rho : R) : on_course rho (fresh_anchor t).
Proof. unfold on_course. cbn. split; lra. Qed.

(** With [Math.random()] in [[0, 1)], the transition that
    [chooseNewAnchorTarget] stores lasts more than 1400 ms and leaves
    the anchor on course: the duration at the stored velocity leads to
    the target. *)
Lemma chooseNewAnchorTarget_course (cfg : Config) (h : HeatMap) (ms : list Mover)
    (i : nat) (m : Mover) (t limX limY : R) (tgs : list TargetScr) (g : Rng) :
  tape_ok g ->
  exists dur, 1400 < dur
              /\ on_course dur (fst (fst (chooseNewAnchorTarget cfg h ms i m t limX limY tgs g))).
Proof.
  intros Hg. unfold chooseNewAnchorTarget. cbv zeta. rewrite bind_run.
  match goal with
  | |- context [forM (seq 0 25) ?b None g] =>
      assert (Htape : tape (snd (forM (seq 0 25) b None g)) = tape g)
        by (apply (keeps_tape_forM (seq 0 25)); intros; apply keeps_tape_anchorAttempt);
      destruct (forM (seq 0 25) b None g) as [[b0 |] g1]
  end; cbn [fst snd] in *.
  - rewrite bind_run. unfold ret, rand. rewrite bind_run. unfold ret, random.
    cbn [fst snd tape cursor].
    pose proof (Hg (cursor g1)) as Hu. rewrite <- Htape in Hu.
    set (u := tape g1 (cursor g1)) in *.
    pose proof (macroSpeed_range (episode (beh m))) as Hms.
    set (msp := macroSpeed (EPISODES (episode (beh m)))) in *.
    destruct (orElse_hypot (c_sx b0 - anchorPosSx (anchor m))
                (c_sy b0 - anchorPosSy (anchor m))) as [Hd0 _].
    set (dist := orElse _ 1) in *.
    assert (Hbase : 1400 < (2000 + u * (5000 - 2000)) / msp).
    { assert (Hi : / 1.4 <= / msp) by (apply Rinv_le_contravar; lra).
      unfold Rdiv. nra. }
    set (dur := (2000 + u * (5000 - 2000)) / msp + dist * 0.3) in *.
    assert (Hdur : 1400 < dur) by (unfold dur; nra).
    clearbody dur. exists dur. split; [exact Hdur |].
    unfold on_course, anchorToward.
    cbn [anchorTargetSx anchorTargetSy anchorPosSx anchorPosSy anchorVelSx anchorVelSy].
    split; field; lra.
  - rewrite !bind_run. unfold ret, rand. rewrite !bind_run. unfold ret, random.
    cbn [fst snd tape cursor].
    pose proof (Hg (S (S (cursor g1)))) as Hu. rewrite <- Htape in Hu.
    set (u := tape g1 (S (S (cursor g1)))) in *.
    match goal with
    | |- context [orElse (hypot ?a ?b) 1] => destruct (orElse_hypot a b) as [Hd0 _];
                                             set (dist := orElse (hypot a b) 1) in *
    end.
    set (dur := 2000 + u * (5000 - 2000) + dist * 0.3) in *.
    assert (Hdur : 1400 < dur) by (unfold dur; nra).
    clearbody dur. exists dur. split; [exact Hdur |].
    unfold on_course, anchorToward.
    cbn [anchorTargetSx anchorTargetSy anchorPosSx anchorPosSy anchorVelSx anchorVelSy].
    split; field; lra.
Qed.

(** ** The phases of the update *)

(** What a phase that may choose a new anchor target leaves alone in a
    mover: the combat state and the anchor position; when the tape is a
    tape of [Math.random()] results and the arena is not empty, a target
    inside the arena stays inside. *)
Record steered (tp : nat -> R) (limX limY : R) (m m' : Mover) : Prop := {
  st_combat : combat m' = combat m;
  st_posx : anchorPosSx (anchor m') = anchorPosSx (anchor m);
  st_posy : anchorPosSy (anchor m') = anchorPosSy (anchor m);
  st_target : (forall n, 0 <= tp n < 1) -> 0 <= limX -> 0 <= limY ->
              target_in limX limY (anchor m) -> target_in limX limY (anchor m')
}.

Lemma steered_refl tp limX limY m : steered tp limX limY m m.
Proof. constructor; auto. Qed.

Lemma steered_trans tp limX limY m1 m2 m3 :
  steered tp limX limY m1 m2 -> steered tp limX limY m2 m3 -> steered tp limX limY m1 m3.
Proof. intros [] []. constructor; try congruence. auto. Qed.

Lemma kept_steered tp limX limY m m' : kept m m' -> steered tp limX limY m m'.
Proof. intros []. constructor; congruence. Qed.

Lemma rolePhase_spec (tNow : R) (m : Mover) (w : World) :
  yields (rolePhase tNow m) (fun m' w' => same_env w w' /\ kept m m') w.
Proof.
  unfold rolePhase. destruct (Rlt_b _ _); [| ystep; split; auto].
  repeat ystep.
  split.
  - constructor; world_simpl; try reflexivity; try congruence; auto.
  - match goal with
    | H : chooseNewMicro ?m0 ?t ?g = (?a, _) |- _ =>
        pose proof (chooseNewMicro_kept m0 t g) as Hk; rewrite H in Hk
    end.
    cbn [fst] in Hk. destruct Hk. constructor; assumption.
Qed.

Lemma microPhase_spec (tNow : R) (m : Mover) (w : World) :
  yields (microPhase tNow m) (fun m' w' => same_env w w' /\ kept m m') w.
Proof.
  unfold microPhase. destruct (Rlt_b _ _); [| ystep; split; auto].
  ystep. split.
  - constructor; world_simpl; try reflexivity; try congruence; auto.
  - match goal with
    | H : chooseNewMicro ?m0 ?t ?g = (?a, _) |- _ =>
        pose proof (chooseNewMicro_kept m0 t g) as Hk; rewrite H in Hk
    end.
    exact Hk.
Qed.

Lemma retarget_spec (f : Frame) (i : nat) (m : Mover) (w : World) :
  yields (retarget f i m)
    (fun m' w' => same_env w w'
                  /\ steered (tape (rng w)) (limXVal f) (limYVal f) m m'
                  /\ kin m' = kin m /\ beh m' = beh m) w.
Proof.
  unfold retarget. repeat ystep.
  match goal with
  | H : chooseNewAnchorTarget ?c ?h ?ms ?i ?m ?t ?lx ?ly ?tg ?g = (?a, _) |- _ =>
      pose proof (chooseNewAnchorTarget_spec c h ms i m t lx ly tg g) as Hs;
      rewrite H in Hs
  end.
  cbv zeta in Hs. cbn [fst] in Hs. destruct Hs as (Hx & Hy & Hh & Ht).
  split; [| split; [| split; reflexivity]].
  - constructor; world_simpl; try reflexivity; try congruence; try exact Hh.
  - constructor; cbn; try assumption; try reflexivity.
    intros Htp HX HY _. apply Ht; assumption.
Qed.

Lemma retargetPhase_spec (f : Frame) (i : nat) (m : Mover) (w : World) :
  yields (retargetPhase f i m)
    (fun m' w' => same_env w w'
                  /\ steered (tape (rng w)) (limXVal f) (limYVal f) m m'
                  /\ kin m' = kin m /\ beh m' = beh m) w.
Proof.
  unfold retargetPhase. destruct (Rle_b _ _); [apply retarget_spec |].
  ystep. split; [auto |]. split; [apply steered_refl | split; reflexivity].
Qed.

Lemma episodePhase_spec (f : Frame) (i : nat) (m : Mover) (w : World) :
  yields (episodePhase f i m)
    (fun m' w' => same_env w w'
                  /\ steered (tape (rng w)) (limXVal f) (limYVal f) m m'
                  /\ kin m' = kin m
                  /\ (~ episodeExpires (beh m) < tNow f -> anchor m' = anchor m)) w.
Proof.
  unfold episodePhase. destruct (Rlt_b_spec (episodeExpires (beh m)) (tNow f)) as [He | He].
  - repeat ystep.
    eapply yields_weaken; [| apply retarget_spec].
    intros m1 w1 (Henv & Hst & Hkin & Hbeh). cbv beta.
    ystep.
    match goal with
    | H : chooseNewMicro ?m0 ?t ?g = (?a, _) |- _ =>
        pose proof (chooseNewMicro_kept m0 t g) as Hk; rewrite H in Hk
    end.
    cbn [fst] in Hk. world_simpl.
    split; [| split; [| split]].
    + destruct Henv. world_simpl.
      constructor; world_simpl; try congruence; auto.
    + eapply steered_trans; [| apply kept_steered; exact Hk].
      match type of Hst with
      | steered (tape ?g1) _ _ _ _ =>
          replace (tape g1) with (tape (rng w)) in Hst by (symmetry; congruence)
      end.
      destruct Hst. constructor; cbn in *; assumption.
    + rewrite (k_kin _ _ Hk), Hkin. reflexivity.
    + intros Hn. contradiction.
  - ystep. split; [auto |]. split; [apply steered_refl |]. split; reflexivity.
Qed.

(** After a re-choice of the anchor target the anchor is on course for
    more than 1400 ms, when the tape is a tape of [Math.random()]
    results. *)
Lemma retarget_course (f : Frame) (i : nat) (m : Mover) (w : World) :
  yields (retarget f i m)
    (fun m' _ => tape_ok (rng w) ->
                 exists dur, 1400 < dur /\ on_course dur (anchor m')) w.
Proof.
  unfold retarget. repeat ystep. intros Hok.
  match goal with
  | H : chooseNewAnchorTarget ?c ?h ?ms ?i ?m ?t ?lx ?ly ?tg ?g = (?a, _) |- _ =>
      pose proof (chooseNewAnchorTarget_course c h ms i m t lx ly tg g Hok) as Hs;
      rewrite H in Hs
  end.
  exact Hs.
Qed.

Lemma episodePhase_course (f : Frame) (i : nat) (m : Mover) (w : World) :
  yields (episodePhase f i m)
    (fun m' _ => episodeExpires (beh m) < tNow f -> tape_ok (rng w) ->
                 exists dur, 1400 < dur /\ on_course dur (anchor m')) w.
Proof.
  unfold episodePhase. destruct (Rlt_b_spec (episodeExpires (beh m)) (tNow f)) as [He | He].
  - repeat ystep.
    eapply yields_weaken; [| apply retarget_course].
    intros m1 w1 Hc. cbv beta. ystep. intros _ Hok.
    match goal with
    | H : chooseNewMicro ?m0 ?t ?g = (?a, _) |- _ =>
        pose proof (chooseNewMicro_kept m0 t g) as Hk; rewrite H in Hk
    end.
    cbn [fst] in Hk. rewrite (k_anchor _ _ Hk). apply Hc.
    world_simpl. eapply tape_ok_eq; [| exact Hok]. congruence.
  - ystep. intros Hn. contradiction.
Qed.

Lemma hurryAnchor_spec (tNow threat : R) (e : Episode) (a : Anchor) :
  anchorPosSx (hurryAnchor tNow threat e a) = anchorPosSx a
  /\ anchorPosSy (hurryAnchor tNow threat e a) = anchorPosSy a
  /\ anchorTargetSx (hurryAnchor tNow threat e a) = anchorTargetSx a
  /\ anchorTargetSy (hurryAnchor tNow threat e a) = anchorTargetSy a.
Proof. unfold hurryAnchor. cbv zeta. destruct (Rlt_b _ _); repeat split; reflexivity. Qed.

(** What one frame does to a live mover. *)
Record lived (f : Frame) (tp : nat -> R) (m m' : Mover) : Prop := {
  lv_combat : combat m' = combat (healPhase (tNow f) m);
  lv_target : (forall n, 0 <= tp n < 1) -> 0 <= limXVal f -> 0 <= limYVal f ->
              target_in (limXVal f) (limYVal f) (anchor m) ->
              target_in (limXVal f) (limYVal f) (anchor m');
  lv_pos : ~ episodeExpires (beh m) < tNow f ->
           anchorPosSx (anchor m')
           = anchorPosSx (anchor m) + anchorVelSx (anchor m) * dtMs f
           /\ anchorPosSy (anchor m')
              = anchorPosSy (anchor m) + anchorVelSy (anchor m) * dtMs f;
  lv_reaimed : episodeExpires (beh m) < tNow f ->
               (forall n, 0 <= tp n < 1) -> 0 <= limXVal f -> 0 <= limYVal f ->
               target_in (limXVal f) (limYVal f) (anchor m) ->
               exists rho a1,
                 1400 < rho /\ on_course rho a1
                 /\ target_in (limXVal f) (limYVal f) a1
                 /\ anchorPosSx a1 = anchorPosSx (anchor m)
                 /\ anchorPosSy a1 = anchorPosSy (anchor m)
                 /\ anchorPosSx (anchor m') = anchorPosSx a1 + anchorVelSx a1 * dtMs f
                 /\ anchorPosSy (anchor m') = anchorPosSy a1 + anchorVelSy a1 * dtMs f
}.

Ltac yphase lem :=
  apply yields_bind; eapply yields_weaken; [| apply lem]; cbv beta.

Lemma healPhase_rest (tNow : R) (m : Mover) :
  anchor (healPhase tNow m) = anchor m /\ beh (healPhase tNow m) = beh m
  /\ kin (healPhase tNow m) = kin m.
Proof. unfold healPhase. cbv zeta. destruct (heals _ _); repeat split; reflexivity. Qed.

Lemma updateLive_spec (f : Frame) (i : nat) (m : Mover) (w : World) :
  yields (updateLive f i m)
    (fun m' w' => same_env w w' /\ lived f (tape (rng w)) m m') w.
Proof.
  unfold updateLive.
  destruct (healPhase_rest (tNow f) m) as (Ha0 & Hb0 & _).
  yphase rolePhase_spec. intros m1 w1 [E1 K1].
  apply yields_bind; eapply yields_weaken;
    [| apply yields_conj; [apply episodePhase_spec | apply episodePhase_course]];
    cbv beta.
  intros m2 w2 ((E2 & S2 & _ & A2) & C2).
  yphase retargetPhase_spec. intros m4 w4 (E4 & S4 & _ & B4).
  yphase microPhase_spec. intros m5 w5 [E5 K5].
  do 4 ystep.
  set (threatAlpha := threatOf _ _ _).
  pose proof (modulatePhase_kept (tNow f) threatAlpha m5) as K6.
  set (m6 := modulatePhase (tNow f) threatAlpha m5) in *.
  pose proof (hurryAnchor_spec (tNow f) threatAlpha (episode (beh m6)) (anchor m6))
    as (H7x & H7y & H7tx & H7ty).
  set (a7 := hurryAnchor (tNow f) threatAlpha (episode (beh m6)) (anchor m6)) in *.
  ystep. ystep.
  match goal with
  | H : feintPhase ?t ?th ?m0 ?g = (?a, _) |- _ =>
      pose proof (feintPhase_kept t th m0 g) as K8; rewrite H in K8; cbn [fst] in K8
  end.
  match goal with
  | |- context [computeMicroOffset ?c ?m9 ?t ?lx ?ly] =>
      pose proof (computeMicroOffset_kept c m9 t lx ly) as K10;
      set (om := computeMicroOffset c m9 t lx ly) in *
  end.
  repeat ystep. world_simpl.
  assert (Etp : forall w', same_env w w' -> tape (rng w') = tape (rng w))
    by (intros w' []; assumption).
  assert (E12 : same_env w w2) by (eapply same_env_trans; eassumption).
  assert (E14 : same_env w w4) by (eapply same_env_trans; eassumption).
  assert (E15 : same_env w w5) by (eapply same_env_trans; eassumption).
  rewrite (Etp _ E1) in S2. rewrite (Etp _ E12) in S4.
  split.
  - destruct E15. constructor; world_simpl; first [congruence | auto].
  - assert (C : combat (snd om) = combat (healPhase (tNow f) m)
               /\ anchor (snd om) = a7).
    { destruct K1, S2, S4, K5, K6, K8, K10. cbn in *. split; congruence. }
    destruct C as [Cc Ca].
    assert (A67 : anchor m6 = anchor m4) by (destruct K5, K6; congruence).
    constructor; cbn [combat anchor set_kin].
    + exact Cc.
    + intros Htp HX HY Hin. rewrite Ca.
      unfold target_in. rewrite H7tx, H7ty. rewrite A67.
      apply (st_target _ _ _ _ _ S4 Htp HX HY). cbn [anchor set_anchor].
      unfold target_in. cbn [advanceAnchor anchorTargetSx anchorTargetSy].
      apply (st_target _ _ _ _ _ S2 Htp HX HY).
      rewrite (k_anchor _ _ K1). rewrite Ha0. exact Hin.
    + intros Hne. rewrite Ca.
      rewrite H7x, H7y, A67.
      rewrite (st_posx _ _ _ _ _ S4), (st_posy _ _ _ _ _ S4).
      cbn [anchor set_anchor advanceAnchor anchorPosSx anchorPosSy].
      rewrite A2; [| rewrite (k_episodeExpires _ _ K1); rewrite Hb0; exact Hne].
      rewrite (k_anchor _ _ K1). rewrite Ha0. split; reflexivity.
    + intros Hex Htp HX HY Hin.
      destruct C2 as (rho & Hrho & Hoc).
      { rewrite (k_episodeExpires _ _ K1), Hb0. exact Hex. }
      { intros n. rewrite (Etp _ E1). apply Htp. }
      exists rho, (anchor m2). split; [exact Hrho |]. split; [exact Hoc |].
      split.
      { apply (st_target _ _ _ _ _ S2 Htp HX HY).
        rewrite (k_anchor _ _ K1), Ha0. exact Hin. }
      split; [rewrite (st_posx _ _ _ _ _ S2), (k_anchor _ _ K1), Ha0; reflexivity |].
      split; [rewrite (st_posy _ _ _ _ _ S2), (k_anchor _ _ K1), Ha0; reflexivity |].
      rewrite Ca, H7x, H7y, A67.
      rewrite (st_posx _ _ _ _ _ S4), (st_posy _ _ _ _ _ S4).
      cbn [anchor set_anchor advanceAnchor anchorPosSx anchorPosSy].
      split; reflexivity.
Qed.

(** ** The loop over the movers *)

(** What the loop leaves alone: it writes the movers in place (the
    array keeps its length), the pools, the heat map and the position on
    the tape. *)
Record same_frame (w w' : World) : Prop := {
  sf_cfg : cfg w' = cfg w;
  sf_canvas : canvas w' = canvas w;
  sf_rollAngle : rollAngle w' = rollAngle w;
  sf_player : player w' = player w;
  sf_targets : targets w' = targets w;
  sf_clock : clock w' = clock w;
  sf_tape : tape (rng w') = tape (rng w);
  sf_heat : raised (heatMap w) (heatMap w');
  sf_length : length (movers w') = length (movers w)
}.

Lemma same_frame_refl w : same_frame w w.
Proof. constructor; auto. Qed.

Lemma same_frame_trans w1 w2 w3 : same_frame w1 w2 -> same_frame w2 w3 -> same_frame w1 w3.
Proof. intros [] []. constructor; try congruence. eapply raised_trans; eassumption. Qed.

(** The mover found at an index after the frame, from the mover [m]
    found there before it: a dead mover is skipped. *)
Definition stepped (f : Frame) (tp : nat -> R) (m : Mover) (r : option Mover) : Prop :=
  if dead (combat m) then r = Some m
  else exists m', r = Some m' /\ lived f tp m m'.

Lemma updateMover_spec (f : Frame) (i : nat) (w : World) :
  yields (updateMover f i)
    (fun _ w' => same_frame w w'
                 /\ (forall j, j <> i -> movers w' !! j = movers w !! j)
                 /\ (forall m, movers w !! i = Some m ->
                               stepped f (tape (rng w)) m (movers w' !! i))) w.
Proof.
  unfold updateMover. do 2 ystep.
  destruct (movers w !! i) as [m |] eqn:Hm.
  - unfold stepped. destruct (dead (combat m)) eqn:Hd.
    + ystep. split; [apply same_frame_refl |]. split; [reflexivity |].
      intros m0 [= <-]. rewrite Hd. exact Hm.
    + yphase updateLive_spec. intros m' w1 [E L]. ystep.
      pose proof E as [].
      split; [| split].
      * constructor; world_simpl; try congruence; auto.
        rewrite length_insert. congruence.
      * intros j Hj. rewrite list_lookup_insert_ne by congruence. congruence.
      * intros m0 [= <-]. rewrite Hd. exists m'. split; [| exact L].
        apply list_lookup_insert_eq. rewrite se_movers0.
        eapply lookup_lt_Some; eassumption.
  - ystep. split; [apply same_frame_refl |]. split; [reflexivity |]. discriminate.
Qed.

(** The loop of [updateMovers] over a list of distinct indices. *)
Lemma update_loop_spec (f : Frame) (l : list nat) (w : World) :
  NoDup l ->
  returns (jforM l (fun i w => let (_, w') := updateMover f i w in (Val tt, w')))
    (fun _ w' => same_frame w w'
                 /\ (forall j, j ∉ l -> movers w' !! j = movers w !! j)
                 /\ (forall j m, j ∈ l -> movers w !! j = Some m ->
                                 stepped f (tape (rng w)) m (movers w' !! j))) w.
Proof.
  revert w. induction l as [| i l IH]; intros w Hnd; simpl.
  - apply returns_ret. split; [apply same_frame_refl |]. split; [reflexivity |].
    intros j m Hj. inversion Hj.
  - apply NoDup_cons in Hnd as [Hi Hnd].
    apply returns_bind. unfold returns at 1. cbv beta.
    pose proof (updateMover_spec f i w) as Hu. unfold yields in Hu.
    destruct (updateMover f i w) as [u w1]. cbn [fst snd] in Hu.
    destruct Hu as (F1 & Hother & Hthis).
    exists tt, w1. split; [reflexivity |].
    eapply returns_weaken; [| apply (IH w1 Hnd)].
    intros [] w' (F2 & Hout & Hin). cbv beta.
    split; [eapply same_frame_trans; eassumption |]. split.
    + intros j Hj. rewrite not_elem_of_cons in Hj. destruct Hj as [Hji Hjl].
      rewrite Hout by assumption. apply Hother. assumption.
    + intros j m Hj Hm. apply elem_of_cons in Hj as [-> | Hj].
      * rewrite Hout by assumption. apply Hthis. assumption.
      * assert (Hji : j <> i) by (intros ->; contradiction).
        rewrite <- (sf_tape _ _ F1). apply Hin; [assumption |].
        rewrite Hother by assumption. assumption.
Qed.

(** ** The frame as a whole *)

(** The collection already has the configured size, which is not zero:
    [ensureMoversCount] has nothing to spawn or to remove. *)
Definition reconciled (w : World) : Prop :=
  moversEnabled (cfg w) = true
  /\ (0 < length (movers w))%nat
  /\ Z.of_nat (length (movers w)) = clampZ (toInt32 (moversCount (cfg w))) 0 5.

Lemma set_movers_same (w : World) : set_movers (movers w) w = w.
Proof. destruct w; reflexivity. Qed.

Lemma ensureMoversCount_reconciled (w : World) :
  reconciled w ->
  ensureMoversCount w
  = (Val tt, set_cfg (set_moversCount (clampZ (toInt32 (moversCount (cfg w))) 0 5) (cfg w)) w).
Proof.
  intros (He & Hpos & Hlen).
  unfold ensureMoversCount. unfold jbind at 1. unfold get at 1. cbv beta iota zeta.
  rewrite He. unfold jbind at 1. unfold modify at 1. cbv beta iota.
  assert (Hz : (clampZ (toInt32 (moversCount (cfg w))) 0 5 =? 0)%Z = false).
  { apply Z.eqb_neq. lia. }
  rewrite Hz. unfold jbind at 1. unfold get at 1. cbv beta iota.
  unfold jbind at 1. world_goal.
  replace (Z.to_nat (clampZ (toInt32 (moversCount (cfg w))) 0 5) - length (movers w))%nat
    with 0%nat by lia.
  cbn [pushSpawned]. unfold jret, modify. world_goal.
  rewrite take_ge by lia.
  rewrite <- (set_movers_same (set_cfg _ w)) at 2. reflexivity.
Qed.

(** Every live mover warms the cell of its anchor. *)
Lemma warmAnchors_raised (limX limY : R) (ms : list Mover) (h : HeatMap) :
  raised h (warmAnchors limX limY ms h).
Proof.
  unfold warmAnchors. revert h. induction ms as [| mv ms IH]; intros h; simpl.
  - apply raised_refl.
  - eapply raised_trans; [| apply IH].
    destruct (dead (combat mv)); [apply raised_refl |].
    apply raised_add. unfold HEATMAP_INCREMENT. lra.
Qed.

Lemma warmAnchors_nonneg (limX limY : R) (ms : list Mover) (h : HeatMap) :
  heat_nonneg h -> heat_nonneg (warmAnchors limX limY ms h).
Proof. apply raised_nonneg, warmAnchors_raised. Qed.

(** What a frame gives from a world with movers enabled, at least one
    mover and a canvas. *)
Lemma updateFrame_spec (dtN playerSpeed : R) (w : World) (c : Canvas) :
  moversEnabled (cfg w) = true -> (0 < length (movers w))%nat -> canvas w = Some c ->
  returns (updateFrame dtN playerSpeed)
    (fun _ w' =>
       exists f,
         tNow f = clock w
         /\ limXVal f = width c / 2 - MARGIN /\ limYVal f = height c / 2 - MARGIN
         /\ dtMs f = dtN * 16.6667
         /\ same_frame (set_heatMap
                          (warmAnchors (limXVal f) (limYVal f) (movers w)
                             (decayHeatMap (heatMap w))) w) w'
         /\ (forall j m, movers w !! j = Some m ->
                         stepped f (tape (rng w)) m (movers w' !! j))) w.
Proof.
  intros He Hpos Hc. unfold updateFrame. do 4 jstep. rewrite He.
  replace (length (movers w) =? 0)%nat with false by (symmetry; apply Nat.eqb_neq; lia).
  cbn [negb orb]. do 3 jstep. eapply returns_arenaLimits; [exact Hc |].
  do 10 jstep.
  match goal with
  | |- returns (jforM _ (fun i w => let (_, w') := updateMover ?f i w in _)) _ _ =>
      set (fr := f)
  end.
  eapply returns_weaken; [| apply update_loop_spec; apply NoDup_seq].
  intros [] w' (F & Hout & Hin). cbv beta. world_simpl.
  exists fr. repeat (split; [reflexivity |]).
  split; [exact F |].
  intros j m Hm. apply Hin; [| exact Hm].
  apply elem_of_seq. apply lookup_lt_Some in Hm. lia.
Qed.

(** When the frame does not run its loop (movers disabled, no mover, or
    no canvas) it leaves the world as it is. *)
Lemma updateFrame_cases (dtN playerSpeed : R) (w : World) :
  snd (updateFrame dtN playerSpeed w) = w
  \/ exists c, moversEnabled (cfg w) = true /\ (0 < length (movers w))%nat
               /\ canvas w = Some c.
Proof.
  destruct (moversEnabled (cfg w)) eqn:He.
  - destruct (length (movers w)) as [| n] eqn:Hl.
    + left. unfold updateFrame, jbind, get. cbn. rewrite He, Hl. reflexivity.
    + destruct (canvas w) as [c |] eqn:Hc.
      * right. exists c. repeat split; lia.
      * left. unfold updateFrame. unfold jbind at 1 2. unfold get at 1 2. cbv beta iota.
        rewrite He, Hl. cbn [negb orb Nat.eqb].
        unfold jbind at 1. unfold nowMs, get at 1. cbv beta iota.
        unfold jbind at 1. unfold arenaLimits. rewrite Hc. reflexivity.
  - left. unfold updateFrame, jbind, get. cbn. rewrite He. reflexivity.
Qed.

(** [spawnMoverInWindow] never touches the movers, the heat map, the
    canvas or the configuration. *)
Lemma spawnMoverInWindow_frame (w : World) :
  movers (snd (spawnMoverInWindow w)) = movers w
  /\ heatMap (snd (spawnMoverInWindow w)) = heatMap w
  /\ canvas (snd (spawnMoverInWindow w)) = canvas w
  /\ cfg (snd (spawnMoverInWindow w)) = cfg w.
Proof.
  destruct (canvas w) as [c |] eqn:Hc.
  - destruct (spawnMoverInWindow_spec w c Hc) as (nm & w1 & -> & Hsp).
    cbn [snd]. destruct (sp_base _ _ _ Hsp).
    repeat split; try congruence. apply (sp_movers _ _ _ Hsp).
  - rewrite spawnMoverInWindow_null_canvas by assumption. cbn [snd].
    repeat split; assumption.
Qed.

(** [pushSpawned] only appends to the collection. *)
Lemma pushSpawned_frame (k : nat) (w : World) :
  (exists extra, movers (snd (pushSpawned k w)) = movers w ++ extra)
  /\ heatMap (snd (pushSpawned k w)) = heatMap w
  /\ cfg (snd (pushSpawned k w)) = cfg w.
Proof.
  revert w. induction k as [| k IH]; intros w.
  - split; [exists []; rewrite app_nil_r; reflexivity |]. split; reflexivity.
  - assert (E : pushSpawned (S k) w
                = match spawnMoverInWindow w with
                  | (Val nm, w1) => pushSpawned k (set_movers (movers w1 ++ [nm]) w1)
                  | (Throw, w1) => (Throw, w1)
                  end).
    { cbn [pushSpawned]. unfold jbind at 1.
      destruct (spawnMoverInWindow w) as [[nm |] w1]; reflexivity. }
    rewrite E. clear E.
    destruct (spawnMoverInWindow_frame w) as (Hm & Hh & _ & Hcfg).
    destruct (spawnMoverInWindow w) as [[nm |] w1]; cbn [snd] in *.
    + destruct (IH (set_movers (movers w1 ++ [nm]) w1)) as ((extra & He) & Hh' & Hc').
      world_simpl. split; [| split; congruence].
      exists (nm :: extra). rewrite He, Hm, <- app_assoc. reflexivity.
    + split; [exists []; rewrite app_nil_r; assumption |]. split; assumption.
Qed.

Lemma ensureMoversCount_run (w : World) :
  ensureMoversCount w
  = let n := if moversEnabled (cfg w) then clampZ (toInt32 (moversCount (cfg w))) 0 5 else 0%Z in
    let w0 := set_cfg (set_moversCount n (cfg w)) w in
    if (n =? 0)%Z then (Val tt, set_movers [] w0)
    else match pushSpawned (Z.to_nat n - length (movers w0)) w0 with
         | (Val _, w1) => (Val tt, set_movers (take (Z.to_nat n) (movers w1)) w1)
         | (Throw, w1) => (Throw, w1)
         end.
Proof.
  unfold ensureMoversCount. unfold jbind at 1. unfold get at 1. cbv beta iota zeta.
  unfold jbind at 1. unfold modify at 1. cbv beta iota.
  destruct (_ =? 0)%Z; [reflexivity |].
  unfold jbind at 1. unfold get at 1. cbv beta iota. unfold jbind at 1.
  destruct (pushSpawned _ _) as [[u |] w1]; reflexivity.
Qed.

(** [ensureMoversCount] keeps the heat map, and keeps or removes the
    mover found at an index. *)
Lemma ensureMoversCount_frame (w : World) :
  heatMap (snd (ensureMoversCount w)) = heatMap w
  /\ (forall i m, movers w !! i = Some m ->
                  movers (snd (ensureMoversCount w)) !! i = Some m
                  \/ movers (snd (ensureMoversCount w)) !! i = None).
Proof.
  rewrite ensureMoversCount_run. cbv zeta.
  set (n := if moversEnabled (cfg w) then clampZ (toInt32 (moversCount (cfg w))) 0 5 else 0%Z).
  set (w0 := set_cfg (set_moversCount n (cfg w)) w).
  destruct (n =? 0)%Z.
  - cbn. split; [reflexivity |]. intros i m _. right. reflexivity.
  - destruct (pushSpawned_frame (Z.to_nat n - length (movers w0)) w0)
      as ((extra & Hm) & Hh & _).
    destruct (pushSpawned _ w0) as [[u |] w1]; cbn [snd] in *.
    + world_goal. split; [exact Hh |].
      intros i m Hi. rewrite Hm.
      destruct (decide (i < Z.to_nat n)%nat) as [Hlt | Hge].
      * left. rewrite lookup_take_lt by assumption.
        rewrite lookup_app_l by (eapply lookup_lt_Some; exact Hi). exact Hi.
      * right. apply lookup_take_ge. lia.
    + split; [exact Hh |]. intros i m Hi. left. rewrite Hm.
      rewrite lookup_app_l by (eapply lookup_lt_Some; exact Hi). exact Hi.
Qed.

Lemma updateMovers_run (dtN playerSpeed : R) (w : World) :
  updateMovers dtN playerSpeed w
  = match ensureMoversCount w with
    | (Val _, w1) => updateFrame dtN playerSpeed w1
    | (Throw, w1) => (Throw, w1)
    end.
Proof.
  unfold updateMovers. unfold jbind at 1.
  destruct (ensureMoversCount w) as [[u |] w1]; reflexivity.
Qed.

(** A frame keeps every cell of the heat map non-negative. *)
Lemma updateMovers_heat_nonneg (dtN playerSpeed : R) (w : World) :
  heat_nonneg (heatMap w) -> heat_nonneg (heatMap (snd (updateMovers dtN playerSpeed w))).
Proof.
  intros Hh. rewrite updateMovers_run.
  destruct (ensureMoversCount_frame w) as [Hh1 _].
  destruct (ensureMoversCount w) as [[u |] w1]; cbn [snd] in *;
    [| rewrite Hh1; exact Hh].
  destruct (updateFrame_cases dtN playerSpeed w1) as [-> | (c & He & Hpos & Hc)];
    [rewrite Hh1; exact Hh |].
  destruct (updateFrame_spec dtN playerSpeed w1 c He Hpos Hc)
    as ([] & w' & -> & f & _ & _ & _ & _ & F & _).
  cbn [snd]. apply (raised_nonneg _ _ (sf_heat _ _ F)). world_goal.
  apply warmAnchors_nonneg, decayHeatMap_nonneg. rewrite Hh1. exact Hh.
Qed.

(** A frame neither revives nor changes a dead mover: the mover stays
    at its index, unless the collection was shortened below it. *)
Lemma updateMovers_keeps_dead (dtN playerSpeed : R) (w : World) (i : nat) (m : Mover) :
  movers w !! i = Some m -> dead (combat m) = true ->
  movers (snd (updateMovers dtN playerSpeed w)) !! i = Some m
  \/ movers (snd (updateMovers dtN playerSpeed w)) !! i = None.
Proof.
  intros Hm Hd. rewrite updateMovers_run.
  destruct (ensureMoversCount_frame w) as [_ Hk]. specialize (Hk i m Hm).
  destruct (ensureMoversCount w) as [[u |] w1]; cbn [snd] in *; [| exact Hk].
  destruct (updateFrame_cases dtN playerSpeed w1) as [-> | (c & He & Hpos & Hc)];
    [exact Hk |].
  destruct (updateFrame_spec dtN playerSpeed w1 c He Hpos Hc)
    as ([] & w' & -> & f & _ & _ & _ & _ & F & Hst).
  cbn [snd]. destruct Hk as [Hk | Hk].
  - left. specialize (Hst i m Hk). unfold stepped in Hst. rewrite Hd in Hst. exact Hst.
  - right. apply lookup_ge_None. rewrite (sf_length _ _ F). world_goal.
    apply lookup_ge_None. exact Hk.
Qed.

(** A frame from a reconciled world with a canvas: the world after
    [ensureMoversCount] differs in [CFG.moversCount] only. *)
Lemma updateMovers_spec (dtN playerSpeed : R) (w : World) (c : Canvas) :
  reconciled w -> canvas w = Some c ->
  returns (updateMovers dtN playerSpeed)
    (fun _ w' =>
       exists f,
         tNow f = clock w
         /\ limXVal f = width c / 2 - MARGIN /\ limYVal f = height c / 2 - MARGIN
         /\ dtMs f = dtN * 16.6667
         /\ length (movers w') = length (movers w)
         /\ (forall j m, movers w !! j = Some m ->
                         stepped f (tape (rng w)) m (movers w' !! j))) w.
Proof.
  intros Hr Hc. pose proof Hr as (He & Hpos & Hlen).
  unfold returns. rewrite updateMovers_run, (ensureMoversCount_reconciled w Hr).
  set (w0 := set_cfg _ w).
  destruct (updateFrame_spec dtN playerSpeed w0 c) as ([] & w' & Hrun & f & H1 & H2 & H3 & H4 & F & Hst);
    [exact He | exact Hpos | exact Hc |].
  exists tt, w'. split; [exact Hrun |].
  exists f. repeat (split; [assumption |]).
  split; [| exact Hst].
  rewrite (sf_length _ _ F). reflexivity.
Qed.

(** ** Sample movers and worlds *)

Definition sampleMover (k : Combat) (a : Anchor) : Mover :=
  {| kin := {| m_x := 0; m_y := 0; m_vx := 1; m_vy := 0; m_r := 14 |};
     combat := k;
     legacy := {| originX := 0; originY := 0; t0 := 0; pattern := 0%nat;
                  nextPatternSwitch := 0; anchorSx := 0; anchorSy := 0;
                  anchorExpires := 0 |};
     anchor := a;
     micro := {| microPattern := figure8; microType := type_figure8; microTier := TierS;
                 microTierIndex := 0%nat; microStart := 0; microDuration := 3000;
                 microBlendStart := 0; microNextSwitch := 3000;
                 prevOffset := {| vx := 0; vy := 0 |}; microGain := 1;
                 nonFigureCount := 0%nat |};
     modul := {| p1 := 0; p2 := 0; wCurrent := 1.5; frameAngle := 0; frameRate := 0.0005;
                 amPhase := 0; fmPhase := 0; microGainEff := None;
                 phaseFlipUntil := None; zigZagUntil := None |};
     beh := {| role := Runner; roleExpires := 1000000;
               episode := Explore; episodeExpires := 1000000; fleeSide := 1 |};
     dna := {| wBase := 1.5; microGainMin := 0.8; microGainMax := 1.5;
               feintChance := 0.2 |} |}.

(** A mover with [n] hits, the last one at time [t]. *)
Definition hitCombat (n : nat) (t : R) : Combat :=
  {| hitUntil := 0; hits := n; escapeBoost := escapeBoostFor defaultConfig n;
     lastHitTime := t; dead := false; deadStart := 0 |}.

(** One mover under the crosshair, in a 1280 x 720 canvas, at time [t]. *)
Definition sampleWorld (regen : bool) (t : R) (m : Mover) : World :=
  {| cfg := {| regenOnHit := regen; moversEnabled := true; moversCount := 1;
               moversSpeed := 1.00; moversAvoid := 1.00; moversR := 14;
               moversFlee := false; moversHit1Boost := 0.40; moversHit2Boost := 0.60 |};
     canvas := Some {| width := 1280; height := 720 |};
     rollAngle := 0;
     player := {| p_x := 0; p_y := 0 |};
     targets := [];
     movers := [m];
     heatMap := heatMap_init;
     roleCounts := [(Runner, 1%nat); (Dancer, 0%nat); (Trickster, 0%nat); (Kiter, 0%nat)];
     episodeCounts := [(Explore, 1%nat); (Perform, 0%nat); (Evade, 0%nat); (Kite, 0%nat)];
     clock := t;
     rng := zeroRng;
     crosshairFlashUntil := 0; missFlashUntil := 0; lastSuccessAt := 0 |}.

Lemma sampleWorld_reconciled regen t m : reconciled (sampleWorld regen t m).
Proof. repeat split. simpl. lia. Qed.

Lemma zeroRng_ok : tape_ok zeroRng.
Proof. intros n. simpl. lra. Qed.

Lemma sampleWorld_hit regen t k a :
  dead k = false -> hitTestMovers (sampleWorld regen t (sampleMover k a)) = Z.of_nat 0.
Proof.
  intros Hd. unfold hitTestMovers. cbn. rewrite Hd.
  rewrite Rlt_b_true; [reflexivity |].
  unfold hypot. replace ((0 - 0) * (0 - 0) + (0 - 0) * (0 - 0)) with 0 by lra.
  rewrite sqrt_0. lra.
Qed.

(** The sample world with movers switched off in the configuration. *)
Definition disabledWorld : World :=
  let w := sampleWorld true 1000 (sampleMover (hitCombat 1 900) (fresh_anchor 0)) in
  set_cfg {| regenOnHit := true; moversEnabled := false; moversCount := 1;
             moversSpeed := 1.00; moversAvoid := 1.00; moversR := 14;
             moversFlee := false; moversHit1Boost := 0.40; moversHit2Boost := 0.60 |} w.

Lemma updateMovers_disabled_empties_witness :
  length (movers disabledWorld) = 1%nat
  /\ exists w', updateMovers 1 0 disabledWorld = (Val tt, w')
                /\ movers w' = [] /\ length (movers w') = 0%nat.
Proof.
  split; [reflexivity |].
  apply (updateMovers_disabled_empties 1 0 disabledWorld). reflexivity.
Defined.

(** ** Dead movers and [respawnAllMovers] *)

Lemma hitTestFrom_live (pl : Player) (ms : list Mover) (k j : nat) :
  hitTestFrom pl ms k = Z.of_nat j ->
  (k <= j)%nat /\ exists m, ms !! (j - k)%nat = Some m /\ dead (combat m) = false.
Proof.
  revert k. induction ms as [| m ms IH]; intros k H; cbn [hitTestFrom] in H; [lia |].
  assert (Hrec : hitTestFrom pl ms (S k) = Z.of_nat j ->
                 (k <= j)%nat
                 /\ exists m', (m :: ms) !! (j - k)%nat = Some m' /\ dead (combat m') = false).
  { intros H'. destruct (IH _ H') as (Hle & m' & Hm' & Hd'). split; [lia |].
    exists m'. replace (j - k)%nat with (S (j - S k)) by lia. split; assumption. }
  destruct (dead (combat m)) eqn:Hd; [exact (Hrec H) |].
  destruct (Rlt_b _ _); [| exact (Hrec H)].
  apply Nat2Z.inj in H. subst j. split; [lia |].
  exists m. rewrite Nat.sub_diag. split; [reflexivity | assumption].
Qed.

Lemma hitTestMovers_live (w : World) (j : nat) :
  hitTestMovers w = Z.of_nat j ->
  exists m, movers w !! j = Some m /\ dead (combat m) = false.
Proof.
  unfold hitTestMovers. destruct (negb _ || _); [lia |].
  intros H. apply hitTestFrom_live in H as (_ & m & Hm & Hd).
  rewrite Nat.sub_0_r in Hm. exists m. split; assumption.
Qed.

(** A mover as [respawnAllMovers] leaves it. *)
Definition pristine (m : Mover) : Prop :=
  dead (combat m) = false /\ hits (combat m) = 0%nat
  /\ escapeBoost (combat m) = 0 /\ lastHitTime (combat m) = 0.

Lemma same_base_set_movers (l : list Mover) (w : World) : same_base w (set_movers l w).
Proof. constructor; reflexivity. Qed.

Lemma pushSpawned_returns (c : Canvas) (k : nat) (w : World) :
  canvas w = Some c ->
  returns (pushSpawned k)
    (fun _ w' => same_base w w'
                 /\ exists extra, movers w' = movers w ++ extra /\ length extra = k) w.
Proof.
  revert w. induction k as [| k IH]; intros w Hc; cbn [pushSpawned].
  - apply returns_ret. split; [apply same_base_refl |].
    exists []. rewrite app_nil_r. split; reflexivity.
  - apply returns_bind.
    eapply returns_weaken; [| apply (spawnMoverInWindow_spec w c Hc)].
    intros nm w1 Hsp. cbv beta. do 2 jstep.
    pose proof (sp_base _ _ _ Hsp) as Hb.
    eapply returns_weaken; [| apply IH; cbn; rewrite (sb_canvas _ _ Hb); exact Hc].
    intros [] w' (Hb' & extra & He & Hl). cbv beta. split.
    + eapply same_base_trans; [exact Hb |].
      eapply same_base_trans; [apply (same_base_set_movers (movers w1 ++ [nm])) | exact Hb'].
    + exists (nm :: extra). split; [| cbn; rewrite Hl; reflexivity].
      rewrite He. cbn. rewrite (sp_movers _ _ _ Hsp), <- app_assoc. reflexivity.
Qed.

(** The number of movers that [ensureMoversCount] aims at. *)
Definition wantedCount (c : Config) : Z :=
  if moversEnabled c then clampZ (toInt32 (moversCount c)) 0 5 else 0%Z.

Lemma wantedCount_nonneg (c : Config) : (0 <= wantedCount c)%Z.
Proof. unfold wantedCount, clampZ. destruct (moversEnabled c); lia. Qed.

(** [| 0] leaves an integer of 32 bits as it is. *)
Lemma toInt32_small (z : Z) : (- 2 ^ 31 <= z < 2 ^ 31)%Z -> toInt32 z = z.
Proof. intros H. unfold toInt32. rewrite Z.mod_small; lia. Qed.

Lemma wantedCount_range (c : Config) : (0 <= wantedCount c <= 5)%Z.
Proof. unfold wantedCount, clampZ. destruct (moversEnabled c); lia. Qed.

(** The count that [ensureMoversCount] stores is the count it aims at
    the next time. *)
Lemma wantedCount_stored (c : Config) :
  wantedCount (set_moversCount (wantedCount c) c) = wantedCount c.
Proof.
  pose proof (wantedCount_range c) as H.
  unfold wantedCount at 1. cbn [moversEnabled moversCount set_moversCount].
  rewrite toInt32_small by lia.
  unfold wantedCount in *. destruct (moversEnabled c); unfold clampZ in *; lia.
Qed.

(** With a canvas, [ensureMoversCount] returns and leaves exactly the
    wanted number of movers. *)
Lemma ensureMoversCount_returns (w : World) (c : Canvas) :
  canvas w = Some c ->
  returns ensureMoversCount
    (fun _ w' => canvas w' = Some c /\ clock w' = clock w
                 /\ Z.of_nat (length (movers w')) = wantedCount (cfg w)) w.
Proof.
  intros Hc. unfold returns. rewrite ensureMoversCount_run. cbv zeta.
  fold (wantedCount (cfg w)). pose proof (wantedCount_nonneg (cfg w)) as Hn.
  set (n := wantedCount (cfg w)) in *.
  destruct (n =? 0)%Z eqn:Hz.
  - exists tt. eexists. split; [reflexivity |]. cbn.
    apply Z.eqb_eq in Hz. repeat split; [assumption | lia].
  - set (w0 := set_cfg (set_moversCount n (cfg w)) w).
    destruct (pushSpawned_returns c (Z.to_nat n - length (movers w0)) w0 Hc)
      as ([] & w1 & -> & Hb & extra & He & Hl).
    exists tt. eexists. split; [reflexivity |]. cbn.
    rewrite (sb_canvas _ _ Hb), (sb_clock _ _ Hb).
    repeat split; [assumption |].
    rewrite length_take, He, length_app, Hl. subst w0. cbn. lia.
Qed.

(** ** A frame with a canvas, whatever the collection *)

Lemma pushSpawned_new (c : Canvas) (k : nat) (w : World) :
  canvas w = Some c ->
  returns (pushSpawned k)
    (fun _ w' => same_base w w'
                 /\ exists extra, movers w' = movers w ++ extra /\ length extra = k
                      /\ Forall (fun nm => combat nm = fresh_combat
                                           /\ anchor nm = fresh_anchor (clock w)) extra) w.
Proof.
  revert w. induction k as [| k IH]; intros w Hc; cbn [pushSpawned].
  - apply returns_ret. split; [apply same_base_refl |].
    exists []. rewrite app_nil_r. repeat split. constructor.
  - apply returns_bind.
    eapply returns_weaken; [| apply (spawnMoverInWindow_spec w c Hc)].
    intros nm w1 Hsp. cbv beta. do 2 jstep.
    pose proof (sp_base _ _ _ Hsp) as Hb.
    eapply returns_weaken; [| apply IH; cbn; rewrite (sb_canvas _ _ Hb); exact Hc].
    intros [] w' (Hb' & extra & He & Hl & Hf). cbv beta. split.
    + eapply same_base_trans; [exact Hb |].
      eapply same_base_trans; [apply (same_base_set_movers (movers w1 ++ [nm])) | exact Hb'].
    + exists (nm :: extra). split; [| split; [cbn; rewrite Hl; reflexivity |]].
      * rewrite He. cbn. rewrite (sp_movers _ _ _ Hsp), <- app_assoc. reflexivity.
      * constructor; [split; [apply (sp_combat _ _ _ Hsp) | apply (sp_anchor _ _ _ Hsp)] |].
        cbn [clock set_movers] in Hf. rewrite (sb_clock _ _ Hb) in Hf. exact Hf.
Qed.

(** What [ensureMoversCount] leaves of the world [w] when there is a
    canvas: the wanted number of movers, those below that number at
    their place and the others fresh from [spawnMoverInWindow]. *)
Record ensured (c : Canvas) (w w1 : World) : Prop := {
  en_canvas : canvas w1 = Some c;
  en_cfg : cfg w1 = set_moversCount (wantedCount (cfg w)) (cfg w);
  en_rollAngle : rollAngle w1 = rollAngle w;
  en_player : player w1 = player w;
  en_targets : targets w1 = targets w;
  en_heatMap : heatMap w1 = heatMap w;
  en_clock : clock w1 = clock w;
  en_tape : tape (rng w1) = tape (rng w);
  en_length : length (movers w1) = Z.to_nat (wantedCount (cfg w));
  en_kept : forall j m, (j < Z.to_nat (wantedCount (cfg w)))%nat ->
                        movers w !! j = Some m -> movers w1 !! j = Some m;
  en_old : forall j m1, movers w1 !! j = Some m1 -> (j < length (movers w))%nat ->
                        movers w !! j = Some m1;
  en_new : forall j m1, (length (movers w) <= j)%nat -> movers w1 !! j = Some m1 ->
                        combat m1 = fresh_combat /\ anchor m1 = fresh_anchor (clock w)
}.

Lemma ensureMoversCount_ensured (w : World) (c : Canvas) :
  canvas w = Some c -> returns ensureMoversCount (fun _ w1 => ensured c w w1) w.
Proof.
  intros Hc. unfold returns. rewrite ensureMoversCount_run. cbv zeta.
  fold (wantedCount (cfg w)). pose proof (wantedCount_nonneg (cfg w)) as Hn.
  set (n := wantedCount (cfg w)) in *.
  destruct (n =? 0)%Z eqn:Hz.
  - exists tt. eexists. split; [reflexivity |].
    apply Z.eqb_eq in Hz.
    constructor; world_goal; try reflexivity; try exact Hc.
    + fold n. rewrite Hz. reflexivity.
    + fold n. intros j m Hj. lia.
    + intros j m1 Hj. rewrite lookup_nil in Hj. discriminate.
    + intros j m1 _ Hj. rewrite lookup_nil in Hj. discriminate.
  - set (w0 := set_cfg (set_moversCount n (cfg w)) w).
    destruct (pushSpawned_new c (Z.to_nat n - length (movers w0)) w0 Hc)
      as ([] & w1 & -> & Hb & extra & He & Hl & Hf).
    exists tt. eexists. split; [reflexivity |].
    destruct Hb. subst w0. world_simpl.
    constructor; world_goal; try assumption; try congruence; fold n.
    + rewrite length_take, He, length_app, Hl. lia.
    + intros j m Hj Hm. rewrite lookup_take_lt by exact Hj. rewrite He.
      apply lookup_app_l_Some. exact Hm.
    + intros j m1 Hj Hlt.
      destruct (decide (j < Z.to_nat n)%nat) as [Hjn | Hjn];
        [| rewrite lookup_take_ge in Hj by lia; discriminate].
      rewrite lookup_take_lt in Hj by exact Hjn. rewrite He in Hj.
      rewrite lookup_app_l in Hj by exact Hlt. exact Hj.
    + intros j m1 Hge Hj.
      destruct (decide (j < Z.to_nat n)%nat) as [Hjn | Hjn];
        [| rewrite lookup_take_ge in Hj by lia; discriminate].
      rewrite lookup_take_lt in Hj by exact Hjn. rewrite He in Hj.
      rewrite lookup_app_r in Hj by exact Hge.
      rewrite Forall_forall in Hf. apply Hf. eapply list_elem_of_lookup_2. exact Hj.
Qed.

(** A call of [updateMovers] with a canvas, from any state: it returns
    normally; after [ensureMoversCount] left the world [w1], it stops
    when no mover is wanted and else steps every mover of [w1]. *)
Lemma updateMovers_frame (dtN playerSpeed : R) (w : World) (c : Canvas) :
  canvas w = Some c ->
  returns (updateMovers dtN playerSpeed)
    (fun _ w' =>
       exists w1,
         ensured c w w1
         /\ ((wantedCount (cfg w) = 0%Z /\ w' = w1)
             \/ (wantedCount (cfg w) <> 0%Z
                 /\ exists f,
                      tNow f = clock w
                      /\ limXVal f = width c / 2 - MARGIN
                      /\ limYVal f = height c / 2 - MARGIN
                      /\ dtMs f = dtN * 16.6667
                      /\ same_frame (set_heatMap
                                       (warmAnchors (limXVal f) (limYVal f) (movers w1)
                                          (decayHeatMap (heatMap w))) w1) w'
                      /\ (forall j m, movers w1 !! j = Some m ->
                                      stepped f (tape (rng w)) m (movers w' !! j))))) w.
Proof.
  intros Hc. unfold returns. rewrite updateMovers_run.
  destruct (ensureMoversCount_ensured w c Hc) as ([] & w1 & -> & En).
  pose proof (wantedCount_range (cfg w)) as Hn.
  destruct (Z.eq_dec (wantedCount (cfg w)) 0%Z) as [Hz | Hnz].
  - exists tt, w1. split.
    + unfold updateFrame. unfold jbind at 1 2. unfold get at 1 2. cbv beta iota.
      pose proof (en_length _ _ _ En) as Hl. rewrite Hz in Hl. cbn in Hl. rewrite Hl.
      cbn [Nat.eqb]. rewrite orb_true_r. reflexivity.
    + exists w1. split; [exact En |]. left. split; [exact Hz | reflexivity].
  - assert (He : moversEnabled (cfg w1) = true).
    { rewrite (en_cfg _ _ _ En). cbn [moversEnabled set_moversCount].
      unfold wantedCount in Hnz. destruct (moversEnabled (cfg w)); [reflexivity | lia]. }
    assert (Hpos : (0 < length (movers w1))%nat) by (rewrite (en_length _ _ _ En); lia).
    destruct (updateFrame_spec dtN playerSpeed w1 c He Hpos (en_canvas _ _ _ En))
      as ([] & w' & Hrun & f & H1 & H2 & H3 & H4 & F & Hst).
    exists tt, w'. split; [exact Hrun |].
    exists w1. split; [exact En |]. right. split; [exact Hnz |].
    exists f. rewrite <- (en_clock _ _ _ En), <- (en_heatMap _ _ _ En), <- (en_tape _ _ _ En).
    repeat (split; [assumption |]). exact Hst.
Qed.

(** ** Hit count and heal (C3) *)

Lemma healPhase_hits (t : R) (m : Mover) :
  (hits (combat (healPhase t m)) <= hits (combat m))%nat.
Proof. unfold healPhase. cbv zeta. destruct (heals _ _); cbn; lia. Qed.

Lemma healPhase_heals (t : R) (m : Mover) :
  (0 < hits (combat m))%nat -> lastHitTime (combat m) <> 0 ->
  HEAL_INTERVAL_MS < t - lastHitTime (combat m) ->
  hits (combat (healPhase t m)) = 0%nat /\ escapeBoost (combat (healPhase t m)) = 0.
Proof.
  intros Hh Hl Ht. unfold healPhase, heals. cbv zeta.
  replace (0 <? hits (combat m))%nat with true by (symmetry; apply Nat.ltb_lt; exact Hh).
  rewrite Req_b_false by assumption. rewrite Rlt_b_true by assumption.
  cbn. split; reflexivity.
Qed.

(** No frame raises the hit count found at an index, whatever the
    state of the canvas, of the configuration and of the collection. *)
Lemma updateMovers_hits_le (dtN playerSpeed : R) (w : World) (i : nat) (m m' : Mover) :
  movers w !! i = Some m ->
  movers (snd (updateMovers dtN playerSpeed w)) !! i = Some m' ->
  (hits (combat m') <= hits (combat m))%nat.
Proof.
  intros Hm. rewrite updateMovers_run.
  destruct (ensureMoversCount_frame w) as [_ Hk]. specialize (Hk i m Hm).
  destruct (ensureMoversCount w) as [[u |] w1]; cbn [snd] in *.
  - destruct (updateFrame_cases dtN playerSpeed w1) as [-> | (c & He & Hpos & Hc)].
    + intros Hm'. destruct Hk as [Hk | Hk]; rewrite Hk in Hm'; [| discriminate].
      injection Hm' as <-. lia.
    + destruct (updateFrame_spec dtN playerSpeed w1 c He Hpos Hc)
        as ([] & w' & -> & f & _ & _ & _ & _ & F & Hst).
      cbn [snd]. intros Hm'. destruct Hk as [Hk | Hk].
      * specialize (Hst i m Hk). unfold stepped in Hst.
        destruct (dead (combat m)).
        -- rewrite Hst in Hm'. injection Hm' as <-. lia.
        -- destruct Hst as (m'' & E & L). rewrite E in Hm'. injection Hm' as <-.
           rewrite (lv_combat _ _ _ _ L). apply healPhase_hits.
      * apply lookup_lt_Some in Hm'. apply lookup_ge_None in Hk.
        rewrite (sf_length _ _ F) in Hm'. cbn [movers set_heatMap] in Hm'. lia.
  - intros Hm'. destruct Hk as [Hk | Hk]; rewrite Hk in Hm'; [| discriminate].
    injection Hm' as <-. lia.
Qed.




(** ** Anchor containment (C5) *)

Lemma Rabs_bounds (x L : R) : Rabs x <= L -> - L <= x <= L.
Proof. unfold Rabs. destruct (Rcase_abs x); lra. Qed.

(** A point that moves towards a target, and not past it, stays within
    the bound that holds at both ends. *)
Lemma between_bounded (p v d rho L : R) :
  Rabs p <= L -> Rabs (p + v * rho) <= L -> 0 <= d <= rho -> Rabs (p + v * d) <= L.
Proof.
  intros Hp Ht [Hd Hr].
  apply Rabs_le. apply Rabs_bounds in Hp. apply Rabs_bounds in Ht.
  destruct (Rle_lt_dec 0 v) as [Hv | Hv].
  - assert (0 <= v * d) by nra. assert (v * d <= v * rho) by nra. lra.
  - assert (v * d <= 0) by nra. assert (v * rho <= v * d) by nra. lra.
Qed.

(** What a frame does to the anchor of a live mover, for an advance of
    at most 1400 ms: the target stays inside the arena; so does the
    position, when the anchor, outside an episode rotation, is on course
    to its target and the advance does not pass it. *)
Lemma lived_contained (f : Frame) (tp : nat -> R) (m m' : Mover) :
  lived f tp m m' -> (forall n, 0 <= tp n < 1) ->
  0 <= limXVal f -> 0 <= limYVal f -> 0 <= dtMs f <= 1400 ->
  target_in (limXVal f) (limYVal f) (anchor m) ->
  target_in (limXVal f) (limYVal f) (anchor m')
  /\ (pos_in (limXVal f) (limYVal f) (anchor m) ->
      (~ episodeExpires (beh m) < tNow f ->
       exists rho, on_course rho (anchor m) /\ dtMs f <= rho) ->
      pos_in (limXVal f) (limYVal f) (anchor m')).
Proof.
  intros L Htp HX HY Hdt Htg.
  split; [apply (lv_target _ _ _ _ L Htp HX HY Htg) |].
  intros [Hpx Hpy] Hcourse. unfold pos_in.
  destruct (Rlt_dec (episodeExpires (beh m)) (tNow f)) as [Hex | Hne].
  - destruct (lv_reaimed _ _ _ _ L Hex Htp HX HY Htg)
      as (rho & a1 & Hrho & [Hcx Hcy] & [Htx Hty] & Ex & Ey & -> & ->).
    split.
    + apply (between_bounded _ _ _ rho); [rewrite Ex; exact Hpx | | lra].
      rewrite <- Hcx. exact Htx.
    + apply (between_bounded _ _ _ rho); [rewrite Ey; exact Hpy | | lra].
      rewrite <- Hcy. exact Hty.
  - destruct (Hcourse Hne) as (rho & [Hcx Hcy] & Hrho).
    destruct (lv_pos _ _ _ _ L Hne) as [Ex Ey]. destruct Htg as [Htx Hty].
    split.
    + rewrite Ex. apply (between_bounded _ _ _ rho); [exact Hpx | | lra].
      rewrite <- Hcx. exact Htx.
    + rewrite Ey. apply (between_bounded _ _ _ rho); [exact Hpy | | lra].
      rewrite <- Hcy. exact Hty.
Qed.


(** An anchor half-way from the centre to the target (100, 50). *)
Definition courseAnchor : Anchor :=
  {| anchorPosSx := 0; anchorPosSy := 0; anchorTargetSx := 100; anchorTargetSy := 50;
     anchorVelSx := 0.05; anchorVelSy := 0.025;
     anchorMoveStart := 0; anchorMoveDuration := 2000; anchorMoveEnd := 2000 |}.


(** An anchor about to reach a target near the right-hand bound. *)
Definition arrivingAnchor : Anchor :=
  {| anchorPosSx := 485.3; anchorPosSy := 0; anchorTargetSx := 490; anchorTargetSy := 0;
     anchorVelSx := 0.3; anchorVelSy := 0;
     anchorMoveStart := 0; anchorMoveDuration := 2000; anchorMoveEnd := 2000 |}.


(** ** Heat decay (C7) *)

(** A call that runs the loop of the frame (canvas there, at least one
    mover wanted) multiplies every cell of the heat map by
    [HEATMAP_DECAY] and then only adds heat. *)
Lemma updateMovers_heat (dtN playerSpeed : R) (w : World) (c : Canvas) :
  canvas w = Some c -> wantedCount (cfg w) <> 0%Z ->
  returns (updateMovers dtN playerSpeed)
    (fun _ w' => raised (decayHeatMap (heatMap w)) (heatMap w')) w.
Proof.
  intros Hc Hnz.
  eapply returns_weaken; [| apply (updateMovers_frame dtN playerSpeed w c Hc)].
  intros [] w' (w1 & En & [[Hz _] | (_ & f & _ & _ & _ & _ & F & _)]); [contradiction |].
  cbv beta. eapply raised_trans; [apply warmAnchors_raised |].
  exact (sf_heat _ _ F).
Qed.

(** A call for which no mover is wanted (movers disabled, or a count of
    0) returns before [decayHeatMap]: the heat map is left as it is. *)
Lemma updateMovers_idle_heat (dtN playerSpeed : R) (w : World) :
  wantedCount (cfg w) = 0%Z ->
  fst (updateMovers dtN playerSpeed w) = Val tt
  /\ heatMap (snd (updateMovers dtN playerSpeed w)) = heatMap w.
Proof.
  intros Hz.
  assert (E : updateMovers dtN playerSpeed w
              = (Val tt, set_movers [] (set_cfg (set_moversCount 0 (cfg w)) w))).
  { rewrite updateMovers_run, ensureMoversCount_run. cbv zeta.
    fold (wantedCount (cfg w)). rewrite Hz. cbn [Z.eqb].
    unfold updateFrame. unfold jbind at 1 2. unfold get at 1 2. cbv beta iota.
    cbn [movers set_movers length Nat.eqb]. rewrite orb_true_r. reflexivity. }
  rewrite E. split; reflexivity.
Qed.

(** The loop of the frame skips the dead movers. *)
Lemma update_loop_dead (f : Frame) (l : list nat) (w : World) :
  (forall j m, movers w !! j = Some m -> dead (combat m) = true) ->
  jforM l (fun i w => let (_, w') := updateMover f i w in (Val tt, w')) w = (Val tt, w).
Proof.
  intros Hall. induction l as [| i l IH]; [reflexivity |].
  cbn [jforM]. unfold jbind at 1.
  assert (E : updateMover f i w = (tt, w)).
  { unfold updateMover, bind, gets. cbn [fst snd].
    destruct (movers w !! i) as [m |] eqn:Hm; [| reflexivity].
    rewrite (Hall i m Hm). reflexivity. }
  rewrite E. exact IH.
Qed.

Lemma warmAnchors_dead (limX limY : R) (ms : list Mover) (h : HeatMap) :
  Forall (fun m => dead (combat m) = true) ms -> warmAnchors limX limY ms h = h.
Proof.
  intros F. unfold warmAnchors. revert h.
  induction F as [| m ms Hm _ IH]; intros h; [reflexivity |].
  cbn [fold_left]. rewrite Hm. apply IH.
Qed.

(** A frame in which every mover is dead only decays the heat map. *)
Lemma updateMovers_all_dead (dtN playerSpeed : R) (w : World) (c : Canvas) :
  reconciled w -> canvas w = Some c ->
  Forall (fun m => dead (combat m) = true) (movers w) ->
  updateMovers dtN playerSpeed w
  = (Val tt,
     set_heatMap (decayHeatMap (heatMap w))
       (set_cfg (set_moversCount (clampZ (toInt32 (moversCount (cfg w))) 0 5) (cfg w)) w)).
Proof.
  intros Hr Hc Hdead. pose proof Hr as (He & Hpos & _).
  rewrite updateMovers_run, (ensureMoversCount_reconciled w Hr).
  set (w0 := set_cfg _ w).
  unfold updateFrame. unfold jbind at 1 2. unfold get at 1 2. cbv beta iota.
  change (moversEnabled (cfg w0)) with (moversEnabled (cfg w)). rewrite He.
  change (movers w0) with (movers w).
  replace (length (movers w) =? 0)%nat with false by (symmetry; apply Nat.eqb_neq; lia).
  cbn [negb orb].
  unfold jbind at 1. unfold nowMs, get at 1. cbv beta iota.
  unfold jbind at 1. unfold arenaLimits. change (canvas w0) with (canvas w). rewrite Hc.
  cbv beta iota zeta.
  unfold jbind at 1. unfold get at 1. cbv beta iota.
  unfold jbind at 1. unfold get at 1. cbv beta iota.
  unfold jbind at 1. unfold get at 1. cbv beta iota.
  unfold jbind at 1. unfold modify at 1. cbv beta iota.
  unfold jbind at 1. unfold modify at 1. cbv beta iota.
  cbn [movers set_heatMap heatMap fst snd].
  change (movers w0) with (movers w). change (heatMap w0) with (heatMap w).
  rewrite warmAnchors_dead by exact Hdead.
  rewrite update_loop_dead.
  - destruct w as [cf cv ra pl tg ms hm rc ec ck rg cr mi ls]. reflexivity.
  - intros j m Hm. cbn [movers set_heatMap] in Hm. change (movers w0) with (movers w) in Hm.
    rewrite Forall_lookup in Hdead. apply (Hdead j m Hm).
Qed.

(** [n] calls of [updateMovers] that run the loop of the frame, one
    after the other, none of which increments the cell [(r, c)]: the
    heat map after each call is the decayed map with the increments
    [incs], and none of them is on the cell.  Between two calls the
    rest of the program may change anything but the heat map, which is
    private to movers.js. *)
Inductive cool_frames (r c : nat) : nat -> World -> World -> Prop :=
| cool_O (w : World) : cool_frames r c 0 w w
| cool_S (n : nat) (w w1 w2 w3 : World) (dtN playerSpeed : R) (cv : Canvas)
    (incs : list (nat * nat * R)) :
    cool_frames r c n w w1 ->
    heatMap w2 = heatMap w1 ->
    canvas w2 = Some cv -> wantedCount (cfg w2) <> 0%Z ->
    updateMovers dtN playerSpeed w2 = (Val tt, w3) ->
    Forall (fun i => 0 < snd i) incs ->
    heatMap w3 = bumps incs (decayHeatMap (heatMap w2)) ->
    Forall (fun i => fst i <> (r, c)) incs ->
    cool_frames r c (S n) w w3.

Lemma cool_frames_heat (r c n : nat) (w w' : World) :
  (r < HEAT_ROWS)%nat -> (c < HEAT_COLS)%nat -> cool_frames r c n w w' ->
  heat_at (heatMap w') r c = heat_at (heatMap w) r c * HEATMAP_DECAY ^ n.
Proof.
  intros Hr Hc H. induction H as [w | n w w1 w2 w3 dtN ps cv incs _ IH E _ _ _ _ Hh Hout].
  - simpl. lra.
  - rewrite Hh, bumps_other by exact Hout.
    rewrite decayHeatMap_at by assumption. rewrite E, IH. simpl. lra.
Qed.


(** A mover that the third hit killed, and the sample world with that
    mover and a heat of 1 in the cell (2, 5). *)
Definition deadMover : Mover :=
  kill (set_hits MOVERS_MAX_HITS (sampleMover (hitCombat 3 900) (fresh_anchor 0))).

Definition warmWorld : World :=
  set_heatMap (heat_add heatMap_init 2 5 1) (sampleWorld false 1000 deadMover).



(** The loop of [respawnAllMovers] over the indices in [l]. *)
Lemma respawn_loop_spec (c : Canvas) (l : list nat) (w : World) :
  canvas w = Some c -> Forall (fun i => (i < length (movers w))%nat) l ->
  returns (jforM l (fun i =>
             run _ <- respawnMover i;
             modify (fun w => set_movers (alter revive i (movers w)) w)))
    (fun _ w' =>
       length (movers w') = length (movers w)
       /\ forall j m', movers w' !! j = Some m' ->
                       (In j l -> pristine m') /\ (~ In j l -> movers w !! j = Some m')) w.
Proof.
  revert w. induction l as [| i l IH]; intros w Hc Hall; cbn [jforM].
  - apply returns_ret. split; [reflexivity |].
    intros j m' H. split; [intros [] | intros _; exact H].
  - apply Forall_cons_1 in Hall as [Hi Hall].
    destruct (lookup_lt_is_Some_2 _ _ Hi) as [m Hm].
    do 2 apply returns_bind.
    eapply returns_weaken; [| apply (respawnMover_spec w c i m Hc Hm)].
    intros [] w1 [Hb (nm & w0 & Hsp & Hms & _)]. cbv beta. jstep.
    set (w2 := set_movers _ w1).
    assert (Hms2 : movers w2 = alter revive i (<[i := respawned m nm]> (movers w)))
      by (subst w2; cbn; rewrite Hms; reflexivity).
    assert (Hlen2 : length (movers w2) = length (movers w))
      by (rewrite Hms2, length_alter, length_insert; reflexivity).
    eapply returns_weaken; [| apply IH].
    + intros [] w' (Hlen' & Hall'). cbv beta. split; [congruence |].
      intros j m' Hj. destruct (Hall' j m' Hj) as [Hin Hout]. split.
      * intros Hjl. destruct (in_dec Nat.eq_dec j l) as [Hjin | Hjout]; [auto |].
        destruct Hjl as [<- | Hjl]; [| contradiction].
        specialize (Hout Hjout). rewrite Hms2, list_lookup_alter_eq in Hout.
        rewrite list_lookup_insert_eq in Hout by assumption.
        cbn in Hout. injection Hout as <-. repeat split.
      * intros Hjl. specialize (Hout (fun H => Hjl (or_intror H))).
        assert (Hne : i <> j) by (intros ->; apply Hjl; left; reflexivity).
        rewrite Hms2, list_lookup_alter_ne, list_lookup_insert_ne in Hout by assumption.
        exact Hout.
    + subst w2. cbn. rewrite (sb_canvas _ _ Hb). exact Hc.
    + rewrite Hlen2. exact Hall.
Qed.

(** With a canvas, [respawnAllMovers] returns with the wanted number of
    movers, every one of them alive with no hits. *)
Lemma respawnAllMovers_spec (w : World) (c : Canvas) :
  canvas w = Some c ->
  returns respawnAllMovers
    (fun _ w' => Z.of_nat (length (movers w')) = wantedCount (cfg w)
                 /\ forall j m, movers w' !! j = Some m -> pristine m) w.
Proof.
  intros Hc. unfold respawnAllMovers. apply returns_bind.
  eapply returns_weaken; [| apply (ensureMoversCount_returns w c Hc)].
  intros [] w1 (Hc1 & _ & Hn). cbv beta. do 2 jstep.
  eapply returns_weaken; [| apply (respawn_loop_spec c _ w1 Hc1)].
  - intros [] w' (Hlen & Hall). cbv beta. split; [rewrite Hlen; exact Hn |].
    intros j m Hj. apply (Hall j m Hj). apply in_seq.
    apply lookup_lt_Some in Hj. lia.
  - apply Forall_forall. intros i Hi. apply elem_of_seq in Hi. lia.
Qed.

(** X31.  With a canvas, [respawnAllMovers] returns with the wanted
    number of movers, every one of them alive with no hits, no escape
    boost and no time of a last hit, whether it was dead or not.
    [hitTestMovers] never returns the index of a dead mover, and a call
    of [updateMovers] leaves a dead mover as it is, or drops it when it
    shortens the collection. *)
Theorem respawnAllMovers_revives (w : World) :
  (forall c, canvas w = Some c ->
     returns respawnAllMovers
       (fun _ w' => Z.of_nat (length (movers w')) = wantedCount (cfg w)
                    /\ forall j m, movers w' !! j = Some m -> pristine m) w)
  /\ (forall j m, movers w !! j = Some m -> dead (combat m) = true ->
        hitTestMovers w <> Z.of_nat j
        /\ forall dtN playerSpeed,
             movers (snd (updateMovers dtN playerSpeed w)) !! j = Some m
             \/ movers (snd (updateMovers dtN playerSpeed w)) !! j = None).
Proof.
  split.
  - intros c Hc. apply (respawnAllMovers_spec w c Hc).
  - intros j m Hm Hd. split.
    + intros Hhit. destruct (hitTestMovers_live w j Hhit) as (m' & Hm' & Hlive). congruence.
    + intros dtN playerSpeed. apply updateMovers_keeps_dead; assumption.
Qed.

Lemma respawnAllMovers_revives_witness :
  let w := sampleWorld false 1000 deadMover in
  returns respawnAllMovers
    (fun _ w' => Z.of_nat (length (movers w')) = 1%Z
                 /\ forall j m, movers w' !! j = Some m -> pristine m) w
  /\ hitTestMovers w <> Z.of_nat 0
  /\ (movers (snd (updateMovers 1 0 w)) !! 0%nat = Some deadMover
      \/ movers (snd (updateMovers 1 0 w)) !! 0%nat = None).
Proof.
  cbv zeta.
  destruct (respawnAllMovers_revives (sampleWorld false 1000 deadMover)) as [Hall Hdead].
  destruct (Hdead 0%nat deadMover eq_refl eq_refl) as [Htest Hupd].
  split; [| split; [exact Htest | apply Hupd]].
  apply (Hall {| width := 1280; height := 720 |}). reflexivity.
Defined.

(** ** The third hit (C1) *)

(** [shoot] throws at its second statement, whatever the state, and
    leaves the state as it found it. *)
Lemma shoot_throws (w : World) : shoot w = (Throw, w).
Proof. reflexivity. Qed.

(** C1 fails in the code.  [shoot] throws at [state.crosshairFlashUntil
    = t + CROSSHAIR_FLASH_MS] (main.js:79) in every state and leaves the
    state as it found it: [hitTestMovers] is not reached and no hit is
    counted.  So with a live mover under the crosshair that has [n]
    hits ([hitTestMovers] returns its index 0), with regeneration on as
    with regeneration off, the call that should register the next hit
    throws and the mover is still there with its [n] hits, alive, its
    anchor untouched; for [n] = 2 the third hit neither respawns nor
    kills it.  And a dead mover does not stay out until
    [respawnAllMovers]: with a canvas, [respawnMover], which the sliders
    of the configuration panel call on every mover, leaves the mover at
    its index alive with no hits. *)
Theorem third_hit_never_counted :
  MOVERS_MAX_HITS = 3%nat
  /\ (forall w : World, shoot w = (Throw, w))
  /\ (forall (regen : bool) (n : nat),
        let m := sampleMover (hitCombat n 900) (fresh_anchor 0) in
        let w := sampleWorld regen 1000 m in
        hitTestMovers w = 0%Z
        /\ fst (shoot w) = Throw
        /\ movers (snd (shoot w)) !! 0%nat = Some m
        /\ hits (combat m) = n /\ dead (combat m) = false
        /\ anchor m = fresh_anchor 0)
  /\ (forall (w : World) (c : Canvas) (i : nat) (m : Mover),
        canvas w = Some c -> movers w !! i = Some m ->
        returns (respawnMover i)
          (fun _ w' => exists m', movers w' !! i = Some m'
                                  /\ dead (combat m') = false
                                  /\ hits (combat m') = 0%nat) w).
Proof.
  split; [reflexivity |]. split; [apply shoot_throws |]. split.
  - intros regen n. cbv zeta. rewrite shoot_throws. cbn [fst snd].
    split; [apply (sampleWorld_hit regen 1000 (hitCombat n 900)); reflexivity |].
    repeat split.
  - intros w c i m Hc Hm.
    eapply returns_weaken; [| apply (respawnMover_spec w c i m Hc Hm)].
    intros [] w' [_ (nm & w1 & _ & Hms & _)]. cbv beta.
    exists (respawned m nm). split; [| split; reflexivity].
    rewrite Hms. apply list_lookup_insert_eq. eapply lookup_lt_Some. exact Hm.
Qed.

Lemma third_hit_never_counted_witness :
  shoot (sampleWorld true 1000 (sampleMover (hitCombat 2 900) (fresh_anchor 0)))
  = (Throw, sampleWorld true 1000 (sampleMover (hitCombat 2 900) (fresh_anchor 0)))
  /\ dead (combat deadMover) = true
  /\ returns (respawnMover 0)
       (fun _ w' => exists m', movers w' !! 0%nat = Some m'
                               /\ dead (combat m') = false /\ hits (combat m') = 0%nat)
       (sampleWorld false 1000 deadMover).
Proof.
  destruct third_hit_never_counted as (_ & Hshoot & _ & Hrespawn).
  split; [apply Hshoot |]. split; [reflexivity |].
  apply (Hrespawn _ {| width := 1280; height := 720 |} 0%nat deadMover); reflexivity.
Defined.

(** ** Escape boost (C2) *)

(** The boost as the specification words it: 0 for no hit, the
    first-hit fraction for one hit, the sum of the first-hit and
    second-hit fractions for two or more. *)
Definition boost_spec (hit1 hit2 : R) (n : nat) : R :=
  match n with
  | O => 0
  | 1%nat => hit1
  | _ => hit1 + hit2
  end.

Lemma escapeBoostFor_spec (c : Config) (n : nat) :
  escapeBoostFor c n = boost_spec (moversHit1Boost c) (moversHit2Boost c) n.
Proof.
  unfold escapeBoostFor. rewrite !orElse_0.
  destruct n as [| [| n]]; reflexivity.
Qed.


(** ** Micro-pattern amplitude (C6) *)

Lemma orElse_nonzero (a d : R) : a <> 0 -> orElse a d = a.
Proof. intros H. unfold orElse. rewrite Req_b_false by assumption. reflexivity. Qed.

Lemma sin_cos_unit (a : R) : sin a * sin a + cos a * cos a = 1.
Proof. pose proof (sin2_cos2 a) as H. unfold Rsqr in H. exact H. Qed.

Lemma div_range (x d : R) : 0 < d -> 0 <= x < d -> 0 <= x / d < 1.
Proof.
  intros Hd [H0 H1]. unfold Rdiv.
  pose proof (Rinv_0_lt_compat d Hd) as Hi.
  assert (E : d * / d = 1) by (apply Rinv_r; lra).
  split; nra.
Qed.

(** The remainder of a non-negative dividend. *)
Lemma jsMod_range (a b : R) : 0 < b -> 0 <= a -> 0 <= jsMod a b < b.
Proof.
  intros Hb Ha. unfold jsMod, trunc.
  destruct (div_range 0 b Hb) as [_ _]; [lra |].
  assert (Hq : 0 <= a / b).
  { unfold Rdiv. pose proof (Rinv_0_lt_compat b Hb). nra. }
  rewrite Rle_b_true by exact Hq.
  destruct (Zfloor_bound (a / b)) as [H1 H2].
  assert (E : a = b * (a / b)) by (field; lra).
  set (q := a / b) in *. set (f := IZR (Zfloor q)) in *.
  assert (0 <= b * (q - f)) by (apply Rmult_le_pos; lra).
  assert (0 < b * (f + 1 - q)) by (apply Rmult_lt_0_compat; lra).
  split; lra.
Qed.

Lemma jsPow_range (c e : R) : 0 <= c <= 1 -> 0 < e -> 0 <= jsPow c e <= 1.
Proof.
  intros [H0 H1] He. unfold jsPow.
  destruct (Rlt_b_spec 0 c) as [Hc | Hc]; [| lra].
  unfold Rpower. split; [left; apply exp_pos |].
  rewrite <- exp_0.
  destruct (Req_dec c 1) as [-> | Hne].
  - rewrite ln_1, Rmult_0_r. lra.
  - left. apply exp_increasing.
    assert (ln c < 0) by (rewrite <- ln_1; apply ln_increasing; lra).
    nra.
Qed.

(** The position in the cycle: [(elapsed % duration) / duration], or 0. *)
Lemma cycle_range (e d : R) :
  0 <= e -> 0 <= (if Rlt_b 0 d then jsMod e d / d else 0) < 1.
Proof.
  intros He. destruct (Rlt_b_spec 0 d) as [Hd | Hd]; [| lra].
  apply div_range; [exact Hd | apply jsMod_range; assumption].
Qed.

(** The largest component a pattern function returns, and the largest
    distance from the centre it reaches, within its duration. *)
Definition peak (p : Pattern) : R :=
  match p with rosette => 1.35 | _ => 1 end.

Definition reach (p : Pattern) : R :=
  match p with
  | figure8 | figure8Wide | figure8Spiral => sqrt 2
  | rosette => 1.35
  | spiral | spiralBurst | swerveStop => 1
  end.

Lemma reach_nonneg (p : Pattern) : 0 <= reach p.
Proof. destruct p; cbn; try lra; apply sqrt_pos. Qed.

Lemma sqrt2_sq : sqrt 2 * sqrt 2 = 2.
Proof. apply sqrt_sqrt. lra. Qed.

Lemma unit_sq_sum (x y : R) : -1 <= x <= 1 -> -1 <= y <= 1 -> x * x + y * y <= 2.
Proof. intros. nra. Qed.

Lemma radial_sq (c s r : R) :
  s * s + c * c = 1 -> 0 <= r <= 1 -> (c * r) * (c * r) + (s * r) * (s * r) <= 1.
Proof.
  intros H Hr. replace (c * r * (c * r) + s * r * (s * r)) with (r * r * (s * s + c * c)) by ring.
  rewrite H. nra.
Qed.

Lemma ease_range (p : R) : 0 <= p <= 1 -> 0 <= p * p * (3 - 2 * p) <= 1.
Proof.
  intros Hp. split.
  - apply Rmult_le_pos; nra.
  - assert (0 <= (1 - p) * (1 - p) * (1 + 2 * p)) by (apply Rmult_le_pos; nra). nra.
Qed.

Lemma rosette_sq (a b : R) :
  (cos a + 0.35 * cos b) * (cos a + 0.35 * cos b)
  + (sin a - 0.35 * sin b) * (sin a - 0.35 * sin b) <= 1.35 * 1.35.
Proof.
  pose proof (sin_cos_unit a) as Ha. pose proof (sin_cos_unit b) as Hb.
  pose proof (COS_bound (a + b)) as [_ Hc]. rewrite cos_plus in Hc.
  nra.
Qed.

Lemma component_of_sq (x y N : R) : 0 <= N -> x * x + y * y <= N * N -> Rabs x <= N.
Proof. intros HN H. apply Rabs_le. split; nra. Qed.

(** Turning a point does not take it farther from the centre. *)
Lemma turn_sq (x y a : R) :
  (x * cos a - y * sin a) * (x * cos a - y * sin a)
  + (x * sin a + y * cos a) * (x * sin a + y * cos a) = x * x + y * y.
Proof.
  pose proof (sin_cos_unit a) as H.
  replace ((x * cos a - y * sin a) * (x * cos a - y * sin a)
           + (x * sin a + y * cos a) * (x * sin a + y * cos a))
    with ((x * x + y * y) * (sin a * sin a + cos a * cos a)) by ring.
  rewrite H. ring.
Qed.

(** Within its duration, a pattern returns a point whose distance from
    the centre is at most [reach]. *)
Lemma pattern_reach (p : Pattern) (t gain : R) (opts : Opts) :
  0 <= elapsed opts <= duration opts ->
  let pt := MICRO_PATTERNS p t gain opts in
  vx pt * vx pt + vy pt * vy pt <= reach p * reach p.
Proof.
  intros [He Hd]. cbv zeta.
  pose proof (cycle_range (elapsed opts) (duration opts) He) as Hc.
  destruct p; cbn [MICRO_PATTERNS reach];
    [unfold pat_figure8 | unfold pat_figure8Wide | unfold pat_figure8Spiral
     | unfold pat_spiral | unfold pat_spiralBurst | unfold pat_rosette
     | unfold pat_swerveStop];
    cbv zeta; cbn [vx vy]; rewrite ?sqrt2_sq, ?Rmult_1_l.
  - apply unit_sq_sum; apply SIN_bound.
  - pose proof (SIN_bound (o_w opts * gain * t + orElse (phase1 opts) 0)).
    pose proof (SIN_bound (o_w opts * gain * 1.4 * t + orElse (phase2 opts) 0)). nra.
  - pose proof (SIN_bound (o_w opts * gain * t + orElse (phase1 opts) 0)) as H1.
    pose proof (SIN_bound (o_w opts * gain * 2 * t + orElse (phase2 opts) 0)) as H2.
    clear Hc.
    set (s1 := sin (o_w opts * gain * t + orElse (phase1 opts) 0)) in *.
    set (s2 := sin (o_w opts * gain * 2 * t + orElse (phase2 opts) 0)) in *.
    assert (Hs : 0 <= (if Rlt_b 0 (duration opts)
                       then elapsed opts / duration opts else 0) <= 1).
    { destruct (Rlt_b_spec 0 (duration opts)) as [Hpos | _]; [| lra].
      unfold Rdiv. pose proof (Rinv_0_lt_compat _ Hpos).
      assert (duration opts * / duration opts = 1) by (apply Rinv_r; lra).
      split; nra. }
    set (c := if Rlt_b 0 (duration opts) then elapsed opts / duration opts else 0) in *.
    assert (0 <= 0.3 + 0.7 * c <= 1) by lra.
    set (k := 0.3 + 0.7 * c) in *.
    assert (k * k <= 1) by nra.
    assert (s1 * s1 <= 1) by nra. assert (s2 * s2 <= 1) by nra.
    replace (s1 * k * (s1 * k) + s2 * k * (s2 * k)) with (k * k * (s1 * s1 + s2 * s2)) by ring.
    nra.
  - apply radial_sq; [apply sin_cos_unit |].
    apply jsPow_range; lra.
  - apply radial_sq; [apply sin_cos_unit |].
    apply jsPow_range; [| lra].
    destruct (jsMod_range ((if Rlt_b 0 (duration opts)
                            then jsMod (elapsed opts) (duration opts) / duration opts
                            else 0) * 3) 1); lra.
  - apply rosette_sq.
  - destruct (Rlt_b _ 0.35) eqn:Hp; cbn [vx vy]; [lra |].
    destruct (Rlt_b_spec (if Rlt_b 0 (duration opts)
                          then jsMod (elapsed opts) (duration opts) / duration opts
                          else 0) 0.35) as [| Hge]; [discriminate |].
    set (c := if Rlt_b 0 (duration opts) then _ else _) in *.
    assert (Hq : 0 <= (c - 0.35) / 0.65 <= 1) by (split; lra).
    pose proof (ease_range _ Hq) as Hease.
    set (e := (c - 0.35) / 0.65 * ((c - 0.35) / 0.65) * (3 - 2 * ((c - 0.35) / 0.65))) in *.
    pose proof (sin_cos_unit (o_w opts * gain * t * 1.2)) as Hu.
    set (co := cos _) in *. set (si := sin _) in *.
    replace (co * e * (co * e) + si * 0.5 * e * (si * 0.5 * e))
      with (e * e * (co * co + 0.25 * (si * si))) by lra.
    assert (0 <= co * co + 0.25 * (si * si) <= 1) by nra.
    assert (0 <= e * e <= 1) by nra.
    nra.
Qed.

(** Within its duration, a pattern returns components of magnitude at
    most [peak]. *)
Lemma pattern_peak (p : Pattern) (t gain : R) (opts : Opts) :
  0 <= elapsed opts <= duration opts ->
  let pt := MICRO_PATTERNS p t gain opts in
  Rabs (vx pt) <= peak p /\ Rabs (vy pt) <= peak p.
Proof.
  intros Hw. cbv zeta.
  pose proof (pattern_reach p t gain opts Hw) as Hr. cbv zeta in Hr.
  assert (Hsq : reach p = peak p ->
                Rabs (vx (MICRO_PATTERNS p t gain opts)) <= peak p
                /\ Rabs (vy (MICRO_PATTERNS p t gain opts)) <= peak p).
  { intros E. rewrite E in Hr.
    assert (0 <= peak p) by (destruct p; cbn; lra).
    split; [apply (component_of_sq _ (vy (MICRO_PATTERNS p t gain opts)))
           | apply (component_of_sq _ (vx (MICRO_PATTERNS p t gain opts)))];
      try assumption; lra. }
  destruct p; try (apply Hsq; reflexivity); clear Hsq Hr;
    cbn [MICRO_PATTERNS peak];
    [unfold pat_figure8 | unfold pat_figure8Wide | unfold pat_figure8Spiral];
    cbv zeta; cbn [vx vy].
  - split; apply Rabs_le, SIN_bound.
  - pose proof (SIN_bound (o_w opts * gain * t + orElse (phase1 opts) 0)).
    pose proof (SIN_bound (o_w opts * gain * 1.4 * t + orElse (phase2 opts) 0)).
    split; apply Rabs_le; lra.
  - destruct Hw as [He Hd].
    pose proof (SIN_bound (o_w opts * gain * t + orElse (phase1 opts) 0)) as H1.
    pose proof (SIN_bound (o_w opts * gain * 2 * t + orElse (phase2 opts) 0)) as H2.
    assert (Hs : 0 <= (if Rlt_b 0 (duration opts)
                       then elapsed opts / duration opts else 0) <= 1).
    { destruct (Rlt_b_spec 0 (duration opts)) as [Hpos | _]; [| lra].
      unfold Rdiv. pose proof (Rinv_0_lt_compat _ Hpos).
      assert (duration opts * / duration opts = 1) by (apply Rinv_r; lra).
      split; nra. }
    set (c := if Rlt_b 0 (duration opts) then elapsed opts / duration opts else 0) in *.
    split; apply Rabs_le; split; nra.
Qed.

Lemma TIER_SCALE_pos (tr : Tier) : 0 < TIER_SCALE tr.
Proof. destruct tr; cbn; lra. Qed.

Lemma SPIRAL_SCALE_pos (tr : Tier) : 0 < SPIRAL_SCALE tr.
Proof. destruct tr; cbn; lra. Qed.

Lemma microAmp_nonneg (m : Mover) (limX limY : R) :
  0 <= limX -> 0 <= limY ->
  0 <= vx (microAmp m limX limY) /\ 0 <= vy (microAmp m limX limY).
Proof.
  intros HX HY. unfold microAmp.
  pose proof (TIER_SCALE_pos (microTier (micro m))).
  pose proof (SPIRAL_SCALE_pos (microTier (micro m))).
  assert (0 <= Rmin limX limY) by (apply Rmin_glb; assumption).
  destruct (includes_spiral _); cbv zeta; cbn [vx vy]; split; apply Rmult_le_pos; lra.
Qed.

(** The mover is within the duration of its micro-pattern at time [t]. *)
Definition in_duration (cfg : Config) (m : Mover) (t : R) : Prop :=
  0 <= elapsed (microOpts cfg m t) <= duration (microOpts cfg m t).

(** The turned point is within [reach] of the centre, on both axes. *)
Lemma microPoint_reach (cfg : Config) (m : Mover) (t : R) :
  in_duration cfg m t ->
  Rabs (vx (microPoint cfg m t)) <= reach (microPattern (micro m))
  /\ Rabs (vy (microPoint cfg m t)) <= reach (microPattern (micro m)).
Proof.
  intros Hw. unfold microPoint. cbv zeta. cbn [vx vy].
  pose proof (pattern_reach (microPattern (micro m))
                ((t - orElse (microStart (micro m)) 0) * 0.001)
                (microGainUsed m) (microOpts cfg m t) Hw) as Hr.
  cbv zeta in Hr.
  set (pt := MICRO_PATTERNS _ _ _ _) in *.
  pose proof (turn_sq (vx pt) (vy pt) (frameAngle (modul m))) as Ht.
  pose proof (reach_nonneg (microPattern (micro m))) as Hn.
  split.
  - apply (component_of_sq _ (vx pt * sin (frameAngle (modul m))
                              + vy pt * cos (frameAngle (modul m)))); [exact Hn | lra].
  - apply (component_of_sq _ (vx pt * cos (frameAngle (modul m))
                              - vy pt * sin (frameAngle (modul m)))); [exact Hn | lra].
Qed.

Lemma scaled_le (x a N : R) : 0 <= a -> Rabs x <= N -> Rabs (x * a) <= N * a.
Proof.
  intros Ha Hx. rewrite Rabs_mult, (Rabs_pos_eq a) by assumption.
  apply Rmult_le_compat_r; assumption.
Qed.

Lemma scaledOffset_reach (cfg : Config) (m : Mover) (t limX limY : R) :
  0 <= limX -> 0 <= limY -> in_duration cfg m t ->
  Rabs (vx (scaledOffset cfg m t limX limY))
  <= reach (microPattern (micro m)) * vx (microAmp m limX limY)
  /\ Rabs (vy (scaledOffset cfg m t limX limY))
     <= reach (microPattern (micro m)) * vy (microAmp m limX limY).
Proof.
  intros HX HY Hw. unfold scaledOffset. cbv zeta. cbn [vx vy].
  destruct (microAmp_nonneg m limX limY HX HY) as [Hax Hay].
  destruct (microPoint_reach cfg m t Hw) as [Hx Hy].
  split; apply scaled_le; assumption.
Qed.

Lemma zigzag_le (o a N s : R) :
  0 <= a -> Rabs o <= N * a -> -1 <= s <= 1 ->
  Rabs (o + s * 0.1 * a * 0.3) <= (N + 0.03) * a.
Proof.
  intros Ha Ho Hs. apply Rabs_bounds in Ho. apply Rabs_le.
  assert (- a <= s * a <= a) by nra. split; lra.
Qed.

(** C6, as amended.  While a mover is within the duration of its
    micro-pattern ([0 <= elapsed <= duration]) and the half-dimensions
    are not negative: the pattern function returns components of
    magnitude at most [peak], which is 1.35 for [rosette] and 1 for the
    other patterns; the offset after the turn by the frame angle and
    the scaling by the tier has each component at most [reach] times
    the tier's amplitude on that axis, where [reach] is the square root
    of 2 for the figure-8 patterns, 1.35 for [rosette] and 1 for
    [spiral], [spiralBurst] and [swerveStop]; and the offset that enters
    the soft clamp, with the feints applied, has each component at most
    [reach + 0.03] times that amplitude. *)
Theorem micro_offset_within_reach (cfg : Config) (m : Mover) (t limX limY : R) :
  0 <= limX -> 0 <= limY -> in_duration cfg m t ->
  let p := microPattern (micro m) in
  let pt := MICRO_PATTERNS p ((t - orElse (microStart (micro m)) 0) * 0.001)
              (microGainUsed m) (microOpts cfg m t) in
  let amp := microAmp m limX limY in
  (Rabs (vx pt) <= peak p /\ Rabs (vy pt) <= peak p)
  /\ (Rabs (vx (scaledOffset cfg m t limX limY)) <= reach p * vx amp
      /\ Rabs (vy (scaledOffset cfg m t limX limY)) <= reach p * vy amp)
  /\ (Rabs (vx (preClampOffset cfg m t limX limY)) <= (reach p + 0.03) * vx amp
      /\ Rabs (vy (preClampOffset cfg m t limX limY)) <= (reach p + 0.03) * vy amp).
Proof.
  intros HX HY Hw. cbv zeta.
  split; [apply pattern_peak; exact Hw |].
  pose proof (scaledOffset_reach cfg m t limX limY HX HY Hw) as [Hx Hy].
  split; [split; assumption |].
  destruct (microAmp_nonneg m limX limY HX HY) as [Hax Hay].
  unfold preClampOffset. cbv zeta.
  set (o := scaledOffset cfg m t limX limY) in *.
  set (amp := microAmp m limX limY) in *.
  set (N := reach (microPattern (micro m))) in *.
  assert (Hflip : Rabs (if before t (phaseFlipUntil (modul m)) then - vx o else vx o)
                  <= N * vx amp)
    by (destruct (before t (phaseFlipUntil (modul m))); [rewrite Rabs_Ropp |]; exact Hx).
  destruct (before t (zigZagUntil (modul m))); cbn [vx vy].
  - split; apply zigzag_le; try assumption; apply SIN_bound.
  - split; lra.
Qed.

Lemma micro_offset_within_reach_witness :
  let m := sampleMover (hitCombat 0 0) (fresh_anchor 0) in
  let pt := MICRO_PATTERNS figure8 ((1000 - orElse 0 0) * 0.001)
              (microGainUsed m) (microOpts defaultConfig m 1000) in
  let amp := microAmp m 500 220 in
  (Rabs (vx pt) <= 1 /\ Rabs (vy pt) <= 1)
  /\ (Rabs (vx (scaledOffset defaultConfig m 1000 500 220)) <= sqrt 2 * vx amp
      /\ Rabs (vy (scaledOffset defaultConfig m 1000 500 220)) <= sqrt 2 * vy amp)
  /\ (Rabs (vx (preClampOffset defaultConfig m 1000 500 220)) <= (sqrt 2 + 0.03) * vx amp
      /\ Rabs (vy (preClampOffset defaultConfig m 1000 500 220))
         <= (sqrt 2 + 0.03) * vy amp).
Proof.
  cbv zeta.
  apply (micro_offset_within_reach defaultConfig
           (sampleMover (hitCombat 0 0) (fresh_anchor 0)) 1000 500 220).
  - lra.
  - lra.
  - unfold in_duration. cbn. rewrite orElse_0, orElse_nonzero by lra. lra.
Defined.

(** A mover on a [rosette] of tier S, its pattern starting now. *)
Definition rosetteMover : Mover :=
  set_micro {| microPattern := rosette; microType := type_figure8; microTier := TierS;
               microTierIndex := 0%nat; microStart := 0; microDuration := 3000;
               microBlendStart := 0; microNextSwitch := 3000;
               prevOffset := {| vx := 0; vy := 0 |}; microGain := 1;
               nonFigureCount := 1%nat |}
            (sampleMover (hitCombat 0 0) (fresh_anchor 0)).

(** C6 fails as stated: at the start of a [rosette] with both phases 0
    the pattern function returns x = 1 + 0.35 = 1.35, and the scaled
    offset of tier S in an arena of half-width 500 is
    1.35 * 0.15 * 500 = 101.25, above 0.15 * 500 = 75. *)
Lemma rosette_exceeds_amplitude_counterexample :
  vx (MICRO_PATTERNS rosette 0 (microGainUsed rosetteMover)
        (microOpts defaultConfig rosetteMover 0)) = 1.35
  /\ vx (scaledOffset defaultConfig rosetteMover 0 500 220) = 101.25
  /\ TIER_SCALE (microTier (micro rosetteMover)) * 500 = 75
  /\ vx (microAmp rosetteMover 500 220) = 75
  /\ vx (microAmp rosetteMover 500 220)
     < Rabs (vx (scaledOffset defaultConfig rosetteMover 0 500 220)).
Proof.
  assert (S : vx (scaledOffset defaultConfig rosetteMover 0 500 220) = 101.25
              -> vx (microAmp rosetteMover 500 220) = 75
              -> vx (microAmp rosetteMover 500 220)
                 < Rabs (vx (scaledOffset defaultConfig rosetteMover 0 500 220)))
    by (intros -> ->; rewrite Rabs_pos_eq; lra).
  assert (E : vx (MICRO_PATTERNS rosette 0 (microGainUsed rosetteMover)
                    (microOpts defaultConfig rosetteMover 0)) = 1.35).
  { cbn [MICRO_PATTERNS]. unfold pat_rosette. cbv zeta. cbn [vx].
    replace (o_w (microOpts defaultConfig rosetteMover 0) * microGainUsed rosetteMover * 0
             + orElse (phase1 (microOpts defaultConfig rosetteMover 0)) 0) with 0
      by (cbn; rewrite !orElse_0; lra).
    replace (3.7 * (o_w (microOpts defaultConfig rosetteMover 0)
                    * microGainUsed rosetteMover) * 0
             + orElse (phase2 (microOpts defaultConfig rosetteMover 0)) 0) with 0
      by (cbn; rewrite !orElse_0; lra).
    rewrite cos_0. lra. }
  split; [exact E |].
  assert (A : vx (microAmp rosetteMover 500 220) = 75) by (cbn; lra).
  cut (vx (scaledOffset defaultConfig rosetteMover 0 500 220) = 101.25);
    [intros O; split; [exact O |]; split; [cbn; lra |]; split; [exact A | exact (S O A)] |].
  clear S A.
  unfold scaledOffset, microPoint. cbv zeta. cbn [vx vy].
  replace ((0 - orElse (microStart (micro rosetteMover)) 0) * 0.001) with 0
    by (cbn; rewrite orElse_0; lra).
  change (microPattern (micro rosetteMover)) with rosette.
  rewrite E.
  replace (frameAngle (modul rosetteMover)) with 0 by reflexivity.
  rewrite cos_0, sin_0. cbn. lra.
Qed.

(** ** Category pools (C4) *)

Section PickFirst.
Context {K : Type} (eqb : K -> K -> bool).

(** What [pick] chooses and counts when [Math.random()] returns 0: the
    first candidate. *)
Definition pickFirst (names : list K) (maxCount : nat) (dflt : K) (cs : list (K * nat))
  : K * list (K * nat) :=
  let cs := counts_init eqb names cs in
  let candidates := filter (fun e : K * nat => (snd e <? maxCount)%nat) cs in
  let chosen :=
    if (0 <? length candidates)%nat then fst <$> candidates !! 0%nat
    else snd (leastCount cs) in
  let chosen := default dflt chosen in
  (chosen, counts_set eqb cs chosen (S (default 0%nat (counts_get eqb cs chosen)))).

Lemma pick_at_zero (names : list K) (maxCount : nat) (dflt : K) (cs : list (K * nat))
    (g : Rng) :
  tape g (cursor g) = 0 ->
  fst (pick eqb names maxCount dflt cs g) = pickFirst names maxCount dflt cs.
Proof.
  intros Hz. unfold pick, pickFirst. cbv zeta.
  destruct (0 <? length _)%nat.
  - unfold bind, random, ret. cbn [fst snd]. rewrite Hz, Rmult_0_l.
    unfold floor. change 0 with (IZR 0). rewrite ZfloorZ. reflexivity.
  - reflexivity.
Qed.
End PickFirst.

(** The roles held, by index. *)
Definition rolesOf (w : World) : list Role := (fun m => role (beh m)) <$> movers w.

(** The role and the counts that [spawnMoverInWindow] leaves when
    [Math.random()] returns 0. *)
Definition spawnRole (cs : Counts Role) : Role * Counts Role :=
  pickFirst Role_eqb ROLE_NAMES ROLE_MAX_COUNT Runner cs.

(** The roles and the counts after [k] spawns pushed to the collection. *)
Fixpoint pushRoles (k : nat) (hs : list Role) (cs : Counts Role)
  : list Role * Counts Role :=
  match k with
  | O => (hs, cs)
  | S k' => let (r, cs') := spawnRole cs in pushRoles k' (hs ++ [r]) cs'
  end.

(** The roles and the counts after [respawnMover] at index [i]. *)
Definition respawnRole (i : nat) (p : list Role * Counts Role) : list Role * Counts Role :=
  let (hs, cs) := p in
  let (r, cs1) := spawnRole cs in
  match hs !! i with
  | Some old => (<[i := r]> hs, counts_bump Role_eqb (counts_release Role_eqb cs1 old) r)
  | None => (hs, cs1)
  end.

(** [Math.random()] returns 0 at every call. *)
Definition zero_tape (w : World) : Prop := forall n, tape (rng w) n = 0.

Lemma zero_tape_base (w w' : World) : same_base w w' -> zero_tape w -> zero_tape w'.
Proof. intros Hb Hz n. rewrite (sb_tape _ _ Hb). apply Hz. Qed.

Lemma spawned_role_at_zero (w : World) (nm : Mover) (w1 : World) :
  Spawned w nm w1 -> zero_tape w ->
  (role (beh nm), roleCounts w1) = spawnRole (roleCounts w).
Proof.
  intros Hsp Hz. destruct (sp_role _ _ _ Hsp) as (g & g' & Ht & Hp).
  pose proof (pick_at_zero Role_eqb ROLE_NAMES ROLE_MAX_COUNT Runner (roleCounts w) g) as H.
  unfold pickRole in Hp. rewrite Hp in H. cbn [fst] in H.
  unfold spawnRole. rewrite <- H; [reflexivity |]. rewrite Ht. apply Hz.
Qed.

Lemma pushSpawned_roles (c : Canvas) (k : nat) (w : World) :
  canvas w = Some c -> zero_tape w ->
  returns (pushSpawned k)
    (fun _ w' => same_base w w'
                 /\ (rolesOf w', roleCounts w') = pushRoles k (rolesOf w) (roleCounts w)) w.
Proof.
  revert w. induction k as [| k IH]; intros w Hc Hz; cbn [pushSpawned pushRoles].
  - apply returns_ret. split; [apply same_base_refl | reflexivity].
  - apply returns_bind.
    eapply returns_weaken; [| apply (spawnMoverInWindow_spec w c Hc)].
    intros nm w1 Hsp. cbv beta. do 2 jstep.
    pose proof (sp_base _ _ _ Hsp) as Hb.
    pose proof (spawned_role_at_zero w nm w1 Hsp Hz) as Hr.
    set (w2 := set_movers (movers w1 ++ [nm]) w1).
    assert (Hb2 : same_base w w2).
    { eapply same_base_trans; [exact Hb | apply same_base_set_movers]. }
    eapply returns_weaken; [| apply (IH w2)].
    + intros [] w' (Hb' & He). cbv beta.
      split; [eapply same_base_trans; eassumption |].
      rewrite He. rewrite <- Hr.
      replace (rolesOf w2) with (rolesOf w ++ [role (beh nm)]); [reflexivity |].
      unfold rolesOf. subst w2. cbn [movers set_movers].
      rewrite (sp_movers _ _ _ Hsp), fmap_app. reflexivity.
    + rewrite (sb_canvas _ _ Hb2). exact Hc.
    + eapply zero_tape_base; eassumption.
Qed.

Lemma respawnMover_roles (c : Canvas) (i : nat) (w : World) :
  canvas w = Some c -> zero_tape w -> (i < length (movers w))%nat ->
  returns (respawnMover i)
    (fun _ w' => same_base w w'
                 /\ (rolesOf w', roleCounts w') = respawnRole i (rolesOf w, roleCounts w)) w.
Proof.
  intros Hc Hz Hi. destruct (lookup_lt_is_Some_2 _ _ Hi) as [m Hm].
  eapply returns_weaken; [| apply (respawnMover_spec w c i m Hc Hm)].
  intros [] w' [Hb (nm & w1 & Hsp & Hms & Hrc & _)]. cbv beta.
  split; [exact Hb |].
  pose proof (spawned_role_at_zero w nm w1 Hsp Hz) as Hr.
  unfold respawnRole. rewrite <- Hr.
  unfold rolesOf at 2. rewrite list_lookup_fmap, Hm. cbn [fmap option_fmap option_map].
  rewrite Hrc. unfold rolesOf. rewrite Hms, list_fmap_insert. reflexivity.
Qed.

Lemma respawnMover_repeat_roles (c : Canvas) (i n : nat) (w : World) :
  canvas w = Some c -> zero_tape w -> (i < length (movers w))%nat ->
  returns (jforM (replicate n i) respawnMover)
    (fun _ w' => same_base w w'
                 /\ (rolesOf w', roleCounts w')
                    = Nat.iter n (respawnRole i) (rolesOf w, roleCounts w)) w.
Proof.
  revert w. induction n as [| n IH]; intros w Hc Hz Hi; cbn [replicate jforM].
  - apply returns_ret. split; [apply same_base_refl | reflexivity].
  - apply returns_bind.
    eapply returns_weaken; [| apply (respawnMover_roles c i w Hc Hz Hi)].
    intros [] w1 (Hb & He). cbv beta.
    eapply returns_weaken; [| apply (IH w1)].
    + intros [] w' (Hb' & He'). cbv beta.
      split; [eapply same_base_trans; eassumption |].
      rewrite He', He. rewrite <- Nat.iter_succ_r. reflexivity.
    + rewrite (sb_canvas _ _ Hb). exact Hc.
    + eapply zero_tape_base; eassumption.
    + assert (Hl : length (rolesOf w1) = length (rolesOf w)).
      { apply (f_equal fst) in He. cbn [fst] in He. rewrite He.
        unfold respawnRole. destruct (spawnRole (roleCounts w)) as [r cs1].
        destruct (rolesOf w !! i); cbn [fst]; [apply length_insert | reflexivity]. }
      unfold rolesOf in Hl. rewrite !length_fmap in Hl. rewrite Hl. exact Hi.
Qed.

(** *** Episode rotation *)

Lemma retarget_pools (f : Frame) (i : nat) (m : Mover) (w : World) :
  yields (retarget f i m) (fun _ w' => episodeCounts w' = episodeCounts w) w.
Proof. unfold retarget. repeat ystep. reflexivity. Qed.

Lemma retargetPhase_pools (f : Frame) (i : nat) (m : Mover) (w : World) :
  yields (retargetPhase f i m) (fun _ w' => episodeCounts w' = episodeCounts w) w.
Proof.
  unfold retargetPhase. destruct (Rle_b _ _); [apply retarget_pools |].
  ystep. reflexivity.
Qed.

Lemma microPhase_pools (tNow : R) (m : Mover) (w : World) :
  yields (microPhase tNow m) (fun _ w' => episodeCounts w' = episodeCounts w) w.
Proof. unfold microPhase. destruct (Rlt_b _ _); repeat ystep; reflexivity. Qed.

(** The episode drawn at the expiry of the episode of [m], and the
    counts as [pickEpisode] leaves them. *)
Definition rotation (w : World) (m : Mover) : Episode * Counts Episode :=
  fst (pickEpisode (counts_release Episode_eqb (episodeCounts w) (episode (beh m))) (rng w)).

(** At the expiry of an episode the count of the new episode is raised
    by [pickEpisode] and once more by the caller. *)
Lemma episodePhase_counts (f : Frame) (i : nat) (m : Mover) (w : World) :
  episodeExpires (beh m) < tNow f ->
  yields (episodePhase f i m)
    (fun m' w' =>
       episode (beh m') = fst (rotation w m)
       /\ episodeCounts w'
          = counts_bump Episode_eqb (snd (rotation w m)) (fst (rotation w m))) w.
Proof.
  intros He. unfold episodePhase, rotation. rewrite Rlt_b_true by exact He.
  repeat ystep.
  eapply yields_weaken; [| apply yields_conj; [apply retarget_spec | apply retarget_pools]].
  intros m1 w1 ((_ & _ & _ & Hbeh) & Hp). cbv beta. world_simpl.
  ystep.
  match goal with
  | H : chooseNewMicro ?m0 ?t ?g = (?a, _) |- _ =>
      pose proof (chooseNewMicro_kept m0 t g) as Hk; rewrite H in Hk; cbn [fst] in Hk
  end.
  match goal with
  | H : pickEpisode _ _ = _ |- _ => rewrite H
  end.
  cbn [fst snd]. rewrite (k_episode _ _ Hk), Hbeh, Hp. split; reflexivity.
Qed.

Lemma updateLive_counts (f : Frame) (i : nat) (m : Mover) (w : World) :
  ~ roleExpires (beh m) < tNow f -> episodeExpires (beh m) < tNow f ->
  yields (updateLive f i m)
    (fun m' w' =>
       movers w' = movers w
       /\ episode (beh m') = fst (rotation w m)
       /\ episodeCounts w'
          = counts_bump Episode_eqb (snd (rotation w m)) (fst (rotation w m))) w.
Proof.
  intros Hr He.
  eapply yields_weaken;
    [| apply yields_conj;
       [apply updateLive_spec
       | instantiate (1 := fun m' w' =>
           episode (beh m') = fst (rotation w m)
           /\ episodeCounts w'
              = counts_bump Episode_eqb (snd (rotation w m)) (fst (rotation w m)))]].
  { intros m' w' ([E _] & H1 & H2). split; [apply (se_movers _ _ E) |]. split; assumption. }
  unfold updateLive.
  destruct (healPhase_rest (tNow f) m) as (_ & Hb0 & _).
  assert (Hrot : rotation w (healPhase (tNow f) m) = rotation w m)
    by (unfold rotation; rewrite Hb0; reflexivity).
  cbv zeta. apply yields_bind.
  unfold rolePhase. rewrite Hb0, Rlt_b_false by exact Hr. apply yields_ret.
  apply yields_bind.
  eapply yields_weaken; [| apply episodePhase_counts; rewrite Hb0; exact He].
  intros m2 w2 [E2 C2]. cbv beta. rewrite Hrot in E2, C2.
  apply yields_bind.
  eapply yields_weaken;
    [| apply yields_conj; [apply retargetPhase_spec | apply retargetPhase_pools]].
  intros m4 w4 ((_ & _ & _ & B4) & P4). cbv beta.
  apply yields_bind.
  eapply yields_weaken;
    [| apply yields_conj; [apply microPhase_spec | apply microPhase_pools]].
  intros m5 w5 ((_ & K5) & P5). cbv beta.
  do 4 ystep.
  set (threatAlpha := threatOf _ _ _).
  pose proof (modulatePhase_kept (tNow f) threatAlpha m5) as K6.
  set (m6 := modulatePhase (tNow f) threatAlpha m5) in *.
  ystep. ystep.
  match goal with
  | H : feintPhase ?t ?th ?m0 ?g = (?a, _) |- _ =>
      pose proof (feintPhase_kept t th m0 g) as K8; rewrite H in K8; cbn [fst] in K8
  end.
  match goal with
  | |- context [computeMicroOffset ?c ?m9 ?t ?lx ?ly] =>
      pose proof (computeMicroOffset_kept c m9 t lx ly) as K10;
      set (om := computeMicroOffset c m9 t lx ly) in *
  end.
  repeat ystep. world_simpl.
  split; [| congruence].
  cbn [beh set_kin]. rewrite (k_episode _ _ K10). cbn [beh set_frameAngle set_modul].
  rewrite (k_episode _ _ K8). cbn [beh set_anchor].
  rewrite (k_episode _ _ K6), (k_episode _ _ K5), B4. cbn [beh set_anchor]. exact E2.
Qed.

Lemma updateMover_counts (f : Frame) (i : nat) (m : Mover) (w : World) :
  movers w !! i = Some m -> dead (combat m) = false ->
  ~ roleExpires (beh m) < tNow f -> episodeExpires (beh m) < tNow f ->
  yields (updateMover f i)
    (fun _ w' =>
       exists m', movers w' = <[i := m']> (movers w)
                  /\ episode (beh m') = fst (rotation w m)
                  /\ episodeCounts w'
                     = counts_bump Episode_eqb (snd (rotation w m)) (fst (rotation w m))) w.
Proof.
  intros Hm Hd Hr He. unfold updateMover. do 2 ystep. rewrite Hm, Hd.
  apply yields_bind.
  eapply yields_weaken; [| apply (updateLive_counts f i m w Hr He)].
  intros m' w1 (Hms & E & C). cbv beta. ystep.
  exists m'. rewrite Hms. repeat split; assumption.
Qed.

(** A frame on a single live mover whose episode has expired, and whose
    role has not. *)
Lemma updateFrame_single_rotation (dtN playerSpeed : R) (w : World) (c : Canvas)
    (m : Mover) :
  moversEnabled (cfg w) = true -> movers w = [m] -> canvas w = Some c ->
  dead (combat m) = false ->
  ~ roleExpires (beh m) < clock w -> episodeExpires (beh m) < clock w ->
  returns (updateFrame dtN playerSpeed)
    (fun _ w' =>
       exists m', movers w' = [m']
                  /\ episode (beh m') = fst (rotation w m)
                  /\ episodeCounts w'
                     = counts_bump Episode_eqb (snd (rotation w m)) (fst (rotation w m))) w.
Proof.
  intros Hen Hms Hc Hd Hr He. unfold updateFrame. do 4 jstep. rewrite Hen, Hms.
  cbn [length Nat.eqb negb orb]. do 3 jstep. eapply returns_arenaLimits; [exact Hc |].
  do 10 jstep. rewrite Hms.
  match goal with
  | |- returns (jforM _ (fun i w => let (_, w') := updateMover ?f i w in _)) _ ?w1 =>
      set (fr := f); set (w0 := w1)
  end.
  cbn [seq jforM]. apply returns_bind. unfold returns at 1. cbv beta.
  pose proof (updateMover_counts fr 0 m w0) as Hu. unfold yields in Hu.
  destruct (updateMover fr 0 w0) as [u w1]. cbn [fst snd] in Hu.
  destruct Hu as (m' & Hms' & E & C); try assumption;
    [subst w0; cbn; rewrite Hms; reflexivity |].
  exists tt, w1. split; [reflexivity |]. apply returns_ret.
  exists m'. split; [rewrite Hms'; subst w0; cbn; rewrite Hms; reflexivity |].
  split; assumption.
Qed.

Lemma updateMovers_single_rotation (dtN playerSpeed : R) (w : World) (c : Canvas)
    (m : Mover) :
  reconciled w -> movers w = [m] -> canvas w = Some c ->
  dead (combat m) = false ->
  ~ roleExpires (beh m) < clock w -> episodeExpires (beh m) < clock w ->
  returns (updateMovers dtN playerSpeed)
    (fun _ w' =>
       exists m', movers w' = [m']
                  /\ episode (beh m') = fst (rotation w m)
                  /\ episodeCounts w'
                     = counts_bump Episode_eqb (snd (rotation w m)) (fst (rotation w m))) w.
Proof.
  intros Hrec Hms Hc Hd Hr He. pose proof Hrec as (Hen & _ & _).
  unfold returns. rewrite updateMovers_run, (ensureMoversCount_reconciled w Hrec).
  set (w0 := set_cfg _ w).
  destruct (updateFrame_single_rotation dtN playerSpeed w0 c m)
    as (a & w' & Hrun & m' & H1 & H2 & H3); try assumption.
  exists a, w'. split; [exact Hrun |].
  exists m'. split; [exact H1 |]. split; [exact H2 | exact H3].
Qed.

(** The state once the canvas is there: the default configuration
    (three movers), no mover yet, empty pools. *)
Definition arenaWorld : World :=
  {| cfg := defaultConfig; canvas := Some {| width := 1280; height := 720 |};
     rollAngle := 0; player := {| p_x := 0; p_y := 0 |}; targets := []; movers := [];
     heatMap := heatMap_init; roleCounts := []; episodeCounts := [];
     clock := 0; rng := zeroRng; crosshairFlashUntil := 0; missFlashUntil := 0;
     lastSuccessAt := 0 |}.

(** The number of movers that hold the role [r]. *)
Definition holdersOf (r : Role) (w : World) : nat :=
  length (List.filter (Role_eqb r) (rolesOf w)).

Lemma ensureMoversCount_arena :
  returns ensureMoversCount
    (fun _ w' => canvas w' = canvas arenaWorld /\ zero_tape w'
                 /\ rolesOf w' = [Runner; Runner; Dancer]
                 /\ roleCounts w'
                    = [(Runner, 2%nat); (Dancer, 1%nat); (Trickster, 0%nat); (Kiter, 0%nat)])
    arenaWorld.
Proof.
  unfold returns. rewrite ensureMoversCount_run. cbv zeta.
  change (if moversEnabled (cfg arenaWorld)
          then clampZ (toInt32 (moversCount (cfg arenaWorld))) 0 5 else 0%Z) with 3%Z.
  cbn [Z.eqb].
  set (w0 := set_cfg (set_moversCount 3 (cfg arenaWorld)) arenaWorld).
  change (Z.to_nat 3 - length (movers w0))%nat with 3%nat.
  destruct (pushSpawned_roles {| width := 1280; height := 720 |} 3 w0)
    as ([] & w1 & -> & Hb & He); [reflexivity | intros n; reflexivity |].
  change (pushRoles 3 (rolesOf w0) (roleCounts w0))
    with ([Runner; Runner; Dancer],
          [(Runner, 2%nat); (Dancer, 1%nat); (Trickster, 0%nat); (Kiter, 0%nat)]) in He.
  injection He as Hroles Hcounts.
  exists tt. eexists. split; [reflexivity |].
  assert (Hlen : length (movers w1) = 3%nat).
  { apply (f_equal length) in Hroles. unfold rolesOf in Hroles.
    rewrite length_fmap in Hroles. exact Hroles. }
  assert (Htake : take (Z.to_nat 3) (movers w1) = movers w1)
    by (apply take_ge; rewrite Hlen; cbn; lia).
  split; [cbn; rewrite (sb_canvas _ _ Hb); reflexivity |].
  split; [intros n; cbn; rewrite (sb_tape _ _ Hb); reflexivity |].
  split; [unfold rolesOf; cbn [movers set_movers]; rewrite Htake; exact Hroles |].
  exact Hcounts.
Qed.

(** A mover whose episode has expired at time 1000, and whose role has
    not. *)
Definition expiredMover : Mover :=
  set_beh {| role := Runner; roleExpires := 1000000;
             episode := Explore; episodeExpires := 500; fleeSide := 1 |}
          (sampleMover (hitCombat 0 0) (fresh_anchor 0)).

(** C4 fails in the code.  With [Math.random()] returning 0 and the
    default configuration, [ensureMoversCount] followed by six calls of
    [respawnMover] on the third mover leaves all three movers with the
    role Runner, above [ROLE_MAX_COUNT] = 2, and [roleCounts] at
    4, 2, 2, 1 for three movers.  And one frame of [updateMovers] on a
    single mover whose episode has expired leaves [episodeCounts] at 2
    for the episode of that one mover: the expiry counts the new
    episode twice. *)
Theorem pools_overcount_and_roles_pile_up :
  returns (run _ <- ensureMoversCount; jforM (replicate 6 2%nat) respawnMover)
    (fun _ w' =>
       rolesOf w' = [Runner; Runner; Runner]
       /\ (ROLE_MAX_COUNT < holdersOf Runner w')%nat
       /\ roleCounts w'
          = [(Runner, 4%nat); (Dancer, 2%nat); (Trickster, 2%nat); (Kiter, 1%nat)])
    arenaWorld
  /\ returns (updateMovers 1 0)
       (fun _ w' =>
          exists m', movers w' = [m'] /\ episode (beh m') = Explore
                     /\ episodeCounts w'
                        = [(Explore, 2%nat); (Perform, 0%nat); (Evade, 0%nat);
                           (Kite, 0%nat)])
       (sampleWorld true 1000 expiredMover).
Proof.
  split.
  - apply returns_bind.
    eapply returns_weaken; [| apply ensureMoversCount_arena].
    intros [] w1 (Hc & Hz & Hroles & Hcounts). cbv beta.
    assert (Hlen : length (movers w1) = 3%nat).
    { apply (f_equal length) in Hroles. unfold rolesOf in Hroles.
      rewrite length_fmap in Hroles. exact Hroles. }
    eapply returns_weaken;
      [| apply (respawnMover_repeat_roles {| width := 1280; height := 720 |} 2 6 w1 Hc Hz);
         rewrite Hlen; lia].
    intros [] w' (_ & He). cbv beta. rewrite Hroles, Hcounts in He.
    change (Nat.iter 6 (respawnRole 2)
              ([Runner; Runner; Dancer],
               [(Runner, 2%nat); (Dancer, 1%nat); (Trickster, 0%nat); (Kiter, 0%nat)]))
      with ([Runner; Runner; Runner],
            [(Runner, 4%nat); (Dancer, 2%nat); (Trickster, 2%nat); (Kiter, 1%nat)]) in He.
    injection He as Hr Hk. unfold holdersOf. rewrite Hr, Hk.
    split; [reflexivity |]. split; [cbn; unfold ROLE_MAX_COUNT; lia | reflexivity].
  - eapply returns_weaken;
      [| apply (updateMovers_single_rotation 1 0 (sampleWorld true 1000 expiredMover)
                  {| width := 1280; height := 720 |} expiredMover);
         [apply sampleWorld_reconciled | reflexivity | reflexivity | reflexivity
         | cbn; lra | cbn; lra]].
    intros [] w' (m' & Hms & He & Hc). cbv beta.
    assert (Hrot : rotation (sampleWorld true 1000 expiredMover) expiredMover
                   = (Explore, [(Explore, 1%nat); (Perform, 0%nat); (Evade, 0%nat);
                                (Kite, 0%nat)])).
    { unfold rotation, pickEpisode. rewrite pick_at_zero by reflexivity. reflexivity. }
    rewrite Hrot in He, Hc. exists m'. split; [exact Hms |]. split; [exact He | exact Hc].
Qed.

(** ** A frame without a canvas (C8) *)

(** Without a canvas [ensureMoversCount] stores the wanted count; it
    then empties the collection when the count is 0, throws when it has
    a mover to spawn, and cuts the collection to the count otherwise. *)
Lemma ensureMoversCount_null_canvas (w : World) :
  canvas w = None ->
  ensureMoversCount w
  = let n := wantedCount (cfg w) in
    let w0 := set_cfg (set_moversCount n (cfg w)) w in
    if (n =? 0)%Z then (Val tt, set_movers [] w0)
    else if (length (movers w) <? Z.to_nat n)%nat then (Throw, w0)
    else (Val tt, set_movers (take (Z.to_nat n) (movers w)) w0).
Proof.
  intros Hc. rewrite ensureMoversCount_run. cbv zeta. fold (wantedCount (cfg w)).
  set (n := wantedCount (cfg w)).
  set (w0 := set_cfg (set_moversCount n (cfg w)) w).
  destruct (n =? 0)%Z; [reflexivity |].
  change (movers w0) with (movers w).
  destruct (Nat.ltb_spec (length (movers w)) (Z.to_nat n)) as [Hlt | Hge].
  - destruct (Z.to_nat n - length (movers w))%nat as [| k] eqn:Hk; [lia |].
    cbn [pushSpawned]. unfold jbind at 1.
    rewrite spawnMoverInWindow_null_canvas by exact Hc. reflexivity.
  - replace (Z.to_nat n - length (movers w))%nat with 0%nat by lia.
    reflexivity.
Qed.

(** Without a canvas the frame returns at once when the movers are
    disabled or there is none, and throws at [canvasRef.width]
    otherwise; it changes nothing. *)
Lemma updateFrame_null_canvas_run (dtN playerSpeed : R) (w : World) :
  canvas w = None ->
  updateFrame dtN playerSpeed w
  = (if negb (moversEnabled (cfg w)) || (length (movers w) =? 0)%nat
     then Val tt else Throw, w).
Proof.
  intros Hc. unfold updateFrame. unfold jbind at 1 2. unfold get at 1 2. cbv beta iota.
  destruct (negb (moversEnabled (cfg w)) || (length (movers w) =? 0)%nat); [reflexivity |].
  unfold jbind at 1. unfold nowMs, get at 1. cbv beta iota.
  unfold jbind at 1. unfold arenaLimits. rewrite Hc. reflexivity.
Qed.

(** C8, as amended.  Let [n] be the wanted count: 0 when the movers are
    disabled, else [CFG.moversCount | 0] clamped to 0..5.  While the
    canvas is null both operations store [n] in [CFG.moversCount] and
    neither adds nor alters a mover.  When [n] is 0 both return
    normally and leave the collection empty.  When [n] is not 0 and the
    collection holds fewer than [n] movers, both throw a [TypeError]
    ([spawnMoverInWindow] reads [canvas.width]) and leave the
    collection as it was.  When [n] is not 0 and the collection holds
    [n] movers or more, [ensureMoversCount] returns normally with the
    collection cut to its first [n] movers, and [updateMovers] cuts it
    in the same way and then throws a [TypeError] (the frame reads
    [canvasRef.width]). *)
Theorem without_canvas_returns_or_throws (dtN playerSpeed : R) (w : World) :
  canvas w = None ->
  let n := wantedCount (cfg w) in
  let w0 := set_cfg (set_moversCount n (cfg w)) w in
  (n = 0%Z ->
   ensureMoversCount w = (Val tt, set_movers [] w0)
   /\ updateMovers dtN playerSpeed w = (Val tt, set_movers [] w0))
  /\ (n <> 0%Z -> (length (movers w) < Z.to_nat n)%nat ->
      ensureMoversCount w = (Throw, w0)
      /\ updateMovers dtN playerSpeed w = (Throw, w0))
  /\ (n <> 0%Z -> (Z.to_nat n <= length (movers w))%nat ->
      ensureMoversCount w = (Val tt, set_movers (take (Z.to_nat n) (movers w)) w0)
      /\ updateMovers dtN playerSpeed w
         = (Throw, set_movers (take (Z.to_nat n) (movers w)) w0)).
Proof.
  intros Hc. cbv zeta.
  pose proof (ensureMoversCount_null_canvas w Hc) as He. cbv zeta in He.
  pose proof (wantedCount_range (cfg w)) as Hn.
  set (n := wantedCount (cfg w)) in *.
  set (w0 := set_cfg (set_moversCount n (cfg w)) w) in *.
  split; [| split].
  - intros Hz. rewrite Hz in He. cbn [Z.eqb] in He.
    split; [exact He |]. rewrite updateMovers_run, He.
    rewrite updateFrame_null_canvas_run by exact Hc.
    cbn [movers set_movers length Nat.eqb]. rewrite orb_true_r. reflexivity.
  - intros Hz Hlt. apply Z.eqb_neq in Hz. rewrite Hz in He.
    apply Nat.ltb_lt in Hlt. rewrite Hlt in He.
    split; [exact He |]. rewrite updateMovers_run, He. reflexivity.
  - intros Hz Hge. pose proof Hz as Hz'. apply Z.eqb_neq in Hz. rewrite Hz in He.
    pose proof Hge as Hge'. apply Nat.ltb_ge in Hge'.
    rewrite Hge' in He.
    split; [exact He |]. rewrite updateMovers_run, He.
    rewrite updateFrame_null_canvas_run by exact Hc.
    assert (Hen : moversEnabled (cfg w) = true).
    { unfold n, wantedCount in Hz'. destruct (moversEnabled (cfg w)); [reflexivity | lia]. }
    cbn [cfg set_movers set_cfg moversEnabled set_moversCount movers].
    change (moversEnabled (cfg w0)) with (moversEnabled (cfg w)). rewrite Hen.
    rewrite length_take.
    replace (Z.to_nat n `min` length (movers w) =? 0)%nat with false
      by (symmetry; apply Nat.eqb_neq; lia).
    reflexivity.
Qed.

(** The arena-less state with the movers switched off. *)
Definition idleWorld : World :=
  set_cfg {| regenOnHit := true; moversEnabled := false; moversCount := 3;
             moversSpeed := 1.00; moversAvoid := 1.00; moversR := 14;
             moversFlee := false; moversHit1Boost := 0.40; moversHit2Boost := 0.60 |}
    initialWorld.

Lemma without_canvas_returns_or_throws_witness :
  (ensureMoversCount initialWorld = (Throw, initialWorld)
   /\ updateMovers 1 0 initialWorld = (Throw, initialWorld))
  /\ fst (updateMovers 1 0 idleWorld) = Val tt.
Proof.
  destruct (without_canvas_returns_or_throws 1 0 initialWorld eq_refl) as (_ & H & _).
  destruct (without_canvas_returns_or_throws 1 0 idleWorld eq_refl) as (H' & _).
  cbv zeta in H, H'. split.
  - apply H; vm_compute; [discriminate | lia].
  - destruct H' as [_ ->]; reflexivity.
Defined.

(** C8 fails as stated: before the canvas is set, with the default
    configuration (movers enabled, 3 of them wanted, none there), both
    operations throw instead of returning normally. *)
Lemma null_canvas_throws_counterexample :
  canvas initialWorld = None
  /\ fst (ensureMoversCount initialWorld) = Throw
  /\ fst (updateMovers 1 0 initialWorld) = Throw.
Proof.
  split; [reflexivity |].
  pose proof (ensureMoversCount_null_canvas initialWorld eq_refl) as He.
  cbv zeta in He.
  assert (Hn : wantedCount (cfg initialWorld) = 3%Z) by (vm_compute; reflexivity).
  rewrite Hn in He. cbn [Z.eqb] in He.
  change (length (movers initialWorld) <? Z.to_nat 3)%nat with true in He.
  cbv iota in He.
  split; [rewrite He; reflexivity |].
  rewrite updateMovers_run, He. reflexivity.
Qed.

(** * The rest of the code: helpers, callers and sibling modules *)

(** ** utils/math.js *)

Definition DEADZONE : R := 0.12.
Definition NOISE_SNAP : R := 0.02.

(** [dz(v)]: the dead zone of the stick. *)
Definition dz (v : R) : R := if Rlt_b (Rabs v) DEADZONE then 0 else v.

(** [snap0(v)]: small noise snapped to zero. *)
Definition snap0 (v : R) : R := if Rlt_b (Rabs v) NOISE_SNAP then 0 else v.

(** A number as these helpers may receive it: a real number, an
    infinity or NaN. *)
Inductive Num := Real (x : R) | Infinity | NegInfinity | NaN.

(** [Number.isFinite(v)] *)
Definition isFinite (v : Num) : bool :=
  match v with Real _ => true | _ => false end.

(** The value of a finite number. *)
Definition realOf (v : Num) : R :=
  match v with Real x => x | _ => 0 end.

(** [cleanAxis(v)]: a value that is not finite is replaced by 0. *)
Definition cleanAxis (v : Num) : R :=
  let v := if negb (isFinite v) then 0 else realOf v in
  let v := clamp v (-1) 1 in
  let v := dz v in
  let v := snap0 v in
  v.

(** [dominantAxis(x, y)] *)
Definition dominantAxis (x y : R) : Vec2 :=
  let ax := Rabs x in
  let ay := Rabs y in
  if Rlt_b ay ax then {| vx := x; vy := 0 |}
  else if Rlt_b ax ay then {| vx := 0; vy := y |}
  else {| vx := 0; vy := 0 |}.

(** [Math.sign] *)
Definition sign (v : R) : R := if Rlt_b 0 v then 1 else if Rlt_b v 0 then -1 else 0.

(** [Math.pow(x, e)] for a base [x >= 0]: at the base 0 it is 0 for a
    positive exponent, 1 for the exponent 0 and [Infinity] for a
    negative exponent. *)
Definition mathPow (x e : R) : Num :=
  if Rlt_b 0 x then Real (Rpower x e)
  else if Rlt_b 0 e then Real 0
  else if Rlt_b e 0 then Infinity
  else Real 1.

(** [s * p] for a finite [s]: zero times an infinity is NaN. *)
Definition times (s : R) (p : Num) : Num :=
  match p with
  | Real y => Real (s * y)
  | Infinity => if Rlt_b 0 s then Infinity else if Rlt_b s 0 then NegInfinity else NaN
  | NegInfinity => if Rlt_b 0 s then NegInfinity else if Rlt_b s 0 then Infinity else NaN
  | NaN => NaN
  end.

(** [- p] *)
Definition negate (p : Num) : Num :=
  match p with
  | Real y => Real (- y)
  | Infinity => NegInfinity
  | NegInfinity => Infinity
  | NaN => NaN
  end.

(** [applyJCurve(v, cp, va)] for a finite axis value [v]. *)
Definition applyJCurve (v cp va : R) : Num :=
  let sign := sign v in
  let x := Rabs v in
  let expo := 1.0 + (cp * 0.03) + ((10 - va) * 0.18) in
  times sign (mathPow x expo).

Lemma clamp_cases (v a b : R) :
  a <= b ->
  (v < a /\ clamp v a b = a) \/ (a <= v <= b /\ clamp v a b = v)
  \/ (b < v /\ clamp v a b = b).
Proof.
  intros Hab. unfold clamp.
  destruct (Rlt_le_dec v a) as [H | H].
  - left. split; [exact H |]. rewrite Rmin_right by lra. apply Rmax_left. lra.
  - destruct (Rle_lt_dec v b) as [H' | H'].
    + right. left. split; [lra |]. rewrite Rmin_right by lra. apply Rmax_right. lra.
    + right. right. split; [exact H' |]. rewrite Rmin_left by lra. apply Rmax_right. lra.
Qed.

(** X1.  [clamp(v, a, b)] with [a <= b] lies in [[a, b]], leaves a
    value of that range alone and is idempotent; with the bounds in the
    wrong order ([b < a]) it returns the lower bound [a], whatever [v]. *)
Theorem clamp_range_and_crossed_bounds (v a b : R) :
  (a <= b -> a <= clamp v a b <= b
             /\ (a <= v <= b -> clamp v a b = v)
             /\ clamp (clamp v a b) a b = clamp v a b)
  /\ (b < a -> clamp v a b = a).
Proof.
  split.
  - intros Hab.
    assert (Hr : a <= clamp v a b <= b)
      by (destruct (clamp_cases v a b Hab) as [[_ ->] | [[? ->] | [_ ->]]]; lra).
    split; [exact Hr |]. split.
    + intros Hv. destruct (clamp_cases v a b Hab) as [[? _] | [[_ E] | [? _]]];
        [lra | exact E | lra].
    + destruct (clamp_cases (clamp v a b) a b Hab) as [[? _] | [[_ E] | [? _]]];
        [lra | exact E | lra].
  - intros Hba. unfold clamp. apply Rmax_left.
    pose proof (Rmin_l b v). lra.
Qed.

Lemma clamp_range_and_crossed_bounds_witness :
  (4 <= clamp 14 4 220 <= 220 /\ (4 <= 14 <= 220 -> clamp 14 4 220 = 14)
   /\ clamp (clamp 14 4 220) 4 220 = clamp 14 4 220)
  /\ clamp 14 4 2 = 4.
Proof.
  destruct (clamp_range_and_crossed_bounds 14 4 220) as [H _].
  destruct (clamp_range_and_crossed_bounds 14 4 2) as [_ H'].
  split; [apply H; lra | apply H'; lra].
Defined.

Lemma dz_cases (v : R) : (Rabs v < DEADZONE /\ dz v = 0) \/ (DEADZONE <= Rabs v /\ dz v = v).
Proof.
  unfold dz. destruct (Rlt_b_spec (Rabs v) DEADZONE) as [H | H];
    [left | right]; split; try reflexivity; lra.
Qed.

(** [cleanAxis] of a real number. *)
Lemma cleanAxis_real (v : R) :
  -1 <= cleanAxis (Real v) <= 1
  /\ (Rabs v < DEADZONE -> cleanAxis (Real v) = 0)
  /\ (DEADZONE <= Rabs v ->
      cleanAxis (Real v) = clamp v (-1) 1 /\ DEADZONE <= Rabs (cleanAxis (Real v)))
  /\ cleanAxis (Real v) = dz (clamp v (-1) 1).
Proof.
  assert (Hc : -1 <= 1) by lra.
  assert (E : cleanAxis (Real v) = dz (clamp v (-1) 1)).
  { unfold cleanAxis. cbv zeta. cbn [isFinite negb realOf]. unfold snap0.
    destruct (dz_cases (clamp v (-1) 1)) as [[_ ->] | [Hd ->]].
    - rewrite Rabs_R0, Rlt_b_true by (unfold NOISE_SNAP; lra). reflexivity.
    - rewrite Rlt_b_false by (unfold NOISE_SNAP, DEADZONE in *; lra). reflexivity. }
  assert (Habs : Rabs v < DEADZONE -> Rabs (clamp v (-1) 1) < DEADZONE).
  { intros Hv. unfold DEADZONE in *.
    destruct (clamp_cases v (-1) 1 Hc) as [[H1 ->] | [[H1 ->] | [H1 ->]]];
      revert Hv; unfold Rabs; repeat destruct (Rcase_abs _); intros; lra. }
  assert (Hbig : DEADZONE <= Rabs v -> DEADZONE <= Rabs (clamp v (-1) 1)).
  { intros Hv. unfold DEADZONE in *.
    destruct (clamp_cases v (-1) 1 Hc) as [[H1 ->] | [[H1 ->] | [H1 ->]]];
      revert Hv; unfold Rabs; repeat destruct (Rcase_abs _); intros; lra. }
  split; [| split; [| split; [| exact E]]].
  - rewrite E. destruct (dz_cases (clamp v (-1) 1)) as [[_ ->] | [_ ->]]; [lra |].
    destruct (clamp_cases v (-1) 1 Hc) as [[_ ->] | [[? ->] | [_ ->]]]; lra.
  - intros Hv. rewrite E.
    destruct (dz_cases (clamp v (-1) 1)) as [[_ ->] | [Hd _]]; [reflexivity |].
    specialize (Habs Hv). lra.
  - intros Hv. rewrite E. specialize (Hbig Hv).
    destruct (dz_cases (clamp v (-1) 1)) as [[Hd _] | [_ ->]]; [lra |].
    split; [reflexivity | exact Hbig].
Qed.

Lemma cleanAxis_not_finite (v : Num) : isFinite v = false -> cleanAxis v = 0.
Proof.
  intros H. unfold cleanAxis. rewrite H. cbv zeta. cbn [negb].
  destruct (clamp_cases 0 (-1) 1 ltac:(lra)) as [[H1 _] | [[_ ->] | [H1 _]]]; [lra | | lra].
  unfold dz. rewrite Rabs_R0, (Rlt_b_true 0 DEADZONE) by (unfold DEADZONE; lra).
  unfold snap0. rewrite Rabs_R0, (Rlt_b_true 0 NOISE_SNAP) by (unfold NOISE_SNAP; lra).
  reflexivity.
Qed.

(** X2.  [cleanAxis(v)] lies in [[-1, 1]] for every number [v].  For an
    infinity and for NaN it is 0.  For a real number it is 0 exactly
    when the input is inside the dead zone ([|v| < 0.12]); otherwise it
    is the input clamped to [[-1, 1]], so its magnitude is at least the
    dead zone: the noise snap after the dead zone never changes the
    value. *)
Theorem cleanAxis_dead_zone (v : Num) :
  -1 <= cleanAxis v <= 1
  /\ (isFinite v = false -> cleanAxis v = 0)
  /\ (forall x, v = Real x ->
        (Rabs x < DEADZONE -> cleanAxis v = 0)
        /\ (DEADZONE <= Rabs x ->
            cleanAxis v = clamp x (-1) 1 /\ DEADZONE <= Rabs (cleanAxis v))
        /\ cleanAxis v = dz (clamp x (-1) 1)).
Proof.
  split; [| split].
  - destruct v as [x | | |];
      [apply (cleanAxis_real x) | rewrite cleanAxis_not_finite by reflexivity; lra ..].
  - apply cleanAxis_not_finite.
  - intros x ->. destruct (cleanAxis_real x) as (_ & H1 & H2 & H3).
    split; [exact H1 |]. split; [exact H2 | exact H3].
Qed.

Lemma cleanAxis_dead_zone_witness :
  cleanAxis (Real 0.05) = 0
  /\ (cleanAxis (Real 1.7) = clamp 1.7 (-1) 1 /\ DEADZONE <= Rabs (cleanAxis (Real 1.7)))
  /\ cleanAxis Infinity = 0 /\ cleanAxis NaN = 0.
Proof.
  destruct (cleanAxis_dead_zone (Real 0.05)) as (_ & _ & H).
  destruct (cleanAxis_dead_zone (Real 1.7)) as (_ & _ & H').
  destruct (cleanAxis_dead_zone Infinity) as (_ & Hi & _).
  destruct (cleanAxis_dead_zone NaN) as (_ & Hn & _).
  destruct (H 0.05 eq_refl) as (H1 & _). destruct (H' 1.7 eq_refl) as (_ & H2 & _).
  split; [| split; [| split]].
  - apply H1. unfold DEADZONE. rewrite Rabs_pos_eq; lra.
  - apply H2. unfold DEADZONE. rewrite Rabs_pos_eq; lra.
  - apply Hi. reflexivity.
  - apply Hn. reflexivity.
Defined.

(** X3.  [dominantAxis(x, y)] keeps the component of larger magnitude
    and zeroes the other; when the magnitudes are equal both components
    are zeroed, also when they are equal and not zero. *)
Theorem dominantAxis_keeps_one (x y : R) :
  (Rabs y < Rabs x -> dominantAxis x y = {| vx := x; vy := 0 |})
  /\ (Rabs x < Rabs y -> dominantAxis x y = {| vx := 0; vy := y |})
  /\ (Rabs x = Rabs y -> dominantAxis x y = {| vx := 0; vy := 0 |})
  /\ (vx (dominantAxis x y) = 0 \/ vy (dominantAxis x y) = 0).
Proof.
  unfold dominantAxis. cbv zeta.
  destruct (Rlt_b_spec (Rabs y) (Rabs x)) as [H1 | H1];
    [| destruct (Rlt_b_spec (Rabs x) (Rabs y)) as [H2 | H2]].
  - split; [reflexivity |]. split; [intros; lra |]. split; [intros; lra |].
    right; reflexivity.
  - split; [intros; lra |]. split; [reflexivity |]. split; [intros; lra |].
    left; reflexivity.
  - split; [intros; lra |]. split; [intros; lra |]. split; [reflexivity |].
    left; reflexivity.
Qed.

Lemma dominantAxis_keeps_one_witness :
  dominantAxis 0.5 (-0.2) = {| vx := 0.5; vy := 0 |}
  /\ dominantAxis 0.5 (-0.5) = {| vx := 0; vy := 0 |}.
Proof.
  destruct (dominantAxis_keeps_one 0.5 (-0.2)) as (H & _).
  destruct (dominantAxis_keeps_one 0.5 (-0.5)) as (_ & _ & H' & _).
  split.
  - apply H. rewrite (Rabs_left (-0.2)), (Rabs_pos_eq 0.5); lra.
  - apply H'. rewrite (Rabs_left (-0.5)), (Rabs_pos_eq 0.5); lra.
Defined.

(** X4.  For a rotation ([cos^2 + sin^2 = 1]) [screenToWorld] and
    [worldToScreen] are inverse to each other, in both orders, and
    [worldToScreen] keeps the distance to the origin. *)
Theorem screen_world_round_trip (a b c s : R) :
  s * s + c * c = 1 ->
  (let w := screenToWorld a b c s in
   worldToScreen (dx w) (dy w) c s = {| sx := a; sy := b |})
  /\ (let p := worldToScreen a b c s in
      screenToWorld (sx p) (sy p) c s = {| dx := a; dy := b |})
  /\ (let p := worldToScreen a b c s in hypot (sx p) (sy p) = hypot a b).
Proof.
  intros H. cbv zeta. unfold screenToWorld, worldToScreen, hypot. cbn [dx dy sx sy].
  split; [| split].
  - f_equal.
    + transitivity (a * (s * s + c * c)); [ring | rewrite H; ring].
    + transitivity (b * (s * s + c * c)); [ring | rewrite H; ring].
  - f_equal.
    + transitivity (a * (s * s + c * c)); [ring | rewrite H; ring].
    + transitivity (b * (s * s + c * c)); [ring | rewrite H; ring].
  - f_equal. transitivity ((a * a + b * b) * (s * s + c * c)); [ring | rewrite H; ring].
Qed.

Lemma screen_world_round_trip_witness :
  let w := screenToWorld 3 4 (cos 1) (sin 1) in
  worldToScreen (dx w) (dy w) (cos 1) (sin 1) = {| sx := 3; sy := 4 |}.
Proof.
  cbv zeta. apply (screen_world_round_trip 3 4 (cos 1) (sin 1)). apply sin_cos_unit.
Defined.

Lemma Rpower_le_base (x e : R) : 0 < x <= 1 -> 1 <= e -> Rpower x e <= x.
Proof.
  intros [H0 H1] He. unfold Rpower.
  rewrite <- (exp_ln x) at 2 by exact H0.
  assert (Hln : ln x <= 0).
  { destruct (Req_dec x 1) as [-> | Hne]; [rewrite ln_1; lra |].
    left. rewrite <- ln_1. apply ln_increasing; lra. }
  destruct (Req_dec (e * ln x) (ln x)) as [-> | Hne]; [lra |].
  left. apply exp_increasing. nra.
Qed.

Lemma sign_opp (v : R) : sign (- v) = - sign v.
Proof.
  unfold sign.
  destruct (Rlt_b_spec 0 v), (Rlt_b_spec v 0), (Rlt_b_spec 0 (- v)), (Rlt_b_spec (- v) 0);
    lra.
Qed.

Lemma times_opp (s : R) (p : Num) : times (- s) p = negate (times s p).
Proof.
  destruct p as [y | | |]; cbn [times negate]; [f_equal; ring | | | reflexivity];
    destruct (Rlt_b_spec 0 s), (Rlt_b_spec s 0), (Rlt_b_spec 0 (- s)), (Rlt_b_spec (- s) 0);
    try reflexivity; lra.
Qed.

(** X5.  [applyJCurve] is an odd function of the axis value: the result
    at [-v] is the negation of the result at [v], whatever the
    parameters.  With a control point [cp >= 0] and [va <= 10] (the
    ranges of the sliders) the exponent is at least 1, and for an axis
    value in [[-1, 1]] the result is a real number: the curve keeps the
    sign, never raises the magnitude, and maps 0 to 0 and the ends -1
    and 1 to themselves.  With parameters that make the exponent
    negative the result at 0 is NaN, as [Math.pow(0, e)] is [Infinity]
    there. *)
Theorem applyJCurve_softens (v cp va : R) :
  applyJCurve (- v) cp va = negate (applyJCurve v cp va)
  /\ (0 <= cp -> va <= 10 -> -1 <= v <= 1 ->
      (exists y, applyJCurve v cp va = Real y /\ Rabs y <= Rabs v /\ 0 <= y * v)
      /\ applyJCurve 0 cp va = Real 0
      /\ applyJCurve 1 cp va = Real 1 /\ applyJCurve (-1) cp va = Real (-1))
  /\ (1.0 + (cp * 0.03) + ((10 - va) * 0.18) < 0 -> applyJCurve 0 cp va = NaN).
Proof.
  split; [| split].
  - unfold applyJCurve. cbv zeta. rewrite sign_opp, Rabs_Ropp. apply times_opp.
  - intros Hcp Hva Hv.
    set (expo := 1.0 + cp * 0.03 + (10 - va) * 0.18).
    assert (He : 1 <= expo) by (unfold expo; nra).
    assert (Hone : forall x, x = 1 \/ x = -1 -> applyJCurve x cp va = Real x).
    { intros x Hx. unfold applyJCurve. cbv zeta. fold expo.
      assert (Rabs x = 1) as -> by (destruct Hx as [-> | ->];
                                    [apply Rabs_pos_eq | rewrite Rabs_left]; lra).
      unfold mathPow. rewrite Rlt_b_true by lra. cbn [times]. f_equal.
      unfold Rpower. rewrite ln_1, Rmult_0_r, exp_0.
      unfold sign. destruct Hx as [-> | ->].
      - rewrite Rlt_b_true by lra. lra.
      - rewrite Rlt_b_false, Rlt_b_true by lra. lra. }
    assert (Hzero : applyJCurve 0 cp va = Real 0).
    { unfold applyJCurve. cbv zeta. fold expo. unfold mathPow, sign.
      rewrite Rabs_R0. rewrite (Rlt_b_false 0 0) by lra.
      rewrite (Rlt_b_true 0 expo) by lra. cbn [times]. f_equal. lra. }
    split; [| split; [exact Hzero | split; apply Hone; auto]].
    unfold applyJCurve. cbv zeta. fold expo.
    assert (Hp : exists p, mathPow (Rabs v) expo = Real p /\ 0 <= p <= Rabs v).
    { unfold mathPow. pose proof (Rabs_pos v) as Hpos.
      destruct (Rlt_b_spec 0 (Rabs v)) as [Hlt | Hge].
      - eexists. split; [reflexivity |]. split; [left; apply exp_pos |].
        apply Rpower_le_base; [| exact He]. split; [exact Hlt |].
        apply Rabs_le. lra.
      - rewrite (Rlt_b_true 0 expo) by lra. exists 0. split; [reflexivity | lra]. }
    destruct Hp as (p & -> & Hp). cbn [times]. eexists. split; [reflexivity |].
    split.
    + rewrite Rabs_mult.
      assert (Hs : Rabs (sign v) <= 1).
      { unfold sign. destruct (Rlt_b 0 v); [rewrite Rabs_pos_eq; lra |].
        destruct (Rlt_b v 0); [rewrite Rabs_left; lra | rewrite Rabs_R0; lra]. }
      rewrite (Rabs_pos_eq p) by lra.
      pose proof (Rabs_pos (sign v)). nra.
    + unfold sign.
      destruct (Rlt_b_spec 0 v) as [H1 | H1]; [nra |].
      destruct (Rlt_b_spec v 0) as [H2 | H2]; nra.
  - intros He. unfold applyJCurve. cbv zeta. unfold mathPow, sign.
    rewrite Rabs_R0. rewrite !(Rlt_b_false 0 0) by lra.
    rewrite Rlt_b_false by lra. rewrite Rlt_b_true by lra.
    cbn [times]. rewrite (Rlt_b_false 0 0) by lra. reflexivity.
Qed.

Lemma applyJCurve_softens_witness :
  (exists y, applyJCurve 0.5 25 8 = Real y /\ Rabs y <= Rabs 0.5 /\ 0 <= y * 0.5)
  /\ applyJCurve 0 0 100 = NaN.
Proof.
  destruct (applyJCurve_softens 0.5 25 8) as (_ & H & _).
  destruct (applyJCurve_softens 0 0 100) as (_ & _ & H').
  split.
  - destruct H as (H1 & _); [lra | lra | lra |]. exact H1.
  - apply H'. lra.
Defined.

(** X6.  With [Math.random()] in [[0, 1)], [rand(a, b)] with
    [a <= b] lies in [[a, b]], and below [b] when [a < b]; it reads
    exactly one cell of the tape. *)
Theorem rand_range (a b : R) (g : Rng) :
  tape_ok g -> a <= b ->
  a <= fst (rand a b g) <= b
  /\ (a < b -> fst (rand a b g) < b)
  /\ cursor (snd (rand a b g)) = S (cursor g)
  /\ tape (snd (rand a b g)) = tape g.
Proof.
  intros Hg Hab. unfold rand, bind, random, ret. cbn [fst snd cursor tape].
  pose proof (Hg (cursor g)) as Hu.
  split; [split; nra |]. split; [intros; nra |]. split; reflexivity.
Qed.

Lemma rand_range_witness :
  2000 <= fst (rand 2000 6000 zeroRng) <= 6000
  /\ (2000 < 6000 -> fst (rand 2000 6000 zeroRng) < 6000).
Proof.
  destruct (rand_range 2000 6000 zeroRng zeroRng_ok) as (H1 & H2 & _); [lra |].
  split; assumption.
Defined.

(** ** More on the hit test *)

(** The mover [m] is alive and its circle strictly contains the
    crosshair, which sits on the player. *)
Definition under (pl : Player) (m : Mover) : Prop :=
  dead (combat m) = false
  /\ hypot (m_x (kin m) - p_x pl) (m_y (kin m) - p_y pl) < m_r (kin m).

Lemma hitTestFrom_first (pl : Player) (ms : list Mover) (k : nat) :
  (hitTestFrom pl ms k = (-1)%Z
   /\ forall j m, ms !! j = Some m -> ~ under pl m)
  \/ (exists j m, hitTestFrom pl ms k = Z.of_nat (k + j)
                  /\ ms !! j = Some m /\ under pl m
                  /\ forall j' m', (j' < j)%nat -> ms !! j' = Some m' -> ~ under pl m').
Proof.
  revert k. induction ms as [| m ms IH]; intros k; cbn [hitTestFrom].
  - left. split; [reflexivity |]. intros j m Hj. rewrite lookup_nil in Hj. discriminate.
  - assert (Hskip : ~ under pl m ->
              (hitTestFrom pl ms (S k) = (-1)%Z
               /\ forall j m0, (m :: ms) !! j = Some m0 -> ~ under pl m0)
              \/ (exists j m0, hitTestFrom pl ms (S k) = Z.of_nat (k + j)
                    /\ (m :: ms) !! j = Some m0 /\ under pl m0
                    /\ forall j' m', (j' < j)%nat -> (m :: ms) !! j' = Some m' ->
                                     ~ under pl m')).
    { intros Hn. destruct (IH (S k)) as [[E Hall] | (j & m0 & E & Hj & Hu & Hfirst)].
      - left. split; [exact E |]. intros [| j] m0 Hj; cbn in Hj.
        + injection Hj as <-. exact Hn.
        + eapply Hall; eassumption.
      - right. exists (S j), m0. split; [rewrite E; f_equal; lia |].
        split; [exact Hj |]. split; [exact Hu |].
        intros [| j'] m' Hlt Hj'; cbn in Hj'.
        + injection Hj' as <-. exact Hn.
        + apply (Hfirst j' m'); [lia | exact Hj']. }
    destruct (dead (combat m)) eqn:Hd.
    + apply Hskip. intros [Hd' _]. congruence.
    + destruct (Rlt_b_spec (hypot (m_x (kin m) - p_x pl) (m_y (kin m) - p_y pl))
                  (m_r (kin m))) as [Hin | Hout].
      * right. exists 0%nat, m. split; [f_equal; lia |]. split; [reflexivity |].
        split; [split; assumption |]. intros j' m' Hlt. lia.
      * apply Hskip. intros [_ Hin]. contradiction.
Qed.

(** X7.  [hitTestMovers] returns -1 or the index of the first live
    mover whose circle strictly contains the crosshair: with the movers
    enabled, -1 means that no live mover is under the crosshair, and an
    index [i] means that the mover at [i] is, and that none before it
    is. *)
Theorem hitTestMovers_first_under_crosshair (w : World) :
  (hitTestMovers w = (-1)%Z
   /\ (moversEnabled (cfg w) = true ->
       forall j m, movers w !! j = Some m -> ~ under (player w) m))
  \/ (exists i m, hitTestMovers w = Z.of_nat i
                  /\ moversEnabled (cfg w) = true
                  /\ movers w !! i = Some m /\ under (player w) m
                  /\ forall j m', (j < i)%nat -> movers w !! j = Some m' ->
                                  ~ under (player w) m').
Proof.
  unfold hitTestMovers. destruct (moversEnabled (cfg w)) eqn:He; cbn [negb orb].
  - destruct (length (movers w) =? 0)%nat eqn:Hl.
    + left. split; [reflexivity |]. intros _ j m Hj.
      apply Nat.eqb_eq in Hl. apply lookup_lt_Some in Hj. lia.
    + destruct (hitTestFrom_first (player w) (movers w) 0)
        as [[E Hall] | (j & m & E & Hj & Hu & Hfirst)].
      * left. split; [exact E |]. intros _. exact Hall.
      * right. exists j, m. repeat split; try assumption; apply Hu.
  - left. split; [reflexivity |]. discriminate.
Qed.

(** ** More on [ensureMoversCount] *)

Lemma pushSpawned_fresh (c : Canvas) (k : nat) (w : World) :
  canvas w = Some c ->
  returns (pushSpawned k)
    (fun _ w' => same_base w w'
                 /\ exists extra, movers w' = movers w ++ extra /\ length extra = k
                                  /\ Forall (fun nm => combat nm = fresh_combat) extra) w.
Proof.
  revert w. induction k as [| k IH]; intros w Hc; cbn [pushSpawned].
  - apply returns_ret. split; [apply same_base_refl |].
    exists []. rewrite app_nil_r. repeat split. constructor.
  - apply returns_bind.
    eapply returns_weaken; [| apply (spawnMoverInWindow_spec w c Hc)].
    intros nm w1 Hsp. cbv beta. do 2 jstep.
    pose proof (sp_base _ _ _ Hsp) as Hb.
    eapply returns_weaken; [| apply IH; cbn; rewrite (sb_canvas _ _ Hb); exact Hc].
    intros [] w' (Hb' & extra & He & Hl & Hf). cbv beta. split.
    + eapply same_base_trans; [exact Hb |].
      eapply same_base_trans; [apply (same_base_set_movers (movers w1 ++ [nm])) | exact Hb'].
    + exists (nm :: extra). split; [| split; [cbn; rewrite Hl; reflexivity |]].
      * rewrite He. cbn. rewrite (sp_movers _ _ _ Hsp), <- app_assoc. reflexivity.
      * constructor; [apply (sp_combat _ _ _ Hsp) | exact Hf].
Qed.

(** A world whose collection and configured count are already as
    [ensureMoversCount] wants them is left exactly as it is. *)
Lemma ensureMoversCount_settled (w : World) :
  Z.of_nat (length (movers w)) = wantedCount (cfg w) ->
  moversCount (cfg w) = wantedCount (cfg w) ->
  ensureMoversCount w = (Val tt, w).
Proof.
  intros Hlen Hcount. rewrite ensureMoversCount_run. cbv zeta.
  fold (wantedCount (cfg w)).
  assert (Hcfg : set_cfg (set_moversCount (wantedCount (cfg w)) (cfg w)) w = w).
  { rewrite <- Hcount. destruct w as [c]; destruct c; reflexivity. }
  rewrite Hcfg.
  destruct (wantedCount (cfg w) =? 0)%Z eqn:Hz.
  - apply Z.eqb_eq in Hz. rewrite Hz in Hlen.
    assert (Hnil : movers w = []) by (apply length_zero_iff_nil; lia).
    rewrite <- Hnil. rewrite set_movers_same. reflexivity.
  - replace (Z.to_nat (wantedCount (cfg w)) - length (movers w))%nat with 0%nat by lia.
    cbn [pushSpawned]. unfold jret. rewrite take_ge by lia.
    rewrite set_movers_same. reflexivity.
Qed.

(** X10.  With a canvas, [ensureMoversCount] returns with exactly the
    wanted number of movers ([CFG.moversCount | 0], the count as a
    signed 32-bit integer, clamped to 0..5, or 0 when the movers are
    disabled) and stores that number in [CFG.moversCount].  The movers below that number keep their place
    and state, the movers added are fresh (no hits, alive), and a second
    call changes nothing at all. *)
Theorem ensureMoversCount_reconciles (w : World) (c : Canvas) :
  canvas w = Some c ->
  returns ensureMoversCount
    (fun _ w' =>
       Z.of_nat (length (movers w')) = wantedCount (cfg w)
       /\ moversCount (cfg w') = wantedCount (cfg w)
       /\ (forall i m, (i < Z.to_nat (wantedCount (cfg w)))%nat ->
                       movers w !! i = Some m -> movers w' !! i = Some m)
       /\ (forall i m', (length (movers w) <= i)%nat -> movers w' !! i = Some m' ->
                        combat m' = fresh_combat)
       /\ targets w' = targets w /\ player w' = player w /\ heatMap w' = heatMap w
       /\ ensureMoversCount w' = (Val tt, w')) w.
Proof.
  intros Hc. unfold returns. rewrite ensureMoversCount_run. cbv zeta.
  fold (wantedCount (cfg w)). pose proof (wantedCount_nonneg (cfg w)) as Hn.
  assert (Hw : wantedCount (set_moversCount (wantedCount (cfg w)) (cfg w))
               = wantedCount (cfg w)).
  { apply wantedCount_stored. }
  set (n := wantedCount (cfg w)) in *.
  destruct (n =? 0)%Z eqn:Hz.
  - exists tt. eexists. split; [reflexivity |]. world_goal.
    cbn [length moversCount set_moversCount].
    apply Z.eqb_eq in Hz.
    split; [lia |]. split; [reflexivity |].
    split; [intros i m Hi; lia |].
    split; [intros i m' _ Hi; rewrite lookup_nil in Hi; discriminate |].
    repeat (split; [reflexivity |]).
    apply ensureMoversCount_settled; world_goal; rewrite Hw;
      [cbn [length]; lia | reflexivity].
  - set (w0 := set_cfg (set_moversCount n (cfg w)) w).
    destruct (pushSpawned_fresh c (Z.to_nat n - length (movers w0)) w0 Hc)
      as ([] & w1 & -> & Hb & extra & He & Hl & Hf).
    exists tt. eexists. split; [reflexivity |].
    assert (Hlen : Z.of_nat (length (take (Z.to_nat n) (movers w1))) = n).
    { rewrite length_take, He, length_app, Hl. subst w0. cbn. lia. }
    cbn [movers set_movers cfg targets player heatMap].
    rewrite (sb_cfg _ _ Hb), (sb_targets _ _ Hb), (sb_player _ _ Hb),
      (sb_heatMap _ _ Hb).
    split; [exact Hlen |]. split; [reflexivity |].
    split; [| split; [| repeat (split; [reflexivity |])]].
    + intros i m Hi Hm. rewrite lookup_take_lt by exact Hi. rewrite He.
      apply lookup_app_l_Some. exact Hm.
    + intros i m' Hge Hi.
      destruct (decide (i < Z.to_nat n)%nat) as [Hlt | Hnlt];
        [| rewrite lookup_take_ge in Hi by lia; discriminate].
      rewrite lookup_take_lt in Hi by exact Hlt. rewrite He in Hi.
      rewrite lookup_app_r in Hi by exact Hge.
      rewrite Forall_forall in Hf. apply Hf. eapply list_elem_of_lookup_2. exact Hi.
    + apply ensureMoversCount_settled;
        cbn [movers set_movers cfg]; rewrite (sb_cfg _ _ Hb); subst w0;
        cbn [cfg set_cfg]; rewrite Hw; [exact Hlen | reflexivity].
Qed.

Lemma ensureMoversCount_reconciles_witness :
  returns ensureMoversCount
    (fun _ w' => Z.of_nat (length (movers w')) = 3%Z
                 /\ ensureMoversCount w' = (Val tt, w')) arenaWorld.
Proof.
  eapply returns_weaken;
    [| apply (ensureMoversCount_reconciles arenaWorld {| width := 1280; height := 720 |});
       reflexivity].
  intros [] w' (H1 & _ & _ & _ & _ & _ & _ & H2). split; [exact H1 | exact H2].
Defined.

(** ** What a frame leaves alone *)

Lemma pushSpawned_base (k : nat) (w : World) : same_base w (snd (pushSpawned k w)).
Proof.
  destruct (canvas w) as [c |] eqn:Hc.
  - destruct (pushSpawned_returns c k w Hc) as ([] & w' & -> & Hb & _). exact Hb.
  - destruct k as [| k]; [apply same_base_refl |].
    cbn [pushSpawned]. unfold jbind at 1.
    rewrite spawnMoverInWindow_null_canvas by exact Hc. apply same_base_refl.
Qed.

Lemma ensureMoversCount_base (w : World) :
  let w' := snd (ensureMoversCount w) in
  cfg w' = set_moversCount (wantedCount (cfg w)) (cfg w)
  /\ canvas w' = canvas w /\ rollAngle w' = rollAngle w /\ player w' = player w
  /\ targets w' = targets w /\ clock w' = clock w /\ tape (rng w') = tape (rng w).
Proof.
  cbv zeta. rewrite ensureMoversCount_run. cbv zeta. fold (wantedCount (cfg w)).
  destruct (wantedCount (cfg w) =? 0)%Z; [repeat split |].
  set (w0 := set_cfg _ w).
  pose proof (pushSpawned_base (Z.to_nat (wantedCount (cfg w)) - length (movers w0)) w0)
    as Hb.
  destruct (pushSpawned _ w0) as [[u |] w1]; cbn [snd] in *; destruct Hb;
    world_goal; repeat split; assumption.
Qed.

(** X11.  Whatever the state, and whether it returns or throws,
    [updateMovers] leaves the player, the targets, the canvas and the
    roll angle as they are, and changes nothing of the configuration but
    [CFG.moversCount], where it stores the wanted count: 0 with the
    movers disabled, else [CFG.moversCount | 0] (the conversion to a
    signed 32-bit integer) clamped to 0..5.  So a count of 2^31 wraps
    to a negative number and is stored as 0. *)
Theorem updateMovers_leaves_alone (dtN playerSpeed : R) (w : World) :
  let w' := snd (updateMovers dtN playerSpeed w) in
  (player w' = player w /\ targets w' = targets w /\ canvas w' = canvas w
   /\ rollAngle w' = rollAngle w
   /\ cfg w' = set_moversCount (wantedCount (cfg w)) (cfg w))
  /\ wantedCount (set_moversCount (2 ^ 31) defaultConfig) = 0%Z
  /\ wantedCount (set_moversCount 7 defaultConfig) = 5%Z.
Proof.
  split; [| split; reflexivity].
  cbv zeta. rewrite updateMovers_run.
  pose proof (ensureMoversCount_base w) as (E1 & E2 & E3 & E4 & E5 & E6 & E7).
  cbv zeta in *.
  destruct (ensureMoversCount w) as [[u |] w1]; cbn [snd] in *;
    [| repeat split; assumption].
  destruct (updateFrame_cases dtN playerSpeed w1) as [-> | (c & He & Hpos & Hc)];
    [repeat split; assumption |].
  destruct (updateFrame_spec dtN playerSpeed w1 c He Hpos Hc)
    as ([] & w' & -> & f & _ & _ & _ & _ & F & _).
  cbn [snd]. destruct F. world_simpl. repeat split; congruence.
Qed.

Lemma updateMovers_leaves_alone_witness :
  let w' := snd (updateMovers 1 0 arenaWorld) in
  player w' = player arenaWorld /\ targets w' = targets arenaWorld
  /\ canvas w' = canvas arenaWorld /\ rollAngle w' = rollAngle arenaWorld
  /\ moversCount (cfg w') = 3%Z.
Proof.
  destruct (updateMovers_leaves_alone 1 0 arenaWorld) as [(H1 & H2 & H3 & H4 & H5) _].
  cbv zeta in *. repeat (split; [assumption |]). rewrite H5. reflexivity.
Defined.

(** The round trip on the two coordinates, for use in other proofs. *)
Lemma screen_world_round_trip_aux (a b c s : R) :
  s * s + c * c = 1 ->
  sx (worldToScreen (dx (screenToWorld a b c s)) (dy (screenToWorld a b c s)) c s) = a
  /\ sy (worldToScreen (dx (screenToWorld a b c s)) (dy (screenToWorld a b c s)) c s) = b.
Proof.
  intros H. unfold screenToWorld, worldToScreen. cbn [dx dy sx sy]. split.
  - transitivity (a * (s * s + c * c)); [ring | rewrite H; ring].
  - transitivity (b * (s * s + c * c)); [ring | rewrite H; ring].
Qed.

(** ** Steering: containment and speed limit *)

Lemma hypot_le (a b M : R) : 0 <= M -> a * a + b * b <= M * M -> hypot a b <= M.
Proof.
  intros HM H. pose proof (hypot_nonneg a b) as H0. pose proof (hypot_sq a b) as Hs.
  destruct (Rle_lt_dec (hypot a b) M) as [Hle | Hlt]; [exact Hle | nra].
Qed.

Lemma contain_range (b pos vel : R) :
  0 <= b ->
  - b <= fst (contain b pos vel) <= b
  /\ snd (contain b pos vel) * snd (contain b pos vel) <= vel * vel.
Proof.
  intros Hb. unfold contain.
  destruct (Rlt_b_spec pos (- b)) as [H1 | H1]; cbn [fst snd].
  - split; [lra |]. destruct (Rlt_b vel 0); nra.
  - destruct (Rlt_b_spec b pos) as [H2 | H2]; cbn [fst snd].
    + split; [lra |]. destruct (Rlt_b 0 vel); nra.
    + split; [lra | nra].
Qed.

Lemma contain_vel (b pos vel : R) :
  snd (contain b pos vel) * snd (contain b pos vel) <= vel * vel.
Proof.
  unfold contain. destruct (Rlt_b pos (- b)); cbn [snd].
  - destruct (Rlt_b vel 0); nra.
  - destruct (Rlt_b b pos); cbn [snd]; [destruct (Rlt_b 0 vel); nra | nra].
Qed.

(** The cap on the speed: [(sv / spd) * maxSp] when [spd > maxSp]. *)
Lemma capped_speed (a b maxSp : R) :
  0 <= maxSp ->
  let spd := orElse (hypot a b) 1 in
  let sv := if Rlt_b maxSp spd then ((a / spd) * maxSp, (b / spd) * maxSp) else (a, b) in
  fst sv * fst sv + snd sv * snd sv <= maxSp * maxSp.
Proof.
  intros HM. cbv zeta.
  pose proof (hypot_nonneg a b) as H0. pose proof (hypot_sq a b) as Hs.
  unfold orElse. destruct (Req_b_spec (hypot a b) 0) as [Hz | Hnz].
  - assert (a * a + b * b = 0) by (rewrite <- Hs, Hz; ring).
    assert (a = 0) by nra. assert (b = 0) by nra. subst a b.
    destruct (Rlt_b maxSp 1); cbn [fst snd]; [| nra].
    unfold Rdiv. rewrite !Rmult_0_l. nra.
  - destruct (Rlt_b_spec maxSp (hypot a b)) as [Hlt | Hge]; cbn [fst snd]; [| nra].
    set (h := hypot a b) in *.
    assert (Hh : 0 < h) by lra.
    replace (a / h * maxSp * (a / h * maxSp) + b / h * maxSp * (b / h * maxSp))
      with ((a * a + b * b) / (h * h) * (maxSp * maxSp)) by (field; lra).
    rewrite <- Hs. replace (h * h / (h * h)) with 1 by (field; lra). lra.
Qed.

(** The position that [steer] computes is contained: in screen
    coordinates it lies within the bounds minus the radius of the mover
    on both axes, whatever the forces; the radius is not changed. *)
Lemma steer_contained (c : Config) (f : Frame) (pl : Player) (ms : list Mover)
    (i : nat) (m : Mover) (scr vScr : Screen) (off : Vec2) :
  sinR f * sinR f + cosR f * cosR f = 1 ->
  m_r (kin m) <= limXVal f -> m_r (kin m) <= limYVal f ->
  let k := steer c f pl ms i m scr vScr off in
  let s := worldToScreen (m_x k - p_x pl) (m_y k - p_y pl) (cosR f) (sinR f) in
  Rabs (sx s) <= limXVal f - m_r (kin m)
  /\ Rabs (sy s) <= limYVal f - m_r (kin m)
  /\ m_r k = m_r (kin m).
Proof.
  intros Hrot HX HY. cbv zeta. unfold steer. cbv zeta. cbn [m_x m_y m_r].
  match goal with
  | |- context [screenToWorld (fst (contain ?bx ?px ?vx0)) (fst (contain ?by0 ?py ?vy0))] =>
      set (cx := contain bx px vx0); set (cy := contain by0 py vy0);
      pose proof (contain_range bx px vx0) as [Hcx _];
      [lra | pose proof (contain_range by0 py vy0) as [Hcy _]; [lra |]]
  end.
  fold cx in Hcx. fold cy in Hcy.
  replace (p_x pl + dx (screenToWorld (fst cx) (fst cy) (cosR f) (sinR f)) - p_x pl)
    with (dx (screenToWorld (fst cx) (fst cy) (cosR f) (sinR f))) by ring.
  replace (p_y pl + dy (screenToWorld (fst cx) (fst cy) (cosR f) (sinR f)) - p_y pl)
    with (dy (screenToWorld (fst cx) (fst cy) (cosR f) (sinR f))) by ring.
  destruct (screen_world_round_trip_aux (fst cx) (fst cy) (cosR f) (sinR f) Hrot) as [-> ->].
  split; [apply Rabs_le; lra |]. split; [apply Rabs_le; lra | reflexivity].
Qed.

(** The last steps of [steer], from the combined velocity [sv] on: the
    cap on the speed, the integration and the containment. *)
Definition integrate (maxSp dtN limX limY cosR sinR : R) (pl : Player) (mr : R)
    (scr : Screen) (sv : R * R) : Kin :=
  let spd := orElse (hypot (fst sv) (snd sv)) 1 in
  let sv := if Rlt_b maxSp spd then ((fst sv / spd) * maxSp, (snd sv / spd) * maxSp)
            else sv in
  let px := sx scr + fst sv * dtN in
  let py := sy scr + snd sv * dtN in
  let bx := limX - mr in
  let by_ := limY - mr in
  let cx := contain bx px (fst sv) in
  let cy := contain by_ py (snd sv) in
  let wpos := screenToWorld (fst cx) (fst cy) cosR sinR in
  let wvel := screenToWorld (snd cx) (snd cy) cosR sinR in
  {| m_x := p_x pl + dx wpos; m_y := p_y pl + dy wpos;
     m_vx := dx wvel; m_vy := dy wvel; m_r := mr |}.

Lemma steer_integrate (c : Config) (f : Frame) (pl : Player) (ms : list Mover)
    (i : nat) (m : Mover) (scr vScr : Screen) (off : Vec2) :
  exists sv, steer c f pl ms i m scr vScr off
             = integrate (8.0 * moversSpeed c) (dtN f) (limXVal f) (limYVal f)
                 (cosR f) (sinR f) pl (m_r (kin m)) scr sv.
Proof. unfold steer, integrate. cbv zeta. eexists. reflexivity. Qed.

Lemma integrate_speed (maxSp dtN limX limY cosR sinR : R) (pl : Player) (mr : R)
    (scr : Screen) (sv : R * R) :
  sinR * sinR + cosR * cosR = 1 -> 0 <= maxSp ->
  let k := integrate maxSp dtN limX limY cosR sinR pl mr scr sv in
  hypot (m_vx k) (m_vy k) <= maxSp.
Proof.
  intros Hrot HM. cbv zeta. unfold integrate. destruct sv as [a b].
  pose proof (capped_speed a b maxSp HM) as Hcap. cbv zeta in Hcap.
  cbv zeta. cbn [m_vx m_vy fst snd].
  set (sv' := if Rlt_b maxSp (orElse (hypot a b) 1) then _ else (a, b)) in *.
  pose proof (contain_vel (limX - mr) (sx scr + fst sv' * dtN) (fst sv')) as Hvx.
  pose proof (contain_vel (limY - mr) (sy scr + snd sv' * dtN) (snd sv')) as Hvy.
  set (cx := contain (limX - mr) _ (fst sv')) in *.
  set (cy := contain (limY - mr) _ (snd sv')) in *.
  apply hypot_le; [exact HM |].
  unfold screenToWorld. cbn [dx dy].
  replace ((snd cx * cosR + snd cy * sinR) * (snd cx * cosR + snd cy * sinR)
           + (- snd cx * sinR + snd cy * cosR) * (- snd cx * sinR + snd cy * cosR))
    with ((snd cx * snd cx + snd cy * snd cy) * (sinR * sinR + cosR * cosR))
    by ring.
  rewrite Hrot. lra.
Qed.

(** The velocity that [steer] computes is capped at [8 * CFG.moversSpeed]. *)
Lemma steer_speed (c : Config) (f : Frame) (pl : Player) (ms : list Mover)
    (i : nat) (m : Mover) (scr vScr : Screen) (off : Vec2) :
  sinR f * sinR f + cosR f * cosR f = 1 -> 0 <= moversSpeed c ->
  let k := steer c f pl ms i m scr vScr off in
  hypot (m_vx k) (m_vy k) <= 8 * moversSpeed c.
Proof.
  intros Hrot Hsp. cbv zeta.
  destruct (steer_integrate c f pl ms i m scr vScr off) as [sv ->].
  replace (8 * moversSpeed c) with (8.0 * moversSpeed c) by lra.
  apply integrate_speed; [exact Hrot | lra].
Qed.

(** The kinematic state of [m'] is what [steer] computed for the mover
    [m]: same radius, same configuration, frame and player. *)
Definition steers (c : Config) (f : Frame) (pl : Player) (m m' : Mover) : Prop :=
  exists ms i m9 scr vScr off,
    kin m' = steer c f pl ms i m9 scr vScr off /\ m_r (kin m9) = m_r (kin m).

Lemma updateLive_kin (f : Frame) (i : nat) (m : Mover) (w : World) :
  yields (updateLive f i m) (fun m' _ => steers (cfg w) f (player w) m m') w.
Proof.
  unfold updateLive.
  destruct (healPhase_rest (tNow f) m) as (_ & _ & Hk0).
  cbv zeta.
  yphase rolePhase_spec. intros m1 w1 [E1 K1].
  yphase episodePhase_spec. intros m2 w2 (E2 & _ & Hk2 & _).
  yphase retargetPhase_spec. intros m4 w4 (E4 & _ & Hk4 & _).
  yphase microPhase_spec. intros m5 w5 [E5 K5].
  do 4 ystep.
  set (threatAlpha := threatOf _ _ _).
  pose proof (modulatePhase_kept (tNow f) threatAlpha m5) as K6.
  set (m6 := modulatePhase (tNow f) threatAlpha m5) in *.
  ystep. ystep.
  match goal with
  | H : feintPhase ?t ?th ?m0 ?g = (?a, _) |- _ =>
      pose proof (feintPhase_kept t th m0 g) as K8; rewrite H in K8; cbn [fst] in K8
  end.
  match goal with
  | |- context [computeMicroOffset ?c ?m9 ?t ?lx ?ly] =>
      pose proof (computeMicroOffset_kept c m9 t lx ly) as K10;
      set (om := computeMicroOffset c m9 t lx ly) in *
  end.
  repeat ystep. world_simpl.
  assert (E15 : same_env w w5)
    by (repeat (eapply same_env_trans; [eassumption |]); apply same_env_refl).
  unfold steers. cbn [kin set_kin].
  rewrite <- (se_cfg _ _ E15), <- (se_player _ _ E15).
  eexists _, _, _, _, _, _. split; [reflexivity |].
  rewrite (k_kin _ _ K10). cbn [kin set_frameAngle set_modul].
  rewrite (k_kin _ _ K8). cbn [kin set_anchor].
  rewrite (k_kin _ _ K6), (k_kin _ _ K5), Hk4. cbn [kin set_anchor].
  rewrite Hk2, (k_kin _ _ K1), Hk0. reflexivity.
Qed.

(** What the loop does to the mover found at an index: a dead mover is
    left as it is, a live one is steered. *)
Definition moved (c : Config) (f : Frame) (pl : Player) (m : Mover) (r : option Mover)
    : Prop :=
  if dead (combat m) then r = Some m else exists m', r = Some m' /\ steers c f pl m m'.

Lemma updateMover_moved (f : Frame) (i : nat) (w : World) :
  yields (updateMover f i)
    (fun _ w' => forall m, movers w !! i = Some m ->
                           moved (cfg w) f (player w) m (movers w' !! i)) w.
Proof.
  unfold updateMover. do 2 ystep.
  destruct (movers w !! i) as [m |] eqn:Hm; [| ystep; discriminate].
  unfold moved. destruct (dead (combat m)) eqn:Hd.
  - ystep. intros m0 [= <-]. rewrite Hd. exact Hm.
  - apply yields_bind.
    eapply yields_weaken;
      [| apply yields_conj; [apply updateLive_spec | apply updateLive_kin]].
    intros m' w1 ([E _] & S). cbv beta. ystep.
    intros m0 [= <-]. rewrite Hd. exists m'. split; [| exact S].
    apply list_lookup_insert_eq. rewrite (se_movers _ _ E).
    eapply lookup_lt_Some; eassumption.
Qed.

Lemma returns_conj {A} (c : Js A) (P Q : A -> World -> Prop) w :
  returns c P w -> returns c Q w -> returns c (fun a w' => P a w' /\ Q a w') w.
Proof.
  intros (a & w' & E & HP) (a' & w'' & E' & HQ). rewrite E in E'.
  injection E' as <- <-. exists a, w'. repeat split; assumption.
Qed.

Lemma update_loop_moved (f : Frame) (l : list nat) (w : World) :
  NoDup l ->
  returns (jforM l (fun i w => let (_, w') := updateMover f i w in (Val tt, w')))
    (fun _ w' => forall j m, j ∈ l -> movers w !! j = Some m ->
                             moved (cfg w) f (player w) m (movers w' !! j)) w.
Proof.
  revert w. induction l as [| i l IH]; intros w Hnd; simpl.
  - apply returns_ret. intros j m Hj. inversion Hj.
  - apply NoDup_cons in Hnd as [Hi Hnd].
    apply returns_bind. unfold returns at 1. cbv beta.
    pose proof (updateMover_spec f i w) as Hu. unfold yields in Hu.
    pose proof (updateMover_moved f i w) as Hv. unfold yields in Hv.
    destruct (updateMover f i w) as [u w1]. cbn [fst snd] in Hu, Hv.
    destruct Hu as (F1 & Hother & _).
    exists tt, w1. split; [reflexivity |].
    eapply returns_weaken;
      [| apply returns_conj; [apply (IH w1 Hnd) | apply (update_loop_spec f l w1 Hnd)]].
    intros [] w' (Hin & _ & Hout & _). cbv beta.
    intros j m Hj Hm. apply elem_of_cons in Hj as [-> | Hj].
    + rewrite Hout by assumption. apply Hv. exact Hm.
    + assert (Hji : j <> i) by (intros ->; contradiction).
      rewrite <- (sf_cfg _ _ F1), <- (sf_player _ _ F1). apply Hin; [exact Hj |].
      rewrite Hother by assumption. exact Hm.
Qed.

Lemma healPhase_dead (t : R) (m : Mover) :
  dead (combat (healPhase t m)) = dead (combat m).
Proof. unfold healPhase. cbv zeta. destruct (heals _ _); reflexivity. Qed.

(** What a frame leaves of the mover [m1] that it found: a dead mover
    as it was, a live one steered and still alive. *)
Definition driven (c : Config) (f : Frame) (pl : Player) (m1 m' : Mover) : Prop :=
  dead (combat m') = dead (combat m1)
  /\ if dead (combat m1) then m' = m1 else steers c f pl m1 m'.

Lemma updateFrame_moved (dtN playerSpeed : R) (w : World) (c : Canvas) :
  moversEnabled (cfg w) = true -> (0 < length (movers w))%nat -> canvas w = Some c ->
  returns (updateFrame dtN playerSpeed)
    (fun _ w' =>
       exists f,
         limXVal f = width c / 2 - MARGIN /\ limYVal f = height c / 2 - MARGIN
         /\ cosR f = cos (rollAngle w) /\ sinR f = sin (rollAngle w)
         /\ length (movers w') = length (movers w)
         /\ forall j m1 m', movers w !! j = Some m1 -> movers w' !! j = Some m' ->
                            driven (cfg w) f (player w) m1 m') w.
Proof.
  intros He Hpos Hc. unfold updateFrame. do 4 jstep. rewrite He.
  replace (length (movers w) =? 0)%nat with false by (symmetry; apply Nat.eqb_neq; lia).
  cbn [negb orb]. do 3 jstep. eapply returns_arenaLimits; [exact Hc |].
  do 10 jstep.
  match goal with
  | |- returns (jforM _ (fun i w => let (_, w') := updateMover ?f i w in _)) _ _ =>
      set (fr := f)
  end.
  eapply returns_weaken;
    [| apply returns_conj;
       [apply update_loop_moved; apply NoDup_seq | apply update_loop_spec; apply NoDup_seq]].
  intros [] w' (Hmv & F & _ & Hst). cbv beta. world_simpl.
  exists fr. repeat (split; [reflexivity |]).
  split; [rewrite (sf_length _ _ F); reflexivity |].
  intros j m1 m' Hm1 Hm'.
  assert (Hj : j ∈ seq 0 (length (movers w)))
    by (apply elem_of_seq; apply lookup_lt_Some in Hm1; lia).
  specialize (Hmv j m1 Hj Hm1). specialize (Hst j m1 Hj Hm1).
  unfold moved in Hmv. unfold stepped in Hst. unfold driven.
  destruct (dead (combat m1)) eqn:Hd.
  - rewrite Hm' in Hmv. injection Hmv as ->. split; [exact Hd | reflexivity].
  - destruct Hmv as (m2 & E2 & Hs). destruct Hst as (m3 & E3 & L).
    rewrite Hm' in E2, E3. injection E2 as <-. injection E3 as <-.
    split; [| exact Hs].
    rewrite (lv_combat _ _ _ _ L), healPhase_dead. exact Hd.
Qed.

(** A call of [updateMovers] with a canvas, from any state: every mover
    of the collection it leaves comes from a mover that was there
    before the call, or that the call spawned, and that the frame has
    driven. *)
Lemma updateMovers_moved (dtN playerSpeed : R) (w : World) (c : Canvas) :
  canvas w = Some c ->
  returns (updateMovers dtN playerSpeed)
    (fun _ w' =>
       length (movers w') = Z.to_nat (wantedCount (cfg w))
       /\ forall j m', movers w' !! j = Some m' ->
            exists f m1,
              limXVal f = width c / 2 - MARGIN /\ limYVal f = height c / 2 - MARGIN
              /\ cosR f = cos (rollAngle w) /\ sinR f = sin (rollAngle w)
              /\ (forall m, movers w !! j = Some m -> m1 = m)
              /\ (movers w !! j = None -> combat m1 = fresh_combat)
              /\ driven (set_moversCount (wantedCount (cfg w)) (cfg w)) f (player w)
                   m1 m') w.
Proof.
  intros Hc. unfold returns. rewrite updateMovers_run.
  destruct (ensureMoversCount_ensured w c Hc) as ([] & w1 & -> & En).
  pose proof (wantedCount_range (cfg w)) as Hn.
  destruct (Z.eq_dec (wantedCount (cfg w)) 0%Z) as [Hz | Hnz].
  - exists tt, w1. split.
    + unfold updateFrame. unfold jbind at 1 2. unfold get at 1 2. cbv beta iota.
      pose proof (en_length _ _ _ En) as Hl. rewrite Hz in Hl. cbn in Hl. rewrite Hl.
      cbn [Nat.eqb]. rewrite orb_true_r. reflexivity.
    + split; [apply (en_length _ _ _ En) |].
      intros j m' Hj. apply lookup_lt_Some in Hj.
      rewrite (en_length _ _ _ En), Hz in Hj. cbn in Hj. lia.
  - assert (He : moversEnabled (cfg w1) = true).
    { rewrite (en_cfg _ _ _ En). cbn [moversEnabled set_moversCount].
      unfold wantedCount in Hnz. destruct (moversEnabled (cfg w)); [reflexivity | lia]. }
    assert (Hpos : (0 < length (movers w1))%nat) by (rewrite (en_length _ _ _ En); lia).
    destruct (updateFrame_moved dtN playerSpeed w1 c He Hpos (en_canvas _ _ _ En))
      as ([] & w' & Hrun & f & H1 & H2 & H3 & H4 & Hlen & Hdr).
    exists tt, w'. split; [exact Hrun |].
    split; [rewrite Hlen; apply (en_length _ _ _ En) |].
    intros j m' Hj.
    assert (Hj1 : (j < length (movers w1))%nat)
      by (rewrite <- Hlen; eapply lookup_lt_Some; exact Hj).
    destruct (lookup_lt_is_Some_2 _ _ Hj1) as [m1 Hm1].
    exists f, m1.
    rewrite <- (en_rollAngle _ _ _ En), <- (en_cfg _ _ _ En), <- (en_player _ _ _ En).
    repeat (split; [assumption |]).
    split; [| split; [| apply (Hdr j m1 m' Hm1 Hj)]].
    + intros m Hm. pose proof (en_old _ _ _ En j m1 Hm1) as Ho.
      apply lookup_lt_Some in Hm as Hlt. specialize (Ho Hlt). congruence.
    + intros Hnone. apply lookup_ge_None in Hnone.
      apply (en_new _ _ _ En j m1 Hnone Hm1).
Qed.





(** ** More on the heat map *)

(** X14.  For positive arena limits [getCellForPos] always returns a
    cell of the 9 x 16 grid, also for a position outside the arena
    (the indices are clamped); for a position inside the arena it
    returns the cell that contains the position. *)
Theorem getCellForPos_in_grid (sx sy limX limY : R) :
  0 < limX -> 0 < limY ->
  let cell := getCellForPos sx sy limX limY in
  (row cell < HEAT_ROWS)%nat /\ (col cell < HEAT_COLS)%nat
  /\ (- limX <= sx < limX ->
      INR (col cell) * (limX * 2 / INR HEAT_COLS) <= sx + limX
      /\ sx + limX < (INR (col cell) + 1) * (limX * 2 / INR HEAT_COLS))
  /\ (- limY <= sy < limY ->
      INR (row cell) * (limY * 2 / INR HEAT_ROWS) <= sy + limY
      /\ sy + limY < (INR (row cell) + 1) * (limY * 2 / INR HEAT_ROWS)).
Proof.
  intros HX HY. cbv zeta. unfold getCellForPos. cbv zeta. cbn [row col].
  assert (Hcell : forall (s lim : R) (n : nat),
            0 < lim -> (0 < n)%nat ->
            (Z.to_nat (clampZ (floor ((s + lim) / (lim * 2 / INR n))) 0 (Z.of_nat n - 1))
             < n)%nat
            /\ (- lim <= s < lim ->
                INR (Z.to_nat (clampZ (floor ((s + lim) / (lim * 2 / INR n))) 0
                                 (Z.of_nat n - 1)))
                * (lim * 2 / INR n) <= s + lim
                /\ s + lim
                   < (INR (Z.to_nat (clampZ (floor ((s + lim) / (lim * 2 / INR n))) 0
                                       (Z.of_nat n - 1))) + 1)
                     * (lim * 2 / INR n))).
  { intros s lim n Hl Hn.
    split; [unfold clampZ; lia |].
    intros Hs.
    assert (Hn' : 1 <= INR n) by (apply (le_INR 1); lia).
    set (cw := lim * 2 / INR n).
    assert (Hcw : 0 < cw) by (unfold cw; apply Rdiv_lt_0_compat; lra).
    assert (Hcn : cw * INR n = lim * 2) by (unfold cw; field; lra).
    set (q := (s + lim) / cw).
    assert (Hq : q * cw = s + lim) by (unfold q; field; lra).
    assert (Hq0 : 0 <= q).
    { unfold q, Rdiv. apply Rmult_le_pos; [lra |]. left. apply Rinv_0_lt_compat. exact Hcw. }
    assert (Hqn : q < INR n).
    { apply (Rmult_lt_reg_r cw); [exact Hcw |]. rewrite Hq. nra. }
    unfold floor. destruct (Zfloor_bound q) as [Hlo Hhi].
    assert (Hz : (0 <= Zfloor q)%Z).
    { apply Z.lt_succ_r. apply lt_IZR. rewrite succ_IZR. lra. }
    assert (Hz' : (Zfloor q <= Z.of_nat n - 1)%Z).
    { apply Z.lt_succ_r. apply lt_IZR. rewrite succ_IZR, minus_IZR, <- INR_IZR_INZ. lra. }
    replace (clampZ (Zfloor q) 0 (Z.of_nat n - 1)) with (Zfloor q)
      by (unfold clampZ; lia).
    rewrite INR_IZR_INZ, Z2Nat.id by exact Hz.
    split; nra. }
  destruct (Hcell sx limX HEAT_COLS HX) as [C1 C2]; [unfold HEAT_COLS; lia |].
  destruct (Hcell sy limY HEAT_ROWS HY) as [R1 R2]; [unfold HEAT_ROWS; lia |].
  split; [exact R1 |]. split; [exact C1 |]. split; assumption.
Qed.

Lemma getCellForPos_in_grid_witness :
  let cell := getCellForPos 700 (-300) 500 220 in
  (row cell < HEAT_ROWS)%nat /\ (col cell < HEAT_COLS)%nat.
Proof.
  cbv zeta.
  destruct (getCellForPos_in_grid 700 (-300) 500 220) as (H1 & H2 & _); [lra | lra |].
  split; assumption.
Defined.

(** ** More on the counted pools *)

Section PoolFacts.
Context {K : Type} (eqb : K -> K -> bool).
Hypothesis eqb_eq : forall a b, eqb a b = true <-> a = b.

Lemma eqb_refl_true (a : K) : eqb a a = true.
Proof. apply eqb_eq. reflexivity. Qed.

Lemma eqb_neq_false (a b : K) : a <> b -> eqb a b = false.
Proof.
  intros H. destruct (eqb a b) eqn:E; [| reflexivity].
  apply eqb_eq in E. contradiction.
Qed.

Lemma counts_get_set_eq (cs : list (K * nat)) (k : K) (v : nat) :
  counts_get eqb (counts_set eqb cs k v) k = Some v.
Proof.
  induction cs as [| [k' c] cs IH]; cbn.
  - rewrite eqb_refl_true. reflexivity.
  - destruct (eqb k' k) eqn:E; cbn; rewrite E; [reflexivity | exact IH].
Qed.

Lemma counts_get_set_ne (cs : list (K * nat)) (k k' : K) (v : nat) :
  k' <> k -> counts_get eqb (counts_set eqb cs k v) k' = counts_get eqb cs k'.
Proof.
  intros Hne. induction cs as [| [k0 c] cs IH]; cbn.
  - rewrite eqb_neq_false by congruence. reflexivity.
  - destruct (eqb k0 k) eqn:E; cbn.
    + apply eqb_eq in E. subst k0. rewrite eqb_neq_false by congruence. reflexivity.
    + destruct (eqb k0 k'); [reflexivity | exact IH].
Qed.

Lemma counts_get_None (cs : list (K * nat)) (k : K) :
  counts_get eqb cs k = None <-> k ∉ cs.*1.
Proof.
  induction cs as [| [k' c] cs IH]; cbn.
  - split; [intros _ H; inversion H | reflexivity].
  - destruct (eqb k' k) eqn:E.
    + apply eqb_eq in E. subst k'. split; [discriminate |].
      intros H. exfalso. apply H. left.
    + rewrite IH. rewrite not_elem_of_cons. split; [| tauto].
      intros H. split; [| exact H]. intros ->. rewrite eqb_refl_true in E. discriminate.
Qed.

Lemma counts_get_in (cs : list (K * nat)) (k : K) (n : nat) :
  NoDup cs.*1 -> (k, n) ∈ cs -> counts_get eqb cs k = Some n.
Proof.
  induction cs as [| [k' c] cs IH]; intros Hnd Hin; [inversion Hin |].
  cbn in Hnd. apply NoDup_cons in Hnd as [Hk Hnd]. cbn.
  apply elem_of_cons in Hin as [E | Hin].
  - injection E as <- <-. rewrite eqb_refl_true. reflexivity.
  - destruct (eqb k' k) eqn:E; [| apply IH; assumption].
    apply eqb_eq in E. subst k'. exfalso. apply Hk.
    apply list_elem_of_fmap. exists (k, n). split; [reflexivity | exact Hin].
Qed.

Lemma counts_set_keys (cs : list (K * nat)) (k : K) (v : nat) :
  (k ∈ cs.*1 /\ (counts_set eqb cs k v).*1 = cs.*1)
  \/ ((k ∉ cs.*1) /\ (counts_set eqb cs k v).*1 = (cs.*1) ++ [k]).
Proof using eqb_eq.
  induction cs as [| [k' c] cs IH]; cbn.
  - right. split; [intros H; inversion H | reflexivity].
  - destruct (eqb k' k) eqn:E; cbn.
    + apply eqb_eq in E. subst k'. left. split; [left | reflexivity].
    + assert (Hne : k <> k') by (intros ->; rewrite eqb_refl_true in E; discriminate).
      destruct IH as [[H ->] | [H ->]].
      * left. split; [right; exact H | reflexivity].
      * right. split; [| reflexivity].
        apply not_elem_of_cons. split; assumption.
Qed.

Lemma counts_set_NoDup (cs : list (K * nat)) (k : K) (v : nat) :
  NoDup cs.*1 -> NoDup (counts_set eqb cs k v).*1.
Proof using eqb_eq.
  intros Hnd. destruct (counts_set_keys cs k v) as [[_ ->] | [H ->]]; [exact Hnd |].
  apply NoDup_app. split; [exact Hnd |]. split; [| apply NoDup_singleton].
  intros x Hx Hx'. apply list_elem_of_singleton in Hx'. subst x. contradiction.
Qed.

Lemma counts_init_NoDup (names : list K) (cs : list (K * nat)) :
  NoDup cs.*1 -> NoDup (counts_init eqb names cs).*1.
Proof using eqb_eq.
  unfold counts_init. revert cs. induction names as [| k names IH]; intros cs Hnd; cbn.
  - exact Hnd.
  - apply IH. destruct (counts_get eqb cs k); [exact Hnd |].
    apply counts_set_NoDup. exact Hnd.
Qed.

(** An index drawn as [Math.floor(Math.random() * n)] is below [n]. *)
Lemma drawn_below (u : R) (n : nat) :
  0 <= u < 1 -> (0 < n)%nat -> (Z.to_nat (floor (u * INR n)) < n)%nat.
Proof.
  intros Hu Hn. unfold floor.
  assert (Hn' : 1 <= INR n) by (apply (le_INR 1); lia).
  assert (Hx : 0 <= u * INR n < INR n) by nra.
  destruct (Zfloor_bound (u * INR n)) as [Hlo Hhi].
  assert (Hz : (Zfloor (u * INR n) < Z.of_nat n)%Z).
  { apply lt_IZR. rewrite <- INR_IZR_INZ. lra. }
  lia.
Qed.

(** X16.  With [Math.random()] in [[0, 1)] and a table of counts with
    distinct keys: while some category is below the limit, the pick is
    a category below the limit; the pick raises the count of the chosen
    category by exactly one and no other count. *)
Theorem pick_below_limit (names : list K) (maxCount : nat) (dflt : K)
    (cs : list (K * nat)) (g : Rng) (k : K) (n : nat) :
  tape_ok g -> NoDup cs.*1 ->
  (k, n) ∈ counts_init eqb names cs -> (n < maxCount)%nat ->
  let cs0 := counts_init eqb names cs in
  let chosen := fst (fst (pick eqb names maxCount dflt cs g)) in
  let cs' := snd (fst (pick eqb names maxCount dflt cs g)) in
  exists n0, counts_get eqb cs0 chosen = Some n0 /\ (n0 < maxCount)%nat
             /\ counts_get eqb cs' chosen = Some (S n0)
             /\ forall k', k' <> chosen -> counts_get eqb cs' k' = counts_get eqb cs0 k'.
Proof using eqb_eq.
  intros Hg Hnd Hin Hn. cbv zeta. unfold pick. cbv zeta.
  set (cs0 := counts_init eqb names cs) in *.
  set (cands := filter (fun e : K * nat => (snd e <? maxCount)%nat) cs0).
  assert (Hk : (k, n) ∈ cands).
  { apply list_elem_of_filter. split; [| exact Hin].
    cbn. apply Is_true_true. apply Nat.ltb_lt. exact Hn. }
  assert (Hlen : (0 < length cands)%nat).
  { destruct cands; [inversion Hk | cbn; lia]. }
  replace (0 <? length cands)%nat with true by (symmetry; apply Nat.ltb_lt; exact Hlen).
  unfold bind, random, ret. cbn [fst snd].
  pose proof (drawn_below (tape g (cursor g)) (length cands) (Hg _) Hlen) as Hidx.
  destruct (lookup_lt_is_Some_2 _ _ Hidx) as [[k0 n0] Hl].
  rewrite Hl. cbn [fmap option_fmap option_map default fst].
  assert (Hc : (k0, n0) ∈ cands) by (eapply list_elem_of_lookup_2; exact Hl).
  apply list_elem_of_filter in Hc as [Hlt Hin0]. cbn in Hlt.
  apply Is_true_true, Nat.ltb_lt in Hlt.
  assert (Hget : counts_get eqb cs0 k0 = Some n0)
    by (apply counts_get_in; [apply counts_init_NoDup; exact Hnd | exact Hin0]).
  unfold Datatypes.id.
  exists n0. rewrite Hget. cbn [default].
  split; [reflexivity |]. split; [exact Hlt |].
  split; [apply counts_get_set_eq |].
  intros k' Hne. apply counts_get_set_ne. exact Hne.
Qed.
End PoolFacts.

Lemma Role_eqb_eq (a b : Role) : Role_eqb a b = true <-> a = b.
Proof. destruct a, b; cbn; split; congruence. Qed.

Lemma Episode_eqb_eq (a b : Episode) : Episode_eqb a b = true <-> a = b.
Proof. destruct a, b; cbn; split; congruence. Qed.

Lemma pick_below_limit_witness :
  let cs := [(Runner, 2%nat); (Dancer, 1%nat); (Trickster, 0%nat); (Kiter, 0%nat)] in
  let chosen := fst (fst (pickRole cs zeroRng)) in
  let cs' := snd (fst (pickRole cs zeroRng)) in
  exists n0, counts_get Role_eqb (counts_init Role_eqb ROLE_NAMES cs) chosen = Some n0
             /\ (n0 < ROLE_MAX_COUNT)%nat
             /\ counts_get Role_eqb cs' chosen = Some (S n0)
             /\ forall k', k' <> chosen ->
                  counts_get Role_eqb cs' k'
                  = counts_get Role_eqb (counts_init Role_eqb ROLE_NAMES cs) k'.
Proof.
  cbv zeta.
  apply (pick_below_limit Role_eqb Role_eqb_eq ROLE_NAMES ROLE_MAX_COUNT Runner
           [(Runner, 2%nat); (Dancer, 1%nat); (Trickster, 0%nat); (Kiter, 0%nat)]
           zeroRng Dancer 1 zeroRng_ok).
  - cbn. apply NoDup_ListNoDup. repeat constructor; cbn; intuition congruence.
  - cbn. apply list_elem_of_In. cbn. tauto.
  - unfold ROLE_MAX_COUNT. lia.
Defined.

(** ** The anchor transition: chooseNewAnchorTarget *)

(** The best candidate exists and names a cell of the heat map. *)
Definition cell_in (best : option Candidate) : Prop :=
  match best with
  | None => False
  | Some b => (c_row b < HEAT_ROWS)%nat /\ (c_col b < HEAT_COLS)%nat
  end.

Lemma drawn_cell (u : R) (n : nat) :
  0 <= u < 1 -> (0 < n)%nat -> (Z.to_nat (floor (0 + u * (INR n - 0))) < n)%nat.
Proof.
  intros Hu Hn. replace (0 + u * (INR n - 0)) with (u * INR n) by ring.
  apply drawn_below; assumption.
Qed.

Lemma anchorAttempt_cell (cfg : Config) (h : HeatMap) (ms : list Mover) (i : nat)
    (m : Mover) (limX limY bias : R) (tgs : list TargetScr) (best : option Candidate)
    (g : Rng) :
  tape_ok g -> best = None \/ cell_in best ->
  cell_in (fst (anchorAttempt cfg h ms i m limX limY bias tgs best g)).
Proof.
  intros Hg Hb. unfold anchorAttempt, rand. unfold bind, random, ret.
  cbn [fst snd tape cursor].
  assert (Hc : forall u1 u2,
             cell_in (Some (candidateAt cfg h ms i m limX limY bias tgs
                              (0 + tape g (cursor g) * (INR HEAT_COLS - 0))
                              (0 + tape g (S (cursor g)) * (INR HEAT_ROWS - 0)) u1 u2))).
  { intros u1 u2. unfold candidateAt. cbv zeta. cbn [cell_in c_row c_col].
    split; apply drawn_cell; try apply Hg; unfold HEAT_ROWS, HEAT_COLS; lia. }
  destruct best as [b |]; [| apply Hc].
  destruct Hb as [Hb | Hb]; [discriminate |].
  match goal with |- context [ext_gt ?x ?y] => destruct (ext_gt x y) end;
    [apply Hc | exact Hb].
Qed.

(** A loop of at least one round establishes what its first round
    establishes and the later rounds keep. *)
Lemma forM_first {A} (P : A -> Prop) (n : nat) (body : nat -> A -> Rand A)
    (a : A) (g : Rng) :
  (forall i x, keeps_tape (body i x)) ->
  (forall i x g, tape_ok g -> P x -> P (fst (body i x g))) ->
  tape_ok g -> P (fst (body 0%nat a g)) ->
  P (fst (forM (seq 0 (S n)) body a g)).
Proof.
  intros Hk Hb Hg Ha. cbn [seq forM]. unfold bind.
  pose proof (Hk 0%nat a g) as Ht.
  destruct (body 0%nat a g) as [a' g']. cbn [fst snd] in *.
  apply forM_invariant; [exact Hk | exact Hb | | exact Ha].
  eapply tape_ok_eq; eassumption.
Qed.

Lemma chooseNewAnchorTarget_best (cfg : Config) (h : HeatMap) (ms : list Mover)
    (i : nat) (m : Mover) (limX limY bias : R) (tgs : list TargetScr) (g : Rng) :
  tape_ok g ->
  cell_in (fst (forM (seq 0 25)
                  (fun _ best => anchorAttempt cfg h ms i m limX limY bias tgs best)
                  None g)).
Proof.
  intros Hg. apply (forM_first cell_in 24).
  - intros; apply keeps_tape_anchorAttempt.
  - intros j x g' Hg' Hx. apply anchorAttempt_cell; [exact Hg' | right; exact Hx].
  - exact Hg.
  - apply anchorAttempt_cell; [exact Hg | left; reflexivity].
Qed.

(** The speed of a transition that covers [(a, b)] in [dur] ms. *)
Lemma hypot_div (a b dur : R) : 0 < dur -> hypot (a / dur) (b / dur) = hypot a b / dur.
Proof.
  intros Hd. pose proof (hypot_nonneg a b) as H0. pose proof (hypot_sq a b) as Hs.
  assert (Hk : 0 < / dur) by (apply Rinv_0_lt_compat; exact Hd).
  unfold Rdiv.
  replace (hypot (a * / dur) (b * / dur))
    with (sqrt ((hypot a b * / dur) * (hypot a b * / dur))).
  - apply sqrt_square. nra.
  - unfold hypot at 3. f_equal. nra.
Qed.

(** X17.  With [Math.random()] in [[0, 1)], [chooseNewAnchorTarget]
    always finds a candidate, so its fallback branch is never taken: it
    adds [HEATMAP_INCREMENT] to one cell of the 9 x 16 heat map, starts
    the transition at [t] with a duration above 1400 ms, leaves the
    anchor on course (the duration at the stored velocity leads to the
    target) and never sets a speed of 10/3 px/ms or more. *)
Theorem chooseNewAnchorTarget_sets_course (cfg : Config) (h : HeatMap)
    (ms : list Mover) (i : nat) (m : Mover) (t limX limY : R) (tgs : list TargetScr)
    (g : Rng) :
  tape_ok g ->
  let r := fst (chooseNewAnchorTarget cfg h ms i m t limX limY tgs g) in
  let a := fst r in
  (exists row col, (row < HEAT_ROWS)%nat /\ (col < HEAT_COLS)%nat
                   /\ snd r = heat_add h row col HEATMAP_INCREMENT)
  /\ anchorMoveStart a = t
  /\ anchorMoveEnd a = t + anchorMoveDuration a
  /\ 1400 < anchorMoveDuration a
  /\ on_course (anchorMoveDuration a) a
  /\ hypot (anchorVelSx a) (anchorVelSy a) < 10 / 3.
Proof.
  intros Hg. cbv zeta. unfold chooseNewAnchorTarget. cbv zeta. rewrite bind_run.
  match goal with
  | |- context [forM (seq 0 25) ?b None g] =>
      pose proof (chooseNewAnchorTarget_best cfg h ms i m limX limY
                    (0 + orElse (anchorBias (ROLES (role (beh m)))) 0
                     + orElse (anchorBias (EPISODES (episode (beh m)))) 0) tgs g Hg) as Hb;
      assert (Htape : tape (snd (forM (seq 0 25) b None g)) = tape g)
        by (apply (keeps_tape_forM (seq 0 25)); intros; apply keeps_tape_anchorAttempt);
      destruct (forM (seq 0 25) b None g) as [[b0 |] g1]
  end; cbn [fst snd cell_in] in *; [| contradiction].
  rewrite bind_run. unfold ret, rand. rewrite bind_run. unfold ret, random.
  cbn [fst snd tape cursor].
  pose proof (Hg (cursor g1)) as Hu. rewrite <- Htape in Hu.
  set (u := tape g1 (cursor g1)) in *.
  pose proof (macroSpeed_range (episode (beh m))) as Hms.
  set (msp := macroSpeed (EPISODES (episode (beh m)))) in *.
  set (ddx := c_sx b0 - anchorPosSx (anchor m)).
  set (ddy := c_sy b0 - anchorPosSy (anchor m)).
  destruct (orElse_hypot ddx ddy) as [Hd0 Hd1].
  set (dist := orElse (hypot ddx ddy) 1) in *.
  assert (Hbase : 1400 < (2000 + u * (5000 - 2000)) / msp).
  { assert (Hi : / 1.4 <= / msp) by (apply Rinv_le_contravar; lra).
    assert (Hi' : 1400 < 2000 * / 1.4) by lra.
    unfold Rdiv. nra. }
  set (dur := (2000 + u * (5000 - 2000)) / msp + dist * 0.3) in *.
  assert (Hdur : 1400 < dur) by (unfold dur; nra).
  assert (Hdur' : dist * 0.3 < dur) by (unfold dur; lra).
  clearbody dur.
  split; [| split; [| split; [| split; [| split]]]].
  - exists (c_row b0), (c_col b0). destruct Hb. auto.
  - reflexivity.
  - reflexivity.
  - exact Hdur.
  - unfold on_course, anchorToward.
    cbn [anchorTargetSx anchorTargetSy anchorPosSx anchorPosSy anchorVelSx anchorVelSy
         anchorMoveDuration].
    split; field; lra.
  - unfold anchorToward. cbn [anchorVelSx anchorVelSy]. fold ddx ddy.
    rewrite hypot_div by lra.
    apply Rmult_lt_reg_r with dur; [lra |].
    unfold Rdiv at 1. rewrite Rmult_assoc, Rinv_l by lra. nra.
Qed.

Lemma chooseNewAnchorTarget_sets_course_witness :
  let r := fst (chooseNewAnchorTarget defaultConfig heatMap_init [] 0
                  (sampleMover (hitCombat 0 0) courseAnchor) 1000 500 220 [] zeroRng) in
  let a := fst r in
  (exists row col, (row < HEAT_ROWS)%nat /\ (col < HEAT_COLS)%nat
                   /\ snd r = heat_add heatMap_init row col HEATMAP_INCREMENT)
  /\ anchorMoveStart a = 1000
  /\ anchorMoveEnd a = 1000 + anchorMoveDuration a
  /\ 1400 < anchorMoveDuration a
  /\ on_course (anchorMoveDuration a) a
  /\ hypot (anchorVelSx a) (anchorVelSy a) < 10 / 3.
Proof.
  apply (chooseNewAnchorTarget_sets_course defaultConfig heatMap_init [] 0
           (sampleMover (hitCombat 0 0) courseAnchor) 1000 500 220 [] zeroRng zeroRng_ok).
Defined.

(** ** The soft clamp and the blend of computeMicroOffset *)

(** The soft clamp scales both axes by one factor in [[0, 1]] that
    leaves each axis within the room the anchor has on it. *)
Lemma softClamp_room (m : Mover) (limX limY : R) (o : Vec2) :
  let maxDx := limX - Rabs (anchorPosSx (anchor m)) - (m_r (kin m) + 20) in
  let maxDy := limY - Rabs (anchorPosSy (anchor m)) - (m_r (kin m) + 20) in
  exists s, 0 <= s <= 1
    /\ vx (softClamp m limX limY o) = vx o * s
    /\ vy (softClamp m limX limY o) = vy o * s
    /\ Rabs (vx o) * s <= Rmax 0 maxDx
    /\ Rabs (vy o) * s <= Rmax 0 maxDy.
Proof.
  cbv zeta. unfold softClamp. cbv zeta. cbn [vx vy].
  set (maxDx := limX - Rabs (anchorPosSx (anchor m)) - (m_r (kin m) + 20)).
  set (maxDy := limY - Rabs (anchorPosSy (anchor m)) - (m_r (kin m) + 20)).
  assert (Hroom : forall maxD a,
             let f := if Rle_b maxD 0 then 0 else maxD / Rmax (Rabs a) 1e-6 in
             0 <= f /\ Rabs a * f <= Rmax 0 maxD).
  { intros maxD a. cbv zeta.
    pose proof (Rabs_pos a) as Ha.
    pose proof (Rmax_l (Rabs a) 1e-6) as Hl. pose proof (Rmax_r (Rabs a) 1e-6) as Hr.
    pose proof (Rmax_l 0 maxD) as H0. pose proof (Rmax_r 0 maxD) as H1.
    destruct (Rle_b_spec maxD 0) as [Hle | Hgt]; [split; lra |].
    set (d := Rmax (Rabs a) 1e-6) in *.
    assert (Hd : 0 < d) by lra.
    assert (Hk : 0 < / d) by (apply Rinv_0_lt_compat; exact Hd).
    assert (Hone : d * / d = 1) by (apply Rinv_r; lra).
    unfold Rdiv. split; [nra |].
    apply Rle_trans with maxD; [| exact H1].
    assert (Rabs a * / d <= 1) by nra. nra. }
  destruct (Hroom maxDx (vx o)) as [Hfx Hrx]. destruct (Hroom maxDy (vy o)) as [Hfy Hry].
  cbv zeta in Hfx, Hrx, Hfy, Hry.
  set (fx := if Rle_b maxDx 0 then 0 else maxDx / Rmax (Rabs (vx o)) 1e-6) in *.
  set (fy := if Rle_b maxDy 0 then 0 else maxDy / Rmax (Rabs (vy o)) 1e-6) in *.
  assert (Hpos : 0 < Rmax (Rmax (Rabs (vx o)) (Rabs (vy o))) 1e-6).
  { pose proof (Rmax_r (Rmax (Rabs (vx o)) (Rabs (vy o))) 1e-6). lra. }
  destruct (Rlt_b_spec 0 (Rmax (Rmax (Rabs (vx o)) (Rabs (vy o))) 1e-6)); [| contradiction].
  exists (Rmin (Rmin 1 fx) fy).
  pose proof (Rmin_l (Rmin 1 fx) fy) as M1. pose proof (Rmin_r (Rmin 1 fx) fy) as M2.
  pose proof (Rmin_l 1 fx) as M3. pose proof (Rmin_r 1 fx) as M4.
  assert (Hs : 0 <= Rmin (Rmin 1 fx) fy).
  { apply Rmin_glb; [apply Rmin_glb; lra | exact Hfy]. }
  pose proof (Rabs_pos (vx o)). pose proof (Rabs_pos (vy o)).
  split; [lra |]. split; [reflexivity |]. split; [reflexivity |].
  split; nra.
Qed.

(** X18.  [computeMicroOffset]: when the cached offset fits the room
    the anchor has on each axis ([lim - |anchor| - (r + 20)], or 0 when
    that is negative), so do the offset it returns and the offset it
    caches.  Before the blend starts the result is the cached offset and
    the mover is not changed; once [MICRO_BLEND_MS] have passed the
    result is the soft-clamped offset itself, which is then cached. *)
Theorem computeMicroOffset_fits_room (cfg : Config) (m : Mover) (t limX limY : R) :
  let roomX := Rmax 0 (limX - Rabs (anchorPosSx (anchor m)) - (m_r (kin m) + 20)) in
  let roomY := Rmax 0 (limY - Rabs (anchorPosSy (anchor m)) - (m_r (kin m) + 20)) in
  let prev := prevOffset (micro m) in
  let r := computeMicroOffset cfg m t limX limY in
  Rabs (vx prev) <= roomX -> Rabs (vy prev) <= roomY ->
  (Rabs (vx (fst r)) <= roomX /\ Rabs (vy (fst r)) <= roomY)
  /\ (Rabs (vx (prevOffset (micro (snd r)))) <= roomX
      /\ Rabs (vy (prevOffset (micro (snd r)))) <= roomY)
  /\ (t <= microBlendStart (micro m) -> fst r = prev /\ snd r = m)
  /\ (microBlendStart (micro m) + MICRO_BLEND_MS <= t ->
      fst r = softClamp m limX limY (preClampOffset cfg m t limX limY)
      /\ prevOffset (micro (snd r)) = fst r).
Proof.
  cbv zeta. intros Hpx Hpy. unfold computeMicroOffset. cbv zeta. cbn [fst snd].
  rewrite orElse_0.
  destruct (softClamp_room m limX limY (preClampOffset cfg m t limX limY))
    as (s & Hs & Ex & Ey & Hx & Hy). cbv zeta in Hx, Hy.
  set (o := softClamp m limX limY (preClampOffset cfg m t limX limY)) in *.
  set (roomX := Rmax 0 (limX - Rabs (anchorPosSx (anchor m)) - (m_r (kin m) + 20))) in *.
  set (roomY := Rmax 0 (limY - Rabs (anchorPosSy (anchor m)) - (m_r (kin m) + 20))) in *.
  assert (Hox : Rabs (vx o) <= roomX).
  { rewrite Ex, Rabs_mult, (Rabs_pos_eq s) by lra. exact Hx. }
  assert (Hoy : Rabs (vy o) <= roomY).
  { rewrite Ey, Rabs_mult, (Rabs_pos_eq s) by lra. exact Hy. }
  assert (Hblend : 0 < MICRO_BLEND_MS) by (unfold MICRO_BLEND_MS; lra).
  destruct (Rlt_b_spec 0 MICRO_BLEND_MS) as [_ | Hn]; [| contradiction].
  set (bdt := t - microBlendStart (micro m)).
  set (alpha := Rmax 0 (Rmin 1 (bdt / MICRO_BLEND_MS))).
  assert (Ha : 0 <= alpha <= 1).
  { unfold alpha. split; [apply Rmax_l |].
    apply Rmax_lub; [lra | apply Rmin_l]. }
  assert (Hmix : forall p q L, Rabs p <= L -> Rabs q <= L ->
                   Rabs (p * (1 - alpha) + q * alpha) <= L).
  { intros p q L Hp Hq. apply Rabs_bounds in Hp. apply Rabs_bounds in Hq.
    apply Rabs_le. split; nra. }
  assert (Hrx := Hmix _ _ _ Hpx Hox). assert (Hry := Hmix _ _ _ Hpy Hoy).
  split; [split; assumption |]. split; [| split].
  - destruct (Rle_b 1 alpha); cbn; split; assumption.
  - intros Hle.
    assert (E0 : alpha = 0).
    { unfold alpha. apply Rmax_left. apply Rle_trans with (bdt / MICRO_BLEND_MS);
        [apply Rmin_r |].
      unfold Rdiv, bdt. assert (0 < / MICRO_BLEND_MS) by (apply Rinv_0_lt_compat; lra).
      nra. }
    rewrite E0. destruct (Rle_b_spec 1 0) as [H10 | _]; [lra |].
    split; [| reflexivity].
    destruct (prevOffset (micro m)) as [px py]. cbn [vx vy]. f_equal; ring.
  - intros Hge.
    assert (E1 : alpha = 1).
    { unfold alpha. rewrite Rmin_left.
      - apply Rmax_right. lra.
      - unfold Rdiv, bdt. apply Rmult_le_reg_r with MICRO_BLEND_MS; [lra |].
        rewrite Rmult_assoc, Rinv_l by lra. lra. }
    rewrite E1. destruct (Rle_b_spec 1 1) as [_ | H11]; [| lra].
    split; [| reflexivity].
    destruct o as [ox oy]. cbn [vx vy]. f_equal; ring.
Qed.

Lemma computeMicroOffset_fits_room_witness :
  let m := sampleMover (hitCombat 0 0) courseAnchor in
  let r := computeMicroOffset defaultConfig m 300 500 220 in
  (Rabs (vx (fst r)) <= Rmax 0 (500 - Rabs 0 - (14 + 20))
   /\ Rabs (vy (fst r)) <= Rmax 0 (220 - Rabs 0 - (14 + 20)))
  /\ (Rabs (vx (prevOffset (micro (snd r)))) <= Rmax 0 (500 - Rabs 0 - (14 + 20))
      /\ Rabs (vy (prevOffset (micro (snd r)))) <= Rmax 0 (220 - Rabs 0 - (14 + 20)))
  /\ (300 <= 0 -> fst r = {| vx := 0; vy := 0 |} /\ snd r = m)
  /\ (0 + MICRO_BLEND_MS <= 300 ->
      fst r = softClamp m 500 220 (preClampOffset defaultConfig m 300 500 220)
      /\ prevOffset (micro (snd r)) = fst r).
Proof.
  cbv zeta.
  apply (computeMicroOffset_fits_room defaultConfig
           (sampleMover (hitCombat 0 0) courseAnchor) 300 500 220);
    cbn [sampleMover micro prevOffset vx vy]; rewrite Rabs_R0; apply Rmax_l.
Defined.

(** ** Threat: the shortening of the micro-pattern and of the transition *)

Lemma threatOf_range (c : Config) (f : Frame) (scr : Screen) :
  0 < limXVal f -> 0 < limYVal f -> 0 <= threatOf c f scr <= 1.
Proof.
  intros HX HY. unfold threatOf. cbv zeta.
  destruct (moversFlee c); [| lra].
  split; [apply Rmax_l |]. apply Rmax_lub; [lra |].
  pose proof (hypot_nonneg (sx scr) (sy scr)) as Hd.
  assert (Hm : 0 < Rmin (limXVal f) (limYVal f) * 0.75).
  { apply Rmult_lt_0_compat; [apply Rmin_glb_lt; assumption | lra]. }
  assert (0 <= hypot (sx scr) (sy scr) / (Rmin (limXVal f) (limYVal f) * 0.75)).
  { unfold Rdiv. apply Rmult_le_pos; [exact Hd |]. left. apply Rinv_0_lt_compat. exact Hm. }
  lra.
Qed.

(** X19.  In an arena that is not empty the threat lies in [[0, 1]].
    The adjustments it drives never postpone: the switch of the
    micro-pattern and the end of the anchor transition stay or come
    earlier.  A transition that is shortened keeps its position and
    target, gets a positive duration and ends on course: the time left
    at the new velocity leads to the target. *)
Theorem threat_only_shortens (c : Config) (f : Frame) (scr : Screen) (m : Mover) :
  0 < limXVal f -> 0 < limYVal f -> 0 < anchorMoveDuration (anchor m) ->
  let th := threatOf c f scr in
  let a := anchor m in
  let a' := hurryAnchor (tNow f) th (episode (beh m)) a in
  0 <= th <= 1
  /\ microNextSwitch (micro (modulatePhase (tNow f) th m)) <= microNextSwitch (micro m)
  /\ anchorMoveEnd a' <= anchorMoveEnd a
  /\ 0 < anchorMoveDuration a'
  /\ anchorPosSx a' = anchorPosSx a /\ anchorPosSy a' = anchorPosSy a
  /\ anchorTargetSx a' = anchorTargetSx a /\ anchorTargetSy a' = anchorTargetSy a
  /\ (a' = a \/ on_course (anchorMoveEnd a' - tNow f) a').
Proof.
  intros HX HY Hdur. cbv zeta.
  pose proof (threatOf_range c f scr HX HY) as Hth.
  set (th := threatOf c f scr) in *.
  split; [exact Hth |]. split.
  { unfold modulatePhase. cbv zeta.
    match goal with |- context [Rlt_b ?x ?y] => destruct (Rlt_b_spec x y) as [Hlt | Hge] end.
    - cbn in *. lra.
    - cbn. lra. }
  pose proof (macroSpeed_range (episode (beh m))) as Hms.
  unfold hurryAnchor. cbv zeta.
  set (msp := macroSpeed (EPISODES (episode (beh m)))) in *.
  set (desired := anchorMoveDuration (anchor m) * (1 - 0.3 * th) / msp).
  assert (Hdes : 0 < desired).
  { unfold desired, Rdiv. apply Rmult_lt_0_compat; [nra |].
    apply Rinv_0_lt_compat. lra. }
  destruct (Rlt_b_spec desired (anchorMoveEnd (anchor m) - tNow f)) as [Hlt | Hge].
  - cbn [anchorMoveEnd anchorMoveDuration anchorPosSx anchorPosSy anchorTargetSx
         anchorTargetSy].
    split; [lra |]. split; [exact Hdes |]. repeat (split; [reflexivity |]).
    right. unfold on_course.
    cbn [anchorMoveEnd anchorPosSx anchorPosSy anchorTargetSx anchorTargetSy
         anchorVelSx anchorVelSy].
    clearbody desired. split; field; lra.
  - split; [lra |]. split; [exact Hdur |]. repeat (split; [reflexivity |]).
    left. reflexivity.
Qed.

Lemma threat_only_shortens_witness :
  let f := {| tNow := 1000; limXVal := 500; limYVal := 220; cosR := 1; sinR := 0;
              liveTargetsScr := []; moversScr := []; dtN := 1; dtMs := 16.6667;
              playerSpeed := 0 |} in
  let m := sampleMover (hitCombat 0 0) courseAnchor in
  let th := threatOf defaultConfig f {| sx := 30; sy := 40 |} in
  let a' := hurryAnchor 1000 th Explore courseAnchor in
  0 <= th <= 1
  /\ microNextSwitch (micro (modulatePhase 1000 th m)) <= 3000
  /\ anchorMoveEnd a' <= 2000
  /\ 0 < anchorMoveDuration a'
  /\ anchorPosSx a' = 0 /\ anchorPosSy a' = 0
  /\ anchorTargetSx a' = 100 /\ anchorTargetSy a' = 50
  /\ (a' = courseAnchor \/ on_course (anchorMoveEnd a' - 1000) a').
Proof.
  cbv zeta.
  apply (threat_only_shortens defaultConfig
           {| tNow := 1000; limXVal := 500; limYVal := 220; cosR := 1; sinR := 0;
              liveTargetsScr := []; moversScr := []; dtN := 1; dtMs := 16.6667;
              playerSpeed := 0 |}
           {| sx := 30; sy := 40 |} (sampleMover (hitCombat 0 0) courseAnchor));
    cbn; lra.
Defined.

(** ** The choice of a micro-pattern: chooseNewMicro *)

Lemma tape_ok_snd {A} (c : Rand A) (g : Rng) :
  keeps_tape c -> tape_ok g -> tape_ok (snd (c g)).
Proof. intros Hk Hg. eapply tape_ok_eq; [apply Hk | exact Hg]. Qed.

Lemma rand_in (a b : R) (g : Rng) :
  tape_ok g -> a <= b ->
  a <= fst (rand a b g) <= b /\ (a < b -> fst (rand a b g) < b).
Proof.
  intros Hg Hab. unfold rand. rewrite bind_run. unfold ret, random. cbn [fst snd].
  pose proof (Hg (cursor g)) as Hu. split; [split |]; try intros; nra.
Qed.

Lemma figure8_names :
  filter (fun n => startsWith_figure8 n) MICRO_PATTERN_NAMES
  = [figure8; figure8Wide; figure8Spiral].
Proof. reflexivity. Qed.

Lemma tierAt_indexOf (tr : Tier) : tierAt (MICRO_TIERS_indexOf tr) = tr.
Proof. destruct tr; reflexivity. Qed.

(** X20.  With [Math.random()] in [[0, 1)] and a gain range that is not
    empty, [chooseNewMicro] starts the new pattern and its blend at [t],
    gives it a duration in [[2500, 5000)] ms and schedules the next
    switch at its end, draws the gain inside the range of the mover,
    keeps the cached offset, stores a type and a tier index that agree
    with the pattern and the tier chosen, and never lets more than
    three patterns outside the figure-8 family follow one another. *)
Theorem chooseNewMicro_starts_pattern (m : Mover) (t : R) (g : Rng) :
  tape_ok g -> microGainMin (dna m) <= microGainMax (dna m) ->
  let c' := micro (fst (chooseNewMicro m t g)) in
  microStart c' = t /\ microBlendStart c' = t
  /\ MICRO_MIN_MS <= microDuration c' < MICRO_MAX_MS
  /\ microNextSwitch c' = t + microDuration c'
  /\ microGainMin (dna m) <= microGain c' <= microGainMax (dna m)
  /\ prevOffset c' = prevOffset (micro m)
  /\ microType c' = (if includes_spiral (microPattern c') then type_spiral else type_figure8)
  /\ tierAt (microTierIndex c') = microTier c'
  /\ ((nonFigureCount (micro m) <= 3)%nat -> (nonFigureCount c' <= 3)%nat)
  /\ ((3 <= nonFigureCount (micro m))%nat ->
      startsWith_figure8 (microPattern c') = true /\ nonFigureCount c' = 0%nat).
Proof.
  intros Hg Hgain. cbv zeta. unfold chooseNewMicro. cbv zeta.
  rewrite bind_run.
  match goal with
  | |- context [weightedIndex ?ws g] =>
      pose proof (tape_ok_snd _ g (keeps_tape_weightedIndex ws) Hg) as Hg1;
      destruct (weightedIndex ws g) as [k g1]
  end.
  cbn [fst snd] in *. rewrite bind_run.
  match goal with
  | |- context [weightedIndex ?ws g1] =>
      pose proof (tape_ok_snd _ g1 (keeps_tape_weightedIndex ws) Hg1) as Hg2;
      destruct (weightedIndex ws g1) as [kt g2]
  end.
  cbn [fst snd] in *. rewrite bind_run.
  pose proof (rand_in MICRO_MIN_MS MICRO_MAX_MS g2 Hg2) as [Hd Hd'];
    [unfold MICRO_MIN_MS, MICRO_MAX_MS; lra |].
  specialize (Hd' ltac:(unfold MICRO_MIN_MS, MICRO_MAX_MS; lra)).
  pose proof (tape_ok_snd _ g2 (keeps_tape_rand MICRO_MIN_MS MICRO_MAX_MS) Hg2) as Hg3.
  destruct (rand MICRO_MIN_MS MICRO_MAX_MS g2) as [baseDur g3].
  cbn [fst snd] in *. rewrite bind_run.
  pose proof (rand_in (microGainMin (dna m)) (microGainMax (dna m)) g3 Hg3 Hgain)
    as [Hgn _].
  destruct (rand (microGainMin (dna m)) (microGainMax (dna m)) g3) as [gain g4].
  cbn [fst snd] in *. rewrite bind_run.
  set (chosenName := nth k _ _).
  set (chosenTier := nth kt _ _).
  assert (Hforced : (3 <= nonFigureCount (micro m))%nat ->
                    startsWith_figure8 chosenName = true).
  { intros H3. unfold chosenName.
    replace (3 <=? nonFigureCount (micro m))%nat with true
      by (symmetry; apply Nat.leb_le; exact H3).
    rewrite figure8_names. destruct k as [| [| [| [| k]]]]; reflexivity. }
  clearbody chosenName chosenTier.
  assert (Hmicro : forall u g', micro (fst (
            (if Rlt_b u 0.3 then
               do u' <- random;
               let b := beh (set_micro
                 {| microPattern := chosenName;
                    microType := if includes_spiral chosenName
                                 then type_spiral else type_figure8;
                    microTier := chosenTier;
                    microTierIndex := MICRO_TIERS_indexOf chosenTier;
                    microStart := t; microDuration := baseDur; microBlendStart := t;
                    microNextSwitch := t + baseDur; prevOffset := prevOffset (micro m);
                    microGain := gain;
                    nonFigureCount := if startsWith_figure8 chosenName then 0%nat
                                      else (nonFigureCount (micro m) + 1)%nat |} m) in
               ret (set_beh {| role := role b; roleExpires := roleExpires b;
                               episode := episode b; episodeExpires := episodeExpires b;
                               fleeSide := if Rlt_b u' 0.5 then 1 else -1 |}
                      (set_micro
                 {| microPattern := chosenName;
                    microType := if includes_spiral chosenName
                                 then type_spiral else type_figure8;
                    microTier := chosenTier;
                    microTierIndex := MICRO_TIERS_indexOf chosenTier;
                    microStart := t; microDuration := baseDur; microBlendStart := t;
                    microNextSwitch := t + baseDur; prevOffset := prevOffset (micro m);
                    microGain := gain;
                    nonFigureCount := if startsWith_figure8 chosenName then 0%nat
                                      else (nonFigureCount (micro m) + 1)%nat |} m))
             else ret (set_micro
                 {| microPattern := chosenName;
                    microType := if includes_spiral chosenName
                                 then type_spiral else type_figure8;
                    microTier := chosenTier;
                    microTierIndex := MICRO_TIERS_indexOf chosenTier;
                    microStart := t; microDuration := baseDur; microBlendStart := t;
                    microNextSwitch := t + baseDur; prevOffset := prevOffset (micro m);
                    microGain := gain;
                    nonFigureCount := if startsWith_figure8 chosenName then 0%nat
                                      else (nonFigureCount (micro m) + 1)%nat |} m)) g'))
          = {| microPattern := chosenName;
               microType := if includes_spiral chosenName then type_spiral else type_figure8;
               microTier := chosenTier;
               microTierIndex := MICRO_TIERS_indexOf chosenTier;
               microStart := t; microDuration := baseDur; microBlendStart := t;
               microNextSwitch := t + baseDur; prevOffset := prevOffset (micro m);
               microGain := gain;
               nonFigureCount := if startsWith_figure8 chosenName then 0%nat
                                 else (nonFigureCount (micro m) + 1)%nat |}).
  { intros u g'. destruct (Rlt_b u 0.3); [rewrite bind_run |]; reflexivity. }
  rewrite Hmicro. cbn [microStart microBlendStart microDuration microNextSwitch microGain
                       prevOffset microType microPattern microTierIndex microTier
                       nonFigureCount].
  repeat (split; [first [reflexivity | assumption | lra] |]).
  split; [apply tierAt_indexOf |]. split.
  - intros H3. destruct (Nat.eq_dec (nonFigureCount (micro m)) 3%nat) as [E3 | E3].
    + rewrite (Hforced ltac:(lia)). lia.
    + destruct (startsWith_figure8 chosenName); lia.
  - intros H3. rewrite (Hforced H3). split; reflexivity.
Qed.

Lemma chooseNewMicro_starts_pattern_witness :
  let m := sampleMover (hitCombat 0 0) courseAnchor in
  let c' := micro (fst (chooseNewMicro m 3000 zeroRng)) in
  microStart c' = 3000 /\ microBlendStart c' = 3000
  /\ MICRO_MIN_MS <= microDuration c' < MICRO_MAX_MS
  /\ microNextSwitch c' = 3000 + microDuration c'
  /\ 0.8 <= microGain c' <= 1.5
  /\ prevOffset c' = {| vx := 0; vy := 0 |}
  /\ microType c' = (if includes_spiral (microPattern c') then type_spiral else type_figure8)
  /\ tierAt (microTierIndex c') = microTier c'
  /\ ((0 <= 3)%nat -> (nonFigureCount c' <= 3)%nat)
  /\ ((3 <= 0)%nat ->
      startsWith_figure8 (microPattern c') = true /\ nonFigureCount c' = 0%nat).
Proof.
  cbv zeta.
  apply (chooseNewMicro_starts_pattern (sampleMover (hitCombat 0 0) courseAnchor) 3000
           zeroRng zeroRng_ok).
  cbn. lra.
Defined.

(** ** Where and how a mover spawns: spawnMoverInWindow *)

Lemma rand_abs (b : R) (g : Rng) :
  tape_ok g -> 0 <= b -> Rabs (fst (rand (- b) b g)) <= b.
Proof.
  intros Hg Hb. destruct (rand_in (- b) b g Hg) as [H _]; [lra |].
  apply Rabs_le. lra.
Qed.

(** The placement loop returns the starting point or a point it drew. *)
Lemma spawnPosition_in (tries : nat) (limX limY r : R) (cur : R * R) (g : Rng) :
  tape_ok g -> r <= limX -> r <= limY ->
  Rabs (fst cur) <= limX - r -> Rabs (snd cur) <= limY - r ->
  Rabs (fst (fst (spawnPosition tries limX limY r cur g))) <= limX - r
  /\ Rabs (snd (fst (spawnPosition tries limX limY r cur g))) <= limY - r.
Proof.
  intros Hg HX HY. revert cur g Hg.
  induction tries as [| n IH]; intros cur g Hg Hcx Hcy; cbn [spawnPosition].
  - split; assumption.
  - rewrite bind_run.
    replace (- limX + r) with (- (limX - r)) by ring.
    replace (- limY + r) with (- (limY - r)) by ring.
    pose proof (rand_abs (limX - r) g Hg ltac:(lra)) as Hx.
    pose proof (tape_ok_snd _ g (keeps_tape_rand (- (limX - r)) (limX - r)) Hg) as Hg1.
    destruct (rand (- (limX - r)) (limX - r) g) as [px g1]. cbn [fst snd] in *.
    rewrite bind_run.
    pose proof (rand_abs (limY - r) g1 Hg1 ltac:(lra)) as Hy.
    pose proof (tape_ok_snd _ g1 (keeps_tape_rand (- (limY - r)) (limY - r)) Hg1) as Hg2.
    destruct (rand (- (limY - r)) (limY - r) g1) as [py g2]. cbn [fst snd] in *.
    destruct (Rle_b 90 (hypot px py)).
    + cbn. split; assumption.
    + apply IH; assumption.
Qed.

(** A direction divided by its length, as the spawn does it, is a unit
    vector, or zero when both draws are zero. *)
Lemma normalised_le (a b : R) :
  let sp := orElse (hypot a b) 1 in
  (a / sp) * (a / sp) + (b / sp) * (b / sp) <= 1.
Proof.
  cbv zeta. destruct (orElse_hypot a b) as [Hp Hle].
  set (sp := orElse (hypot a b) 1) in *.
  pose proof (hypot_sq a b) as Hs. pose proof (hypot_nonneg a b) as H0.
  assert (Hk : 0 < / sp) by (apply Rinv_0_lt_compat; exact Hp).
  assert (Hone : sp * / sp = 1) by (apply Rinv_r; lra).
  unfold Rdiv.
  replace (a * / sp * (a * / sp) + b * / sp * (b * / sp))
    with ((hypot a b * / sp) * (hypot a b * / sp)) by nra.
  assert (0 <= hypot a b * / sp <= 1) by nra. nra.
Qed.

Lemma screenToWorld_norm (a b c s : R) :
  s * s + c * c = 1 ->
  dx (screenToWorld a b c s) * dx (screenToWorld a b c s)
  + dy (screenToWorld a b c s) * dy (screenToWorld a b c s) = a * a + b * b.
Proof.
  intros H. unfold screenToWorld. cbn [dx dy].
  transitivity ((a * a + b * b) * (s * s + c * c)); [ring | rewrite H; ring].
Qed.

Lemma spawnTraits_in (role : Role) (g : Rng) :
  tape_ok g ->
  let '(d, gain, _, _) := fst (spawnTraits role g) in
  microGainMin d <= microGainMax d /\ microGainMin d <= gain <= microGainMax d.
Proof.
  intros Hg. unfold spawnTraits. cbv zeta.
  rewrite bind_run.
  pose proof (tape_ok_snd _ g (keeps_tape_rand 1.0 2.2) Hg) as Hg1.
  destruct (rand 1.0 2.2 g) as [wb g1]. cbn [fst snd] in *. rewrite bind_run.
  destruct (rand_in 0.6 1.2 g1 Hg1) as [Hmin _]; [lra |].
  pose proof (tape_ok_snd _ g1 (keeps_tape_rand 0.6 1.2) Hg1) as Hg2.
  destruct (rand 0.6 1.2 g1) as [gmin g2]. cbn [fst snd] in *. rewrite bind_run.
  destruct (rand_in 1.2 1.8 g2 Hg2) as [Hmax _]; [lra |].
  pose proof (tape_ok_snd _ g2 (keeps_tape_rand 1.2 1.8) Hg2) as Hg3.
  destruct (rand 1.2 1.8 g2) as [gmax g3]. cbn [fst snd] in *. rewrite bind_run.
  pose proof (tape_ok_snd _ g3 (keeps_tape_rand 0.1 0.4) Hg3) as Hg4.
  destruct (rand 0.1 0.4 g3) as [feint g4]. cbn [fst snd] in *. rewrite bind_run.
  cbn [microGainMin microGainMax].
  destruct (rand_in gmin gmax g4 Hg4) as [Hgain _]; [lra |].
  destruct (rand gmin gmax g4) as [gain g5]. cbn [fst snd] in *.
  rewrite !bind_run. unfold ret. cbn [fst snd microGainMin microGainMax].
  split; [lra | exact Hgain].
Qed.

(** From the equations the steps of a call leave in the context: every
    state of the tape is a tape of [Math.random()] results. *)
Ltac tapes :=
  repeat match goal with
         | Hok : tape_ok ?g, E : tape ?g' = tape ?g |- _ =>
             lazymatch goal with
             | _ : tape_ok g' |- _ => fail
             | _ => assert (tape_ok g') by (exact (tape_ok_eq g g' E Hok))
             end
         end.

(** The range of the result [v] of a draw [rand a b g = (v, _)]. *)
Ltac drawn v :=
  match goal with
  | Hok : tape_ok ?g, E : rand ?a ?b ?g = (v, _) |- _ =>
      let H := fresh "Hdraw" in
      destruct (rand_in a b g Hok) as [H _]; [lra |];
      rewrite E in H; cbn [fst] in H
  end.

(** X21.  In a canvas that leaves an arena of at least 4 px on each
    side of the centre, with [Math.random()] in [[0, 1)],
    [spawnMoverInWindow] returns a mover whose radius lies between 4
    and the smaller half-size of the arena, whose place on the screen
    keeps the whole disc inside the arena, whose initial velocity is at
    most a unit vector, whose gain lies in the range of its own DNA, and
    whose role and episode expire 8 to 16 s and 2 to 6 s after the
    spawn. *)
Theorem spawnMoverInWindow_places (w : World) (c : Canvas) :
  canvas w = Some c -> tape_ok (rng w) ->
  4 <= width c / 2 - MARGIN -> 4 <= height c / 2 - MARGIN ->
  let limX := width c / 2 - MARGIN in
  let limY := height c / 2 - MARGIN in
  returns spawnMoverInWindow
    (fun nm w' =>
       let k := kin nm in
       let scr := worldToScreen (m_x k - p_x (player w)) (m_y k - p_y (player w))
                    (cos (rollAngle w)) (sin (rollAngle w)) in
       4 <= m_r k <= Rmin limX limY
       /\ Rabs (sx scr) <= limX - m_r k /\ Rabs (sy scr) <= limY - m_r k
       /\ m_vx k * m_vx k + m_vy k * m_vy k <= 1
       /\ microGainMin (dna nm) <= microGain (micro nm) <= microGainMax (dna nm)
       /\ clock w + 8000 <= roleExpires (beh nm) <= clock w + 16000
       /\ clock w + 2000 <= episodeExpires (beh nm) <= clock w + 6000) w.
Proof.
  intros Hc Hok HX HY. cbv zeta. unfold spawnMoverInWindow.
  apply returns_bind. eapply returns_arenaLimits; [exact Hc |].
  repeat jstep. world_simpl.
  cbn [kin m_x m_y m_vx m_vy m_r dna micro microGain beh roleExpires episodeExpires].
  tapes.
  set (limX := width c / 2 - MARGIN) in *. set (limY := height c / 2 - MARGIN) in *.
  assert (Hmin : 4 <= Rmin limX limY) by (apply Rmin_glb; assumption).
  assert (Hr : 4 <= clamp (moversR (cfg w)) 4 (Rmin limX limY) <= Rmin limX limY).
  { destruct (clamp_cases (moversR (cfg w)) 4 (Rmin limX limY) Hmin)
      as [[_ E] | [[[Hl Hh] E] | [_ E]]]; rewrite E; lra. }
  set (r0 := clamp (moversR (cfg w)) 4 (Rmin limX limY)) in *.
  pose proof (Rmin_l limX limY) as HmX. pose proof (Rmin_r limX limY) as HmY.
  pose proof (sin_cos_unit (rollAngle w)) as Hunit.
  split; [exact Hr |].
  match goal with
  | E : spawnPosition 30 limX limY r0 (0, 0) (rng w) = (?pos, _) |- _ =>
      destruct (spawnPosition_in 30 limX limY r0 (0, 0) (rng w) Hok) as [Hpx Hpy];
      try (cbn [fst snd]; rewrite Rabs_R0); try lra;
      rewrite E in Hpx, Hpy; cbn [fst] in Hpx, Hpy;
      destruct (screen_world_round_trip_aux (fst pos) (snd pos) (cos (rollAngle w))
                  (sin (rollAngle w)) Hunit) as [Ex Ey]
  end.
  split; [| split].
  - match goal with
    | |- Rabs (sx (worldToScreen ?u ?v _ _)) <= _ =>
        match type of Ex with
        | sx (worldToScreen ?u' ?v' _ _) = _ =>
            replace u with u' by ring; replace v with v' by ring
        end
    end.
    rewrite Ex. exact Hpx.
  - match goal with
    | |- Rabs (sy (worldToScreen ?u ?v _ _)) <= _ =>
        match type of Ey with
        | sy (worldToScreen ?u' ?v' _ _) = _ =>
            replace u with u' by ring; replace v with v' by ring
        end
    end.
    rewrite Ey. exact Hpy.
  - split.
    { rewrite screenToWorld_norm by exact Hunit. apply normalised_le. }
    split.
    { match goal with
      | Hg : tape_ok ?g, E : spawnTraits ?role ?g = _ |- _ =>
          pose proof (spawnTraits_in role g Hg) as Ht; rewrite E in Ht; cbn [fst] in Ht
      end.
      tauto. }
    split.
    + match goal with |- _ <= _ + ?v <= _ => drawn v end. lra.
    + match goal with |- _ <= _ + ?v <= _ => drawn v end. lra.
Qed.

Lemma spawnMoverInWindow_places_witness :
  returns spawnMoverInWindow
    (fun nm w' =>
       let k := kin nm in
       let scr := worldToScreen (m_x k - 0) (m_y k - 0) (cos 0) (sin 0) in
       4 <= m_r k <= Rmin (1280 / 2 - MARGIN) (720 / 2 - MARGIN)
       /\ Rabs (sx scr) <= 1280 / 2 - MARGIN - m_r k
       /\ Rabs (sy scr) <= 720 / 2 - MARGIN - m_r k
       /\ m_vx k * m_vx k + m_vy k * m_vy k <= 1
       /\ microGainMin (dna nm) <= microGain (micro nm) <= microGainMax (dna nm)
       /\ 0 + 8000 <= roleExpires (beh nm) <= 0 + 16000
       /\ 0 + 2000 <= episodeExpires (beh nm) <= 0 + 6000) arenaWorld.
Proof.
  apply (spawnMoverInWindow_places arenaWorld {| width := 1280; height := 720 |}).
  - reflexivity.
  - apply zeroRng_ok.
  - unfold MARGIN. cbn. lra.
  - unfold MARGIN. cbn. lra.
Defined.

(** * systems/flight.js *)

Module flight.

(** The module variables [vx], [vy] and [w]. *)
Record Vel := { vx : R; vy : R; w : R }.

(** What [stepMove] returns: [{ dx, dy, vx, vy }]. *)
Record Move := { move_dx : R; move_dy : R; move_vx : R; move_vy : R }.

(** What [stepRoll] returns: [{ dAngle, w }]. *)
Record Roll := { dAngle : R; roll_w : R }.

Definition reset (v : Vel) : Vel := {| vx := 0; vy := 0; w := 0 |}.

Definition stepMove (ax ay dtN maxV : R) (v : Vel) : Move * Vel :=
  let vx1 := vx v + ax * dtN in
  let vy1 := vy v + ay * dtN in
  let sp := hypot vx1 vy1 in
  let capped := Rlt_b maxV sp && Rlt_b 0 sp in
  let vx2 := if capped then (vx1 / sp) * maxV else vx1 in
  let vy2 := if capped then (vy1 / sp) * maxV else vy1 in
  ({| move_dx := vx2 * dtN; move_dy := vy2 * dtN; move_vx := vx2; move_vy := vy2 |},
   {| vx := vx2; vy := vy2; w := w v |}).

Definition stepRoll (rollIn dtN angAccel maxW : R) (v : Vel) : Roll * Vel :=
  let w1 := w v + rollIn * angAccel * dtN in
  let w2 := clamp w1 (- maxW) maxW in
  ({| dAngle := w2 * dtN; roll_w := w2 |}, {| vx := vx v; vy := vy v; w := w2 |}).

Definition getVel (v : Vel) : R * R * R := (vx v, vy v, w v).

End flight.

Lemma hypot_scale (a b k : R) : 0 <= k -> hypot (a * k) (b * k) = hypot a b * k.
Proof.
  intros Hk. pose proof (hypot_nonneg a b) as H0. pose proof (hypot_sq a b) as Hs.
  unfold hypot at 1. apply sqrt_lem_1; nra.
Qed.

(** X26.  [stepMove] with a speed limit that is not negative: the
    velocity it stores has a length of at most [maxV], and exactly
    [maxV] when the limit cut it; it points the way the accelerated
    velocity does; the displacement it returns is that velocity times
    [dtN]; the roll rate is not touched.  Without acceleration a
    velocity within the limit is kept as it is: the ship coasts. *)
Theorem stepMove_caps_and_coasts (ax ay dtN maxV : R) (v : flight.Vel) :
  0 <= maxV ->
  let r := flight.stepMove ax ay dtN maxV v in
  let v' := snd r in
  let vx1 := flight.vx v + ax * dtN in
  let vy1 := flight.vy v + ay * dtN in
  hypot (flight.vx v') (flight.vy v') = Rmin maxV (hypot vx1 vy1)
  /\ (exists k, 0 <= k <= 1 /\ flight.vx v' = k * vx1 /\ flight.vy v' = k * vy1)
  /\ flight.move_dx (fst r) = flight.vx v' * dtN
  /\ flight.move_dy (fst r) = flight.vy v' * dtN
  /\ flight.w v' = flight.w v
  /\ (ax = 0 -> ay = 0 -> hypot (flight.vx v) (flight.vy v) <= maxV -> v' = v).
Proof.
  intros HM. cbv zeta. unfold flight.stepMove. cbv zeta.
  cbn [fst snd flight.vx flight.vy flight.w flight.move_dx flight.move_dy].
  set (vx1 := flight.vx v + ax * dtN). set (vy1 := flight.vy v + ay * dtN).
  pose proof (hypot_nonneg vx1 vy1) as H0.
  destruct (Rlt_b_spec maxV (hypot vx1 vy1)) as [Hcap | Hfree]; cbn [andb].
  - destruct (Rlt_b_spec 0 (hypot vx1 vy1)) as [Hpos | Hz]; [| lra].
    set (sp := hypot vx1 vy1) in *.
    assert (Hk : 0 <= maxV / sp <= 1).
    { assert (0 < / sp) by (apply Rinv_0_lt_compat; exact Hpos).
      assert (sp * / sp = 1) by (apply Rinv_r; lra).
      unfold Rdiv. split; nra. }
    split.
    + replace (vx1 / sp * maxV) with (vx1 * (maxV / sp)) by (field; lra).
      replace (vy1 / sp * maxV) with (vy1 * (maxV / sp)) by (field; lra).
      rewrite hypot_scale by lra. fold sp. rewrite Rmin_left by lra. field. lra.
    + split; [exists (maxV / sp); split; [exact Hk |]; split; field; lra |].
      split; [reflexivity |]. split; [reflexivity |]. split; [reflexivity |].
      intros -> -> Hle. exfalso. unfold sp, vx1, vy1 in Hcap.
      replace (flight.vx v + 0 * dtN) with (flight.vx v) in Hcap by ring.
      replace (flight.vy v + 0 * dtN) with (flight.vy v) in Hcap by ring. lra.
  - split; [rewrite Rmin_right by lra; reflexivity |].
    split; [exists 1; split; [lra |]; split; ring |].
    split; [reflexivity |]. split; [reflexivity |]. split; [reflexivity |].
    intros -> -> _. unfold vx1, vy1. destruct v as [a b c]. cbn. f_equal; ring.
Qed.

Lemma stepMove_caps_and_coasts_witness :
  let v := {| flight.vx := 30; flight.vy := 40; flight.w := 0.1 |} in
  let r := flight.stepMove 0 0 1 72 v in
  let v' := snd r in
  hypot (flight.vx v') (flight.vy v') = Rmin 72 (hypot (30 + 0 * 1) (40 + 0 * 1))
  /\ (exists k, 0 <= k <= 1 /\ flight.vx v' = k * (30 + 0 * 1)
                /\ flight.vy v' = k * (40 + 0 * 1))
  /\ flight.move_dx (fst r) = flight.vx v' * 1
  /\ flight.move_dy (fst r) = flight.vy v' * 1
  /\ flight.w v' = 0.1
  /\ (0 = 0 -> 0 = 0 -> hypot 30 40 <= 72 -> v' = v).
Proof.
  cbv zeta.
  apply (stepMove_caps_and_coasts 0 0 1 72
           {| flight.vx := 30; flight.vy := 40; flight.w := 0.1 |}).
  lra.
Defined.

(** X27.  [stepRoll] with a rate limit that is not negative: the roll
    rate it stores lies within [[-maxW, maxW]], so the angle turns by at
    most [maxW * |dtN|]; the linear velocity is not touched; with no
    input a rate within the limit is kept.  [reset] brings every
    velocity to zero, whatever it was. *)
Theorem stepRoll_caps_and_reset_stops (rollIn dtN angAccel maxW : R) (v : flight.Vel) :
  0 <= maxW ->
  let r := flight.stepRoll rollIn dtN angAccel maxW v in
  let v' := snd r in
  Rabs (flight.w v') <= maxW
  /\ flight.roll_w (fst r) = flight.w v'
  /\ flight.dAngle (fst r) = flight.w v' * dtN
  /\ Rabs (flight.dAngle (fst r)) <= maxW * Rabs dtN
  /\ flight.vx v' = flight.vx v /\ flight.vy v' = flight.vy v
  /\ (rollIn = 0 -> Rabs (flight.w v) <= maxW -> v' = v)
  /\ flight.getVel (flight.reset v') = (0, 0, 0).
Proof.
  intros HM. cbv zeta. unfold flight.stepRoll. cbv zeta.
  cbn [fst snd flight.vx flight.vy flight.w flight.dAngle flight.roll_w].
  set (w1 := flight.w v + rollIn * angAccel * dtN).
  assert (Hc : Rabs (clamp w1 (- maxW) maxW) <= maxW).
  { destruct (clamp_cases w1 (- maxW) maxW ltac:(lra)) as [[_ E] | [[H E] | [_ E]]];
      rewrite E; apply Rabs_le; lra. }
  split; [exact Hc |]. split; [reflexivity |]. split; [reflexivity |].
  split; [rewrite Rabs_mult; apply Rmult_le_compat_r; [apply Rabs_pos | exact Hc] |].
  split; [reflexivity |]. split; [reflexivity |]. split; [| reflexivity].
  intros -> Hw. unfold w1. replace (flight.w v + 0 * angAccel * dtN) with (flight.w v) by ring.
  apply Rabs_bounds in Hw.
  destruct (clamp_cases (flight.w v) (- maxW) maxW ltac:(lra)) as [[H _] | [[_ E] | [H _]]];
    try lra.
  rewrite E. destruct v; reflexivity.
Qed.

Lemma stepRoll_caps_and_reset_stops_witness :
  let v := {| flight.vx := 30; flight.vy := 40; flight.w := 0.1 |} in
  let r := flight.stepRoll 1 1 0.00315 0.35 v in
  let v' := snd r in
  Rabs (flight.w v') <= 0.35
  /\ flight.roll_w (fst r) = flight.w v'
  /\ flight.dAngle (fst r) = flight.w v' * 1
  /\ Rabs (flight.dAngle (fst r)) <= 0.35 * Rabs 1
  /\ flight.vx v' = 30 /\ flight.vy v' = 40
  /\ (1 = 0 -> Rabs 0.1 <= 0.35 -> v' = v)
  /\ flight.getVel (flight.reset v') = (0, 0, 0).
Proof.
  cbv zeta.
  apply (stepRoll_caps_and_reset_stops 1 1 0.00315 0.35
           {| flight.vx := 30; flight.vy := 40; flight.w := 0.1 |}).
  lra.
Defined.

(** * systems/targets.js *)

(** The part of [CFG] the targets read: [randomTargetSize], [targetR]
    and [targetCount]. *)
Record TargetCfg := { randomTargetSize : bool; baseTargetR : R; targetCount : R }.

(** [Math.round(x)]. *)
Definition round (x : R) : Z := floor (x + 0.5).

Definition pickTargetRadius (tc : TargetCfg) : Rand R :=
  if negb (randomTargetSize tc) then ret (baseTargetR tc)
  else
    let base := baseTargetR tc in
    do u <- random;
    let r := base * (0.6 + u * 1.4) in
    ret (clamp r 4 200).

Definition spawnTargetNearPlayer (tc : TargetCfg) : Js Target :=
  run lim <- arenaLimits;
  let limX := fst lim in
  let limY := snd lim in
  run u1 <- liftRand random;
  let sx := (u1 * 2 - 1) * limX in
  run u2 <- liftRand random;
  let sy := (u2 * 2 - 1) * limY in
  run angle <- get rollAngle;
  let cos := cos angle in
  let sin := sin angle in
  let w := screenToWorld sx sy cos sin in
  run pl <- get player;
  run r <- liftRand (pickTargetRadius tc);
  jret {| t_x := p_x pl + dx w; t_y := p_y pl + dy w; t_r := r;
          hitStart := 0; t_dead := false |}.

(** [for (let i = 0; i < n; i++) state.targets.push(spawnTargetNearPlayer())] *)
Fixpoint pushTargets (tc : TargetCfg) (k : nat) : Js unit :=
  match k with
  | O => jret tt
  | S k' =>
      run tg <- spawnTargetNearPlayer tc;
      run _ <- modify (fun w => set_targets (targets w ++ [tg]) w);
      pushTargets tc k'
  end.

(** [respawnAllTargets()]; its second statement, [state.targets = []],
    throws, so that the loop after it is never run. *)
Definition respawnAllTargets (tc : TargetCfg) : Js unit :=
  let n := clampZ (round (targetCount tc)) 0 20 in
  run _ <- assignState (set_targets []);
  pushTargets tc (Z.to_nat n).

(** ** Targets spawn live and inside the arena *)

Lemma keeps_tape_pickTargetRadius (tc : TargetCfg) : keeps_tape (pickTargetRadius tc).
Proof. unfold pickTargetRadius. destruct (negb _); tape_tac. Qed.

#[local] Hint Resolve keeps_tape_pickTargetRadius : tape.

(** What a call leaves alone when it only touches the targets and the
    position on the tape. *)
Record same_field (w w' : World) : Prop := {
  fld_cfg : cfg w' = cfg w;
  fld_canvas : canvas w' = canvas w;
  fld_rollAngle : rollAngle w' = rollAngle w;
  fld_player : player w' = player w;
  fld_movers : movers w' = movers w;
  fld_heatMap : heatMap w' = heatMap w;
  fld_roles : roleCounts w' = roleCounts w;
  fld_episodes : episodeCounts w' = episodeCounts w;
  fld_clock : clock w' = clock w;
  fld_tape : tape (rng w') = tape (rng w);
  fld_crosshair : crosshairFlashUntil w' = crosshairFlashUntil w;
  fld_miss : missFlashUntil w' = missFlashUntil w;
  fld_success : lastSuccessAt w' = lastSuccessAt w
}.

(** A target as [spawnTargetNearPlayer] makes it in the world [w] with
    the arena of the canvas [c]. *)
Definition fresh_target (tc : TargetCfg) (w : World) (c : Canvas) (tg : Target) : Prop :=
  let scr := worldToScreen (t_x tg - p_x (player w)) (t_y tg - p_y (player w))
               (cos (rollAngle w)) (sin (rollAngle w)) in
  t_dead tg = false /\ hitStart tg = 0
  /\ Rabs (sx scr) <= width c / 2 - MARGIN
  /\ Rabs (sy scr) <= height c / 2 - MARGIN
  /\ (randomTargetSize tc = false -> t_r tg = baseTargetR tc)
  /\ (randomTargetSize tc = true -> 4 <= t_r tg <= 200).

Lemma pickTargetRadius_range (tc : TargetCfg) (g : Rng) :
  (randomTargetSize tc = false -> fst (pickTargetRadius tc g) = baseTargetR tc)
  /\ (randomTargetSize tc = true -> 4 <= fst (pickTargetRadius tc g) <= 200).
Proof.
  unfold pickTargetRadius. destruct (randomTargetSize tc); cbn [negb].
  - split; [discriminate |]. intros _. rewrite bind_run. unfold ret. cbn [fst].
    match goal with
    | |- _ <= clamp ?v 4 200 <= _ =>
        destruct (clamp_cases v 4 200 ltac:(lra)) as [[_ E] | [[H E] | [_ E]]];
          rewrite E; lra
    end.
  - split; [reflexivity | discriminate].
Qed.

Lemma spawnTargetNearPlayer_spec (tc : TargetCfg) (w : World) (c : Canvas) :
  canvas w = Some c -> tape_ok (rng w) ->
  0 <= width c / 2 - MARGIN -> 0 <= height c / 2 - MARGIN ->
  returns (spawnTargetNearPlayer tc)
    (fun tg w' => same_field w w' /\ targets w' = targets w /\ fresh_target tc w c tg) w.
Proof.
  intros Hc Hok HX HY. unfold spawnTargetNearPlayer.
  apply returns_bind. eapply returns_arenaLimits; [exact Hc |].
  repeat jstep. tapes.
  split; [| split; [reflexivity |]].
  - constructor; world_simpl; try reflexivity. congruence.
  - unfold fresh_target. cbv zeta. cbn [t_x t_y t_r t_dead hitStart fst snd].
    split; [reflexivity |]. split; [reflexivity |].
    set (limX := width c / 2 - MARGIN) in *. set (limY := height c / 2 - MARGIN) in *.
    match goal with
    | |- context [screenToWorld ?a ?b _ _] =>
        destruct (screen_world_round_trip_aux a b (cos (rollAngle w)) (sin (rollAngle w))
                    (sin_cos_unit (rollAngle w))) as [Ex Ey]
    end.
    assert (Hu : forall gen v gen', tape_ok gen -> random gen = (v, gen') -> 0 <= v < 1).
    { intros gen v gen' Hgen E. unfold random in E. injection E as <- _. apply Hgen. }
    split; [| split].
    + match goal with
      | |- Rabs (sx (worldToScreen ?u ?v _ _)) <= _ =>
          match type of Ex with
          | sx (worldToScreen ?u' ?v' _ _) = _ =>
              replace u with u' by ring; replace v with v' by ring
          end
      end.
      rewrite Ex.
      match goal with
      | Hg : tape_ok ?g, E : random ?g = (?v, _) |- Rabs ((?v * 2 - 1) * _) <= _ =>
          pose proof (Hu g v _ Hg E)
      end.
      apply Rabs_le. split; nra.
    + match goal with
      | |- Rabs (sy (worldToScreen ?u ?v _ _)) <= _ =>
          match type of Ey with
          | sy (worldToScreen ?u' ?v' _ _) = _ =>
              replace u with u' by ring; replace v with v' by ring
          end
      end.
      rewrite Ey.
      match goal with
      | Hg : tape_ok ?g, E : random ?g = (?v, _) |- Rabs ((?v * 2 - 1) * _) <= _ =>
          pose proof (Hu g v _ Hg E)
      end.
      apply Rabs_le. split; nra.
    + match goal with
      | E : pickTargetRadius tc ?g = (?r, _) |- _ =>
          pose proof (pickTargetRadius_range tc g) as Hr; rewrite E in Hr; exact Hr
      end.
Qed.

(** X28.  With a canvas no smaller than the margins and
    [Math.random()] in [[0, 1)], [spawnTargetNearPlayer] returns a
    target that is live, not hit, placed inside the arena on the screen,
    with the configured radius or, with random sizes, a radius in
    [[4, 200]]; it changes nothing in the world but the position on the
    tape.  Without a canvas it throws.  [respawnAllTargets] throws at
    [state.targets = []] in every state and leaves the targets and the
    rest of the world as they are: no target is spawned by it. *)
Theorem targets_spawn_in_arena (tc : TargetCfg) (w : World) :
  (forall c, canvas w = Some c -> tape_ok (rng w) ->
     0 <= width c / 2 - MARGIN -> 0 <= height c / 2 - MARGIN ->
     returns (spawnTargetNearPlayer tc)
       (fun tg w' => same_field w w' /\ targets w' = targets w
                     /\ fresh_target tc w c tg) w)
  /\ (canvas w = None -> spawnTargetNearPlayer tc w = (Throw, w))
  /\ respawnAllTargets tc w = (Throw, w).
Proof.
  split; [| split].
  - intros c Hc Hok HX HY. apply spawnTargetNearPlayer_spec; assumption.
  - intros Hc. unfold spawnTargetNearPlayer. unfold jbind at 1. unfold arenaLimits.
    rewrite Hc. reflexivity.
  - reflexivity.
Qed.

(** [CFG] as config.js defines it: one target of radius 10. *)
Definition defaultTargetCfg : TargetCfg :=
  {| randomTargetSize := false; baseTargetR := 10; targetCount := 1 |}.

Lemma targets_spawn_in_arena_witness :
  returns (spawnTargetNearPlayer defaultTargetCfg)
    (fun tg w' => same_field arenaWorld w' /\ targets w' = targets arenaWorld
                  /\ fresh_target defaultTargetCfg arenaWorld
                       {| width := 1280; height := 720 |} tg)
    arenaWorld
  /\ spawnTargetNearPlayer defaultTargetCfg initialWorld = (Throw, initialWorld).
Proof.
  destruct (targets_spawn_in_arena defaultTargetCfg arenaWorld) as (H & _).
  destruct (targets_spawn_in_arena defaultTargetCfg initialWorld) as (_ & H' & _).
  split.
  - apply (H {| width := 1280; height := 720 |}).
    + reflexivity.
    + apply zeroRng_ok.
    + unfold MARGIN. cbn. lra.
    + unfold MARGIN. cbn. lra.
  - apply H'. reflexivity.
Defined.

(** * main.js: the trigger and the frame update *)

(** config.js: the button of the trigger. *)
Definition TRIGGER_BUTTON : nat := 23.

(** A gamepad: the values of its axes and of its buttons. *)
Record Pad := { axes : list R; buttons : list R }.

(** [pad.buttons[i]?.value || 0] *)
Definition button (pad : Pad) (i : nat) : R := default 0 (buttons pad !! i).

(** What main.js keeps between frames in bindings of state.js besides
    the world: [state.lastFrameMs] and [state.triggerPressed]. *)
Record Game := { lastFrameMs : R; triggerPressed : bool }.

Definition set_lastFrameMs (t : R) (g : Game) : Game :=
  {| lastFrameMs := t; triggerPressed := triggerPressed g |}.

Definition set_triggerPressed (b : bool) (g : Game) : Game :=
  {| lastFrameMs := lastFrameMs g; triggerPressed := b |}.

(** Computations of main.js: on the game and the world, with
    exceptions. *)
Definition Gm (A : Type) : Type := Game * World -> Res A * (Game * World).

Definition gret {A} (a : A) : Gm A := fun st => (Val a, st).

Definition gbind {A B} (c : Gm A) (k : A -> Gm B) : Gm B :=
  fun st => match c st with
            | (Val a, st') => k a st'
            | (Throw, st') => (Throw, st')
            end.

Notation "'exec' x <- c ; k" := (gbind c (fun x => k))
  (at level 10, x name, c at level 100, k at level 200).

Definition liftJs {A} (c : Js A) : Gm A :=
  fun st => let (r, w') := c (snd st) in (r, (fst st, w')).

Definition getG {A} (f : Game -> A) : Gm A := fun st => (Val (f (fst st)), st).

(** [state.x = v] for a binding of the game: like [assignState], the
    statement throws and the binding keeps its value. *)
Definition assignGame (f : Game -> Game) : Gm unit := fun st => (Throw, st).

(** [handleTrigger(pad)] *)
Definition handleTrigger (pad : Pad) : Gm unit :=
  let v := button pad TRIGGER_BUTTON in
  exec pressed <- getG triggerPressed;
  exec _ <-
    (if Rlt_b 0.8 v && negb pressed then
       exec _ <- assignGame (set_triggerPressed true);
       liftJs shoot
     else gret tt);
  if Rlt_b v 0.2 then assignGame (set_triggerPressed false) else gret tt.

Module main.

(** [update()]; [pad] is what [getPad(state.activeIndex)] returns.  The
    fourth statement, [state.lastFrameMs = t], throws: what follows it
    in the source, from the reading of the sticks to [updateMovers] and
    [handleTrigger(pad)], is never run and is not modelled. *)
Definition update (pad : option Pad) : Gm unit :=
  match pad with
  | None => gret tt
  | Some pad =>
      exec t <- liftJs nowMs;
      exec last <- getG lastFrameMs;
      let dtN := clamp ((t - last) / 16.6667) 0.25 3 in
      assignGame (set_lastFrameMs t)
  end.

End main.

(** The game before the first frame; [state.lastFrameMs] starts at the
    time of loading. *)
Definition initialGame : Game := {| lastFrameMs := 0; triggerPressed := false |}.

(** A gamepad at rest, and one with the trigger pulled. *)
Definition restingPad : Pad :=
  {| axes := [0.05; -0.1; 0; 0; 0; 0.11]; buttons := replicate 24 0.5 |}.

Definition firingPad : Pad :=
  {| axes := [0; 0; 0; 0; 0; 0]; buttons := replicate 24 1 |}.



